(** * OData query options: a shallow embedding of the parser and renderer

    The Go package parses the options [$filter], [$orderby], [$top] and
    [$skip] of a URL query into a [DataFilter] and renders it as a SQL-shaped
    fragment.  This development embeds the package function by function and
    proves properties of the embedded functions.

    Conventions of the embedding:
    - a Go [string] is a [string] of bytes; query texts and names are ASCII,
      so a rune of the Go [regexp] and [strings] packages is one byte;
    - a Go [map[string]string] is an association list with unique keys; the
      order in which each [range] statement yields the entries is not fixed
      by Go and is therefore an explicit argument ([ranges]), constrained
      only to be a permutation of the map;
    - a function returning [(T, error)] returns a [result T];
    - a method mutating its receiver takes the receiver and returns it;
    - a run-time panic is the outcome [Panic];
    - [regexp] is embedded as a backtracking matcher over an abstract
      syntax, which finds what Go documents its engine to find: the leftmost
      match, and among those the one a backtracking search finds first.
      A name is spliced into a pattern as a literal, which is what the
      pattern text means when the name has no regexp metacharacter. *)

From Stdlib Require Import String Ascii List ZArith Lia Bool Permutation.
From Stdlib Require Import DecimalString.
From Stdlib Require DecimalPos.
Import ListNotations.
Open Scope string_scope.
Set Warnings "-register-all".
Set Warnings "-automation".

(** ** Byte strings *)

Module Str.

Fixpoint drop (n : nat) (s : string) : string :=
  match n, s with
  | O, _ => s
  | S _, EmptyString => EmptyString
  | S n', String _ s' => drop n' s'
  end.

Fixpoint take (n : nat) (s : string) : string :=
  match n, s with
  | O, _ => EmptyString
  | S _, EmptyString => EmptyString
  | S n', String a s' => String a (take n' s')
  end.

Fixpoint all (p : ascii -> bool) (s : string) : bool :=
  match s with
  | EmptyString => true
  | String a s' => p a && all p s'
  end.

(** The longest prefix of [s] whose bytes all satisfy [p], and what
    follows it. *)
Fixpoint span (p : ascii -> bool) (s : string) : string * string :=
  match s with
  | EmptyString => (EmptyString, EmptyString)
  | String a s' =>
      if p a then let (u, v) := span p s' in (String a u, v)
      else (EmptyString, s)
  end.

(** [t] does not start with a byte of the class [p]. *)
Definition stops (p : ascii -> bool) (t : string) : bool :=
  match t with
  | EmptyString => true
  | String a _ => negb (p a)
  end.

Definition byte_in (lo hi : nat) (a : ascii) : bool :=
  (lo <=? nat_of_ascii a)%nat && (nat_of_ascii a <=? hi)%nat.

Definition is_digit (a : ascii) : bool := byte_in 48 57 a.

Definition is_letter (a : ascii) : bool := byte_in 65 90 a || byte_in 97 122 a.

End Str.

(** ** The regular expressions of package [regexp]

    Only the constructs the patterns of the package use. *)

Module Regexp.

Inductive regex : Type :=
| Eps                                  (* the empty pattern *)
| Lit (l : string)                     (* a literal text *)
| Class (p : ascii -> bool)            (* a character class *)
| Cat (r1 r2 : regex)                  (* r1 r2 *)
| Alt (r1 r2 : regex)                  (* r1|r2, r1 preferred *)
| Star (r : regex)                     (* r*, greedy *)
| Group (i : nat) (r : regex).         (* the i-th capturing group *)

(** [r+] *)
Definition Plus (r : regex) : regex := Cat r (Star r).

(** [strings.Join(l, "|")] as a pattern: the alternatives in the order of
    the list, each a literal; the empty list joins to the empty pattern. *)
Fixpoint alt (l : list string) : regex :=
  match l with
  | [] => Eps
  | [x] => Lit x
  | x :: l' => Alt (Lit x) (alt l')
  end.

(** Texts of the groups that took part in a match, most recent first. *)
Definition caps : Type := list (nat * string).

Fixpoint cap (c : caps) (i : nat) : string :=
  match c with
  | [] => EmptyString
  | (j, t) :: c' => if Nat.eqb i j then t else cap c' i
  end.

Section Exec.
Context {A : Type}.

Definition cont : Type := string -> caps -> option A.

(** The iterations of [r*]: an iteration must consume input; when no
    iteration leads to a match the loop is left.  The counter is the
    length of the input, which bounds the number of iterations. *)
Fixpoint star_loop (step : string -> caps -> cont -> option A) (k : cont)
         (n : nat) (s : string) (c : caps) {struct n} : option A :=
  match n with
  | O => k s c
  | S n' =>
      match step s c (fun s1 c1 =>
                        if (String.length s1 <? String.length s)%nat
                        then star_loop step k n' s1 c1 else None) with
      | Some x => Some x
      | None => k s c
      end
  end.

(** Backtracking search for a match of [r] at the start of [s], in
    continuation-passing style: [k] receives the rest of the input and
    the groups, and answers whether the rest of the pattern matches. *)
Fixpoint exec (r : regex) (s : string) (c : caps) (k : cont) {struct r}
  : option A :=
  match r with
  | Eps => k s c
  | Lit l => if prefix l s then k (Str.drop (String.length l) s) c else None
  | Class p =>
      match s with
      | EmptyString => None
      | String a s' => if p a then k s' c else None
      end
  | Cat r1 r2 => exec r1 s c (fun s1 c1 => exec r2 s1 c1 k)
  | Alt r1 r2 =>
      match exec r1 s c k with
      | Some x => Some x
      | None => exec r2 s c k
      end
  | Star r1 => star_loop (exec r1) k (String.length s) s c
  | Group i r1 =>
      exec r1 s c (fun s1 c1 =>
        k s1 ((i, Str.take (String.length s - String.length s1) s) :: c1))
  end.
End Exec.

(** A match: the text before it, the matched text, the groups, and the
    text after it. *)
Record submatch : Type := Submatch {
  pre : string;
  text : string;
  groups : caps;
  post : string
}.

(** A match starting exactly at the start of [s]. *)
Definition exec_at (r : regex) (s : string) : option submatch :=
  exec r s [] (fun s' c' =>
    Some (Submatch EmptyString
                   (Str.take (String.length s - String.length s') s) c' s')).

(** The leftmost match in [s]. *)
Fixpoint find (r : regex) (s : string) : option submatch :=
  match exec_at r s with
  | Some m => Some m
  | None =>
      match s with
      | EmptyString => None
      | String a s' =>
          match find r s' with
          | Some m => Some (Submatch (String a (pre m)) (text m) (groups m) (post m))
          | None => None
          end
      end
  end.

(** [re.FindStringSubmatch(s)]: the groups of the leftmost match, by
    index; a group that took no part reads as the empty string. *)
Definition FindStringSubmatch (r : regex) (s : string) : option (nat -> string) :=
  match find r s with
  | Some m => Some (fun i => match i with O => text m | _ => cap (groups m) i end)
  | None => None
  end.

(** The loop of [re.FindAllStringSubmatch(s, -1)]: successive matches,
    each search starting where the previous match ended; after an empty
    match the search moves on by one byte, and an empty match right after
    the previous match is not delivered.  [prev_here] says that the
    previous match ended at the current position.  Every round moves the
    position forward, so [n] rounds suffice for an input of fewer than
    [n] bytes. *)
Fixpoint all_matches (n : nat) (r : regex) (s : string) (prev_here : bool)
  : list submatch :=
  match n with
  | O => []
  | S n' =>
      match find r s with
      | None => []
      | Some m =>
          match pre m, text m with
          | EmptyString, EmptyString =>
              let later :=
                match s with
                | EmptyString => []
                | String _ s' => all_matches n' r s' false
                end in
              if prev_here then later else m :: later
          | _, _ => m :: all_matches n' r (post m) true
          end
      end
  end.

Definition FindAllStringSubmatch (r : regex) (s : string) : list submatch :=
  all_matches (S (String.length s)) r s false.

(** The loop of [re.ReplaceAllLiteralString(s, "")]: what is left of [s]
    outside the successive matches. *)
Fixpoint remove_matches (n : nat) (r : regex) (s : string) : string :=
  match n with
  | O => s
  | S n' =>
      match find r s with
      | None => s
      | Some m =>
          match text m with
          | EmptyString =>
              match post m with
              | EmptyString => pre m
              | String a s' => pre m ++ String a (remove_matches n' r s')
              end
          | _ => pre m ++ remove_matches n' r (post m)
          end
      end
  end.

Definition RemoveAll (r : regex) (s : string) : string :=
  remove_matches (S (String.length s)) r s.

(** Notions for reasoning about searches. *)
Section Notions.
Context {A : Type}.

Definition agree (k k' : @cont A) : Prop := forall s c, k s c = k' s c.

(** [k] never fails. *)
Definition total (k : @cont A) : Prop := forall s c, k s c <> None.

(** [k] accepts, with result [x], some suffix of [s]. *)
Definition reaches (k : @cont A) (s : string) (x : A) : Prop :=
  exists u s' c', s = u ++ s' /\ k s' c' = Some x.
End Notions.

Definition alike (r r' : regex) : Prop := forall s, exec_at r s = exec_at r' s.

(** The alternatives [strings.Join(l, "|")] stands for. *)
Definition alternatives (l : list string) : list string :=
  match l with
  | [] => [EmptyString]
  | _ => l
  end.

(** The character classes of the patterns. *)

(** [\s]: tab, newline, form feed, carriage return, space. *)
Definition perl_space (a : ascii) : bool :=
  match nat_of_ascii a with
  | 9 | 10 | 12 | 13 | 32 => true
  | _ => false
  end.

Definition non_space (a : ascii) : bool := negb (perl_space a).

(** The bytes of [s] before its first white space, and the rest. *)
Definition token (s : string) : string := fst (Str.span non_space s).
Definition after_token (s : string) : string := snd (Str.span non_space s).

(** [K] fails on an input that starts with a byte of the class [p]. *)
Definition rejects {A : Type} (p : ascii -> bool) (K : @cont A) : Prop :=
  forall s c, Str.stops p s = false -> K s c = None.

(** [K] fails on an input that starts with a byte other than white
    space. *)
Definition needs_space {A : Type} (K : @cont A) : Prop := rejects non_space K.

(** [\d] *)
Definition perl_digit (a : ascii) : bool := Str.is_digit a.

(** [[^&$]] *)
Definition not_amp_dollar (a : ascii) : bool :=
  negb (Ascii.eqb a "&" || Ascii.eqb a "$").

(** [[^']] *)
Definition not_quote (a : ascii) : bool := negb (Ascii.eqb a "'").

End Regexp.

(** ** Package [strings] and [strconv], as far as the package uses them *)

Module Strings.

(** The white space of [strings.TrimSpace] among the ASCII bytes: it
    includes the vertical tab, which [\s] of [regexp] does not.  In a text
    with bytes above 127 [strings.TrimSpace] trims the white space of
    Unicode as well (U+0085, U+00A0 and others); the texts of this
    embedding are ASCII ([is_ascii]). *)
Definition is_space (a : ascii) : bool :=
  match nat_of_ascii a with
  | 9 | 10 | 11 | 12 | 13 | 32 => true
  | _ => false
  end.

Fixpoint TrimLeft (s : string) : string :=
  match s with
  | EmptyString => EmptyString
  | String a s' => if is_space a then TrimLeft s' else s
  end.

Fixpoint TrimRight (s : string) : string :=
  match s with
  | EmptyString => EmptyString
  | String a s' =>
      match TrimRight s' with
      | EmptyString => if is_space a then EmptyString else String a EmptyString
      | t => String a t
      end
  end.

Definition TrimSpace (s : string) : string := TrimRight (TrimLeft s).

(** [strings.Replace(s, old, new, -1)] for a non-empty [old]: the
    occurrences of [old] are replaced from left to right, without
    overlap.  [skip] counts the bytes of an occurrence still to pass. *)
Fixpoint replace_from (old new s : string) (skip : nat) : string :=
  match s with
  | EmptyString => EmptyString
  | String a s' =>
      match skip with
      | S k => replace_from old new s' k
      | O =>
          if prefix old s
          then new ++ replace_from old new s' (String.length old - 1)
          else String a (replace_from old new s' 0)
      end
  end.

(** For an empty [old], [new] goes before every byte and at the end. *)
Fixpoint intersperse (new s : string) : string :=
  match s with
  | EmptyString => new
  | String a s' => new ++ String a (intersperse new s')
  end.

Definition ReplaceAll (s old new : string) : string :=
  match old with
  | EmptyString => intersperse new s
  | _ => replace_from old new s 0
  end.

End Strings.

Module Strconv.

Definition min_int : Z := - 2 ^ 63.
Definition max_int : Z := 2 ^ 63 - 1.

Definition digit_value (a : ascii) : Z := Z.of_nat (nat_of_ascii a) - 48.

Fixpoint digits_value (s : string) (acc : Z) : option Z :=
  match s with
  | EmptyString => Some acc
  | String a s' =>
      if Str.is_digit a then digits_value s' (acc * 10 + digit_value a)
      else None
  end.

(** [strconv.Atoi] on a 64-bit platform: an optional sign and one or
    more decimal digits, the value in the range of [int]; [None] stands
    for the [*NumError] it returns otherwise. *)
Definition Atoi (s : string) : option Z :=
  match s with
  | EmptyString => None
  | String a s' =>
      let signed := (Ascii.eqb a "+" || Ascii.eqb a "-")%bool in
      let body := if signed then s' else s in
      match body with
      | EmptyString => None
      | _ =>
          match digits_value body 0 with
          | None => None
          | Some n =>
              let v := if Ascii.eqb a "-" then (- n)%Z else n in
              if ((min_int <=? v) && (v <=? max_int))%Z then Some v else None
          end
      end
  end.

(** The decimal text of an [int], as [%v] prints it. *)
Definition Itoa (z : Z) : string := NilZero.string_of_int (Z.to_int z).

End Strconv.

(** ** The data model (part_000, lines 13-68) *)

Definition filter : string := "$filter".
Definition orderBy : string := "$orderby".
Definition top : string := "$top".
Definition skip : string := "$skip".

(** [FilterNode] without its [Next] pointer: a chain of nodes linked by
    [Next] and ending in [nil] is the list of its nodes, [Head = nil] the
    empty list.  The nodes are allocated by [parseFilter] and linked once,
    so no chain is shared or cyclic. *)
Record FilterNode : Type := {
  Field : string;
  Operator : string;
  Conjunction : string;
  Value : string
}.

Record Filter : Type := { Head : list FilterNode }.

(** A [nil] pointer is [None].  The fields [Filter], [OrderBy], [Top] and
    [Skip] carry the prefix [D], [Filter] being the name of a type. *)
Record DataFilter : Type := {
  DFilter : option Filter;
  DOrderBy : option string;
  DTop : option Z;
  DSkip : option Z
}.

(** [map[string]string]: unique keys, read with the zero value [""] for a
    missing key. *)
Definition fieldData : Type := list (string * string).

Fixpoint get (m : fieldData) (k : string) : string :=
  match m with
  | [] => EmptyString
  | (k', v) :: m' => if String.eqb k k' then v else get m' k
  end.

Fixpoint set (m : fieldData) (k v : string) : fieldData :=
  match m with
  | [] => [(k, v)]
  | (k', v') :: m' => if String.eqb k k' then (k, v) :: m' else (k', v') :: set m' k v
  end.

Definition keys (m : fieldData) : list string := map fst m.

Inductive error : Type :=
| ErrNotStruct        (* "input value must be struct, got: ..." *)
| ErrInvalidQuery     (* "query does not correspond pattern: ...", wraps ErrInvalidQuery *)
| ErrParseTop         (* "error parsing top query option: ..." *)
| ErrParseSkip.       (* "error parsing skip query option: ..." *)

Inductive result (T : Type) : Type :=
| Ok (x : T)
| Err (e : error).
Arguments Ok {T} x.
Arguments Err {T} e.

Inductive outcome (T : Type) : Type :=
| Return (x : T)
| Panic.
Arguments Return {T} x.
Arguments Panic {T}.

(** [Insert] walks to the last node and links the new one after it. *)
Fixpoint insert_last (chain : list FilterNode) (new : FilterNode) : list FilterNode :=
  match chain with
  | [] => [new]
  | node :: next => node :: insert_last next new
  end.

Definition Insert (f : Filter) (new : FilterNode) : Filter :=
  {| Head := insert_last (Head f) new |}.

(** ** The schema argument (part_000, lines 294-338)

    What [reflect] shows of the [src any] argument: a struct with its
    fields in declaration order, each with its name, the value of its
    [sql] tag ([""] when it has none) and the field's own value; a pointer;
    or a value of any other kind.  Field names are ASCII identifiers, and a
    tagged field of struct kind whose name does not start with a lower-case
    letter is exported, so that [Interface] returns its value.  (On a
    tagged field of struct kind such as [_inner], which is not exported
    and does not start with a lower-case letter, [Interface] panics; the
    embedding is of the schemas without such a field,
    [descends_exported].) *)
Inductive value : Type :=
| VStruct (fields : list (string * string * value))
| VPointer (elem : option value)
| VOther.

(** [reflect.Indirect]: a pointer is followed once; a [nil] pointer gives
    the invalid value, which is of no struct kind. *)
Definition Indirect (v : value) : value :=
  match v with
  | VPointer (Some e) => e
  | VPointer None => VOther
  | _ => v
  end.

Definition starts_lower (name : string) : bool :=
  match name with
  | EmptyString => false
  | String a _ => Str.byte_in 97 122 a
  end.

Definition merge (res nested : fieldData) : fieldData :=
  fold_left (fun r kv => set r (fst kv) (snd kv)) nested res.

(** The body of [getStructFieldData] on a value of struct kind: the loop
    over the fields, with the recursive call on a nested struct (which
    cannot fail, its argument being of struct kind) and the merge of its
    result. *)
Fixpoint struct_fields (src : value) : fieldData :=
  match src with
  | VStruct fields =>
      (fix loop (fields : list (string * string * value)) (res : fieldData)
         : fieldData :=
         match fields with
         | [] => res
         | (fieldName, tagValue, fieldValue) :: rest =>
             if starts_lower fieldName then loop rest res
             else if String.eqb tagValue "" then loop rest res
             else
               let res := set res fieldName tagValue in
               match fieldValue with
               | VStruct _ => loop rest (merge res (struct_fields fieldValue))
               | _ => loop rest res
               end
         end) fields []
  | _ => []
  end.

(** Returns the map and the error, as the source does: [nil, err] or
    [res, nil]; a [nil] map ranges and reads as the empty map. *)
Definition getStructFieldData (src : value) : fieldData * option error :=
  match Indirect src with
  | VStruct fields => (struct_fields (VStruct fields), None)
  | _ => ([], Some ErrNotStruct)
  end.

(** ** The order of map iteration

    Each [range] over a map yields the entries in an order Go leaves
    unspecified.  A [ranges] gives, for each [range] statement of the
    parsers, the order in which that statement yields the entries of the
    map it ranges over. *)
Record ranges : Type := {
  filter_fields : fieldData -> fieldData;    (* parseFilter, range fieldMap *)
  filter_opers : fieldData -> fieldData;     (* parseFilter, range operMap *)
  filter_conjs : fieldData -> fieldData;     (* parseFilter, range conjMap *)
  order_fields : fieldData -> fieldData;     (* parseOrderBy, first range fieldMap *)
  order_sorts : fieldData -> fieldData;      (* parseOrderBy, first range sortMap *)
  replace_fields : fieldData -> fieldData;   (* parseOrderBy, second range fieldMap *)
  replace_sorts : fieldData -> fieldData     (* parseOrderBy, second range sortMap *)
}.

(** An order of iteration yields every entry once. *)
Definition range_order (f : fieldData -> fieldData) : Prop :=
  forall m, Permutation m (f m).

Definition ranges_ok (rg : ranges) : Prop :=
  range_order (filter_fields rg) /\ range_order (filter_opers rg) /\
  range_order (filter_conjs rg) /\ range_order (order_fields rg) /\
  range_order (order_sorts rg) /\ range_order (replace_fields rg) /\
  range_order (replace_sorts rg).

(** The order in which the entries were written. *)
Definition in_order : ranges :=
  {| filter_fields := fun m => m; filter_opers := fun m => m;
     filter_conjs := fun m => m; order_fields := fun m => m;
     order_sorts := fun m => m; replace_fields := fun m => m;
     replace_sorts := fun m => m |}.

(** ** The parsers (part_000, lines 137-292) *)

Import Regexp.

(** The pattern of [parseQueryOption] for an option name [$opt]: the group
    [option] is the literal [$opt=] (the backslash of the pattern makes the
    leading [$] a literal), the group [value] is [[^&$]] repeated.  This
    is the pattern of the source for a name made of [$] and an identifier,
    as the four names the package passes are; for another name the
    backslash and the name mean another pattern. *)
Definition optionPattern (opt : string) : regex :=
  Cat (Group 1 (Lit (opt ++ "=")))
      (Group 2 (Star (Class not_amp_dollar))).

Definition parseQueryOption (query opt : string) : string :=
  match FindStringSubmatch (optionPattern opt) query with
  | Some match_ => match_ 2%nat
  | None => ""
  end.

Definition parseSkip (url : string) : result (option Z) :=
  let query := parseQueryOption url skip in
  if String.eqb query "" then Ok None
  else match Strconv.Atoi query with
       | None => Err ErrParseSkip
       | Some val => Ok (Some val)
       end.

Definition parseTop (url : string) : result (option Z) :=
  let query := parseQueryOption url top in
  if String.eqb query "" then Ok None
  else match Strconv.Atoi query with
       | None => Err ErrParseTop
       | Some val => Ok (Some val)
       end.

Definition sortMap : fieldData :=
  [("asc", "ASC"); ("desc", "DESC"); ("ASC", "ASC"); ("DESC", "DESC")].

(** [(%s)(\s(%s))*,*] *)
Definition orderByPattern (fieldList sortList : list string) : regex :=
  Cat (Group 1 (alt fieldList))
      (Cat (Star (Group 2 (Cat (Class perl_space) (Group 3 (alt sortList)))))
           (Star (Lit ","))).

Definition replace_each (order : fieldData) (query : string) : string :=
  fold_left (fun q kv => Strings.ReplaceAll q (fst kv) (snd kv)) order query.

Definition parseOrderBy (url : string) (fieldMap : fieldData) (rg : ranges)
  : result (option string) :=
  let query := parseQueryOption url orderBy in
  if String.eqb query "" then Ok None
  else
    let fieldList := flat_map (fun kv => [fst kv; snd kv]) (order_fields rg fieldMap) in
    let sortList := flat_map (fun kv => [snd kv; fst kv]) (order_sorts rg sortMap) in
    let re := orderByPattern fieldList sortList in
    if negb (String.eqb (Strings.TrimSpace (RemoveAll re query)) "")
    then Err ErrInvalidQuery
    else
      let query := replace_each (replace_fields rg fieldMap) query in
      let query := replace_each (replace_sorts rg sortMap) query in
      Ok (Some query).

Definition operMap : fieldData :=
  [("eq", "="); ("ne", "!="); ("gt", ">"); ("lt", "<"); ("lte", "<="); ("gte", ">=")].

Definition conjMap : fieldData := [("and", "AND"); ("or", "OR")].

(** [(?P<field>%s)\s+(?P<operator>%s)\s+(?P<value>\d+|'[^']+')\s*(?P<conjunction>%s)*\s*] *)
Definition filterPattern (fieldList operList conjList : list string) : regex :=
  Cat (Group 1 (alt fieldList))
  (Cat (Plus (Class perl_space))
  (Cat (Group 2 (alt operList))
  (Cat (Plus (Class perl_space))
  (Cat (Group 3 (Alt (Plus (Class perl_digit))
                     (Cat (Lit "'") (Cat (Plus (Class not_quote)) (Lit "'")))))
  (Cat (Star (Class perl_space))
  (Cat (Star (Group 4 (alt conjList)))
       (Star (Class perl_space)))))))).

(** The node built from one match: the groups [field], [operator],
    [value] and [conjunction] are the groups 1 to 4. *)
Definition node_of (fieldMap : fieldData) (m : submatch) : FilterNode :=
  {| Field := get fieldMap (cap (groups m) 1);
     Operator := get operMap (cap (groups m) 2);
     Conjunction := get conjMap (cap (groups m) 4);
     Value := cap (groups m) 3 |}.

(** The pattern [parseFilter] compiles: the lists are filled by ranging
    over the maps. *)
Definition filterRegexp (fieldMap : fieldData) (rg : ranges) : regex :=
  let fieldList := flat_map (fun kv => [fst kv; snd kv]) (filter_fields rg fieldMap) in
  let operList := keys (filter_opers rg operMap) in
  let conjList := keys (filter_conjs rg conjMap) in
  filterPattern fieldList operList conjList.

(** The call of [log.Printf] writes the filter text to the log and has
    no part in the result. *)
Definition parseFilter (url : string) (fieldMap : fieldData) (rg : ranges)
  : result (option Filter) :=
  let query := parseQueryOption url filter in
  if String.eqb query "" then Ok None
  else
    let re := filterRegexp fieldMap rg in
    if negb (String.eqb (Strings.TrimSpace (RemoveAll re query)) "")
    then Err ErrInvalidQuery
    else
      let matches := FindAllStringSubmatch re query in
      let fil := fold_left (fun fil m => Insert fil (node_of fieldMap m))
                           matches {| Head := [] |} in
      Ok (Some fil).

(** ** [ParseURL] and [EvaluateQuery] (part_000, lines 70-135) *)

(** The error of [getStructFieldData] is assigned and then overwritten by
    the next assignment to [err] without having been read. *)
Definition ParseURL (f : DataFilter) (url : string) (src : value) (rg : ranges)
  : DataFilter * option error :=
  let (data, _) := getStructFieldData src in
  match parseFilter url data rg with
  | Err err => (f, Some err)
  | Ok filter =>
      match parseOrderBy url data rg with
      | Err err => (f, Some err)
      | Ok orderBy =>
          match parseTop url with
          | Err err => (f, Some err)
          | Ok top =>
              match parseSkip url with
              | Err err => (f, Some err)
              | Ok skip =>
                  ({| DFilter := filter; DOrderBy := orderBy;
                      DTop := top; DSkip := skip |}, None)
              end
          end
      end
  end.

Definition newline : string := String (ascii_of_nat 10) "".

(** [fmt.Sprintf("%v%v%v %v ", ...)] *)
Definition eval (node : FilterNode) : string :=
  Field node ++ Operator node ++ Value node ++ " " ++ Conjunction node ++ " ".

(** The loop [for node.Next != nil] followed by the last [eval(node)]. *)
Fixpoint eval_from (node : FilterNode) (next : list FilterNode) : string :=
  match next with
  | [] => eval node
  | node' :: next' => eval node ++ eval_from node' next'
  end.

Definition EvaluateQuery (f : DataFilter) : outcome string :=
  match DFilter f with
  | None => Panic                       (* f.Filter.Head with f.Filter == nil *)
  | Some fil =>
      match Head fil with
      | [] => Panic                     (* node.Next with node == nil *)
      | node :: next =>
          let query := "WHERE " ++ eval_from node next in
          let query := match DOrderBy f with
                       | Some o => query ++ newline ++ "ORDER BY " ++ o
                       | None => query
                       end in
          let query := match DSkip f with
                       | Some n => query ++ newline ++ "OFFSET " ++ Strconv.Itoa n
                       | None => query
                       end in
          let query := match DTop f with
                       | Some n => query ++ newline ++ "LIMIT " ++ Strconv.Itoa n
                       | None => query
                       end in
          Return query
      end
  end.

(** The struct [Book] of main.go, with the zero value of each field. *)
Definition Book : value :=
  VStruct [("ID", "id", VOther); ("AuthorID", "author_id", VOther);
           ("Title", "title", VOther); ("Genre", "genre", VOther);
           ("Rate", "rate", VOther); ("Size", "size", VOther);
           ("CreatedAt", "", VStruct [("wall", "", VOther); ("ext", "", VOther);
                                      ("loc", "", VPointer None)])].

Definition empty_filter : DataFilter :=
  {| DFilter := None; DOrderBy := None; DTop := None; DSkip := None |}.

(** ** Notions used to state the properties *)

(** The Option Extractor as the specification words it: the first
    occurrence of the key followed by [=], and from there everything up to
    the next [&] or [$] or the end; absent when the key does not occur. *)
Fixpoint extract (query optionKey : string) : option string :=
  if prefix (optionKey ++ "=") query
  then Some (fst (Str.span not_amp_dollar
                    (Str.drop (String.length (optionKey ++ "=")) query)))
  else match query with
       | EmptyString => None
       | String _ query' => extract query' optionKey
       end.

(** A base-10 integer literal: an optional sign and one or more digits. *)
Definition is_int_literal (s : string) : bool :=
  let digits d := negb (String.eqb d "") && Str.all Str.is_digit d in
  match s with
  | EmptyString => false
  | String a s' =>
      if (Ascii.eqb a "+" || Ascii.eqb a "-")%bool then digits s' else digits s
  end.

(** Names made of letters, digits and underscores: Go identifiers and
    plain column names. *)
Definition ident_byte (a : ascii) : bool :=
  Str.is_letter a || Str.is_digit a || Ascii.eqb a "_".

Definition ident (s : string) : bool := Str.all ident_byte s.

Definition idents (m : fieldData) : bool :=
  forallb (fun kv => ident (fst kv) && ident (snd kv)) m.

(** The names of a field map: its keys and its values. *)
Definition names (m : fieldData) : list string :=
  flat_map (fun kv => [fst kv; snd kv]) m.

(** A run of one or more decimal digits. *)
Definition is_number (v : string) : bool :=
  negb (String.eqb v "") && Str.all Str.is_digit v.

(** *** The clauses of a filter

    A clause as the grammar of the specification has it: a field, white
    space, an operator keyword, white space, a value, and then optional
    white space, an optional conjunction keyword and optional white
    space. *)

(** A run of [\s], possibly empty; a run that is not empty. *)
Definition is_blank (w : string) : bool := Str.all perl_space w.

Definition is_spaces (w : string) : bool := negb (String.eqb w "") && is_blank w.

(** A single-quoted text with a body that is not empty and holds no
    quote. *)
Definition is_quoted (v : string) : bool :=
  match v with
  | EmptyString => false
  | String q rest =>
      Ascii.eqb q "'" &&
      (let (body, close) := Str.span not_quote rest in
       negb (String.eqb body "") && String.eqb close "'")
  end.

Definition is_value (v : string) : bool := is_number v || is_quoted v.

Record clause : Type := {
  c_field : string;
  c_space1 : string;
  c_oper : string;
  c_space2 : string;
  c_value : string;
  c_space3 : string;
  c_conj : string;      (* [""] for no conjunction *)
  c_space4 : string
}.

Definition clause_text (c : clause) : string :=
  c_field c ++ c_space1 c ++ c_oper c ++ c_space2 c ++ c_value c ++
  c_space3 c ++ c_conj c ++ c_space4 c.

Definition mem (x : string) (l : list string) : bool := existsb (String.eqb x) l.

(** A clause over a field map: the field is a name of the map, the
    operator and the conjunction are keywords, and the value holds neither
    [&] nor [$], at which the option extractor would cut it. *)
Definition clause_ok (fieldMap : fieldData) (c : clause) : bool :=
  negb (String.eqb (c_field c) "") && mem (c_field c) (names fieldMap) &&
  is_spaces (c_space1 c) && mem (c_oper c) (keys operMap) &&
  is_spaces (c_space2 c) &&
  is_value (c_value c) && Str.all not_amp_dollar (c_value c) &&
  is_blank (c_space3 c) && mem (c_conj c) ("" :: keys conjMap) &&
  is_blank (c_space4 c).

(** A clause that another clause can follow: it ends with a conjunction
    and white space. *)
Definition linked (c : clause) : bool :=
  negb (String.eqb (c_conj c) "") && negb (String.eqb (c_space4 c) "").

(** A sequence of clauses, each but the last linked to the next. *)
Fixpoint clauses_ok (fieldMap : fieldData) (cs : list clause) : bool :=
  match cs with
  | [] => false
  | [c] => clause_ok fieldMap c
  | c :: cs' => clause_ok fieldMap c && linked c && clauses_ok fieldMap cs'
  end.

Fixpoint filter_text (cs : list clause) : string :=
  match cs with
  | [] => EmptyString
  | c :: cs' => clause_text c ++ filter_text cs'
  end.

(** The node of a clause. *)
Definition clause_node (fieldMap : fieldData) (c : clause) : FilterNode :=
  {| Field := get fieldMap (c_field c);
     Operator := get operMap (c_oper c);
     Conjunction := get conjMap (c_conj c);
     Value := c_value c |}.

(** The groups of the match of a clause. *)
Definition end_caps (kw : string) : caps :=
  match kw with
  | EmptyString => []
  | _ => [(4, kw)]
  end.

Definition clause_caps (c : clause) : caps :=
  (end_caps (c_conj c) ++ [(3, c_value c); (2, c_oper c); (1, c_field c)])%list.

(** The matches of a sequence of clauses. *)
Fixpoint clause_matches (cs : list clause) : list submatch :=
  match cs with
  | [] => []
  | c :: cs' =>
      Submatch "" (clause_text c) (clause_caps c) (filter_text cs')
      :: clause_matches cs'
  end.

(** The alternatives of the field group of the filter pattern, in the
    order of the pattern. *)
Definition filter_field_list (fieldMap : fieldData) (rg : ranges) : list string :=
  flat_map (fun kv => [fst kv; snd kv]) (filter_fields rg fieldMap).

(** No alternative comes after a proper prefix of itself. *)
Fixpoint longer_first (l : list string) : bool :=
  match l with
  | [] => true
  | x :: l' =>
      forallb (fun y => negb (prefix x y && negb (String.eqb x y))) l'
      && longer_first l'
  end.

(** The invariant the specification words for a Filter Chain: every node
    but the last carries [AND] or [OR], the last carries none. *)
Definition is_conj (s : string) : bool := String.eqb s "AND" || String.eqb s "OR".

Fixpoint chain_invariant (chain : list FilterNode) : bool :=
  match chain with
  | [] => true
  | [node] => String.eqb (Conjunction node) ""
  | node :: next => is_conj (Conjunction node) && chain_invariant next
  end.

(** All the orders of a list. *)
Fixpoint insert_everywhere {A : Type} (a : A) (l : list A) : list (list A) :=
  match l with
  | [] => [[a]]
  | x :: l' => (a :: l) :: map (cons x) (insert_everywhere a l')
  end.

Fixpoint perms {A : Type} (l : list A) : list (list A) :=
  match l with
  | [] => [[]]
  | a :: l' => flat_map (insert_everywhere a) (perms l')
  end.

(** The round trip of the specification: a schema with the field map
    [{Rate: "rate", Genre: "genre", Title: "title"}], the query, the
    DataFilter it is parsed into, the text the specification gives for it
    and the text [EvaluateQuery] renders. *)
Definition books_schema : value :=
  VStruct [("Rate", "rate", VOther); ("Genre", "genre", VOther);
           ("Title", "title", VOther)].

Definition books_map : fieldData :=
  [("Rate", "rate"); ("Genre", "genre"); ("Title", "title")].

Definition books_query : string :=
  "$filter=Rate lt 100 and Genre eq 'Thriller'&$orderby=Title desc&$top=100&$skip=10".

Definition books_filter : DataFilter :=
  {| DFilter :=
       Some {| Head :=
                 [{| Field := "rate"; Operator := "<";
                     Conjunction := "AND"; Value := "100" |};
                  {| Field := "genre"; Operator := "=";
                     Conjunction := ""; Value := "'Thriller'" |}] |};
     DOrderBy := Some "title DESC";
     DTop := Some 100%Z;
     DSkip := Some 10%Z |}.

Definition books_text_spec : string :=
  "WHERE rate<100 AND genre='Thriller' " ++ newline ++
  "ORDER BY title DESC" ++ newline ++ "OFFSET 10" ++ newline ++ "LIMIT 100".

Definition books_text : string :=
  "WHERE rate<100 AND genre='Thriller'  " ++ newline ++
  "ORDER BY title DESC" ++ newline ++ "OFFSET 10" ++ newline ++ "LIMIT 100".

(** The reverse of the order of writing. *)
Definition reversed : ranges :=
  {| filter_fields := @rev _; filter_opers := @rev _; filter_conjs := @rev _;
     order_fields := @rev _; order_sorts := @rev _; replace_fields := @rev _;
     replace_sorts := @rev _ |}.

(** ** The earlier schema reader (main.go, lines 95-135)

    [getStructFieldNamesAndTags] returns the names and tags as a slice.
    Its error is either the one of the kind check or the one of a nested
    call, wrapped. *)
Inductive schema_error : Type :=
| NotStruct                              (* "input value must be struct, got: ..." *)
| NestedStruct (err : schema_error).     (* "error validating nested struct: ..." *)

(** [unicode.IsUpper] on the first letter of an ASCII name. *)
Definition starts_upper (name : string) : bool :=
  match name with
  | EmptyString => false
  | String a _ => Str.byte_in 65 90 a
  end.

(** The function on the value [reflect.Indirect] gives.  The nested call
    receives a value of struct kind, which [reflect.Indirect] leaves as it
    is. *)
Fixpoint names_and_tags (src : value) : list string + schema_error :=
  match src with
  | VStruct fields =>
      (fix loop (fields : list (string * string * value)) (res : list string)
         : list string + schema_error :=
         match fields with
         | [] => inl res
         | (fieldName, tagValue, fieldValue) :: rest =>
             if negb (starts_upper fieldName) then loop rest res
             else
               let res := (res ++ [fieldName; tagValue])%list in
               match fieldValue with
               | VStruct _ =>
                   match names_and_tags fieldValue with
                   | inr err => inr (NestedStruct err)
                   | inl nested => loop rest (res ++ nested)%list
                   end
               | _ => loop rest res
               end
         end) fields []
  | _ => inr NotStruct
  end.

Definition getStructFieldNamesAndTags (src : value) : list string + schema_error :=
  names_and_tags (Indirect src).

(** ** Further notions *)

(** One round of the loop of [getStructFieldData]. *)
Definition field_step (res : fieldData) (f : string * string * value) : fieldData :=
  let '(fieldName, tagValue, fieldValue) := f in
  if starts_lower fieldName then res
  else if String.eqb tagValue "" then res
  else
    let res := set res fieldName tagValue in
    match fieldValue with
    | VStruct _ => merge res (struct_fields fieldValue)
    | _ => res
    end.

(** One round of the loop of [getStructFieldNamesAndTags]. *)
Definition names_step (res : list string + schema_error)
           (f : string * string * value) : list string + schema_error :=
  let '(fieldName, tagValue, fieldValue) := f in
  match res with
  | inr err => inr err
  | inl res =>
      if negb (starts_upper fieldName) then inl res
      else
        let res := (res ++ [fieldName; tagValue])%list in
        match fieldValue with
        | VStruct _ =>
            match names_and_tags fieldValue with
            | inr err => inr (NestedStruct err)
            | inl nested => inl (res ++ nested)%list
            end
        | _ => inl res
        end
  end.

Definition field_name (f : string * string * value) : string := fst (fst f).
Definition field_tag (f : string * string * value) : string := snd (fst f).
Definition field_value (f : string * string * value) : value := snd f.

(** The fields [getStructFieldData] does not descend into: those of no
    struct kind, and those it skips. *)
Definition flat (fields : list (string * string * value)) : bool :=
  forallb (fun f => match field_value f with
                    | VStruct _ => starts_lower (field_name f)
                                   || String.eqb (field_tag f) ""
                    | _ => true
                    end) fields.

(** An entry [getStructFieldData] may write: the key does not start with a
    lower-case letter and the column name is not empty. *)
Definition entry_ok (kv : string * string) : bool :=
  negb (starts_lower (fst kv)) && negb (String.eqb (snd kv) "").

(** [x] occurs in [s]. *)
Fixpoint occurs (x s : string) : bool :=
  prefix x s ||
  match s with
  | EmptyString => false
  | String _ s' => occurs x s'
  end.

(** The columns, the operators and the conjunctions a node can carry. *)
Definition columns (m : fieldData) : list string := map snd m.

(** A node whose field, operator and conjunction come from the tables (or
    are empty), and whose value is a number or a quoted text. *)
Definition node_ok (fieldMap : fieldData) (node : FilterNode) : Prop :=
  In (Field node) ("" :: columns fieldMap) /\
  In (Operator node) ("" :: columns operMap) /\
  In (Conjunction node) ("" :: columns conjMap) /\
  is_value (Value node) = true.


(** The matches [ms] are matches of the pattern [r] in [s], one after the
    other: the first is the match of [r] at its place in [s], with the
    groups the pattern captures there, and the later ones are matches of
    [r] in what the first left over. *)
Inductive matches_in (r : regex) : list submatch -> string -> Prop :=
| mi_nil : forall s, matches_in r [] s
| mi_cons : forall m ms s before,
    s = before ++ text m ++ post m ->
    exec_at r (text m ++ post m)
    = Some (Submatch "" (text m) (groups m) (post m)) ->
    matches_in r ms (post m) ->
    matches_in r (m :: ms) s.

(** Every field [getStructFieldData] descends into is exported, in the
    struct and in the nested structs: its name starts with an upper-case
    letter, so that [Interface] returns its value. *)
Fixpoint descends_exported (src : value) : bool :=
  match src with
  | VStruct fields =>
      forallb (fun f =>
                 match f with
                 | (fieldName, tagValue, fieldValue) =>
                     match fieldValue with
                     | VStruct _ =>
                         starts_lower fieldName || String.eqb tagValue "" ||
                         (starts_upper fieldName && descends_exported fieldValue)
                     | _ => true
                     end
                 end) fields
  | _ => true
  end.

(** A byte of an ASCII text. *)
Definition is_ascii (a : ascii) : bool := (nat_of_ascii a <? 128)%nat.

(** The names and tags come in pairs, and the names start with an
    upper-case letter. *)
Definition paired (l : list string) : Prop :=
  exists pairs : fieldData,
    l = names pairs /\ forallb (fun kv => starts_upper (fst kv)) pairs = true.

(** The pattern [r] has no group [i]. *)
Fixpoint no_group (i : nat) (r : regex) : bool :=
  match r with
  | Cat r1 r2 | Alt r1 r2 => no_group i r1 && no_group i r2
  | Star r1 => no_group i r1
  | Group j r1 => negb (Nat.eqb i j) && no_group i r1
  | _ => true
  end.

(** The values of an [int]. *)
Definition in_int_range (v : Z) : bool :=
  ((Strconv.min_int <=? v) && (v <=? Strconv.max_int))%Z.


(** *** Queries made of options *)

Definition not_dollar (a : ascii) : bool := negb (Ascii.eqb a "$").

(** The name of an option: an identifier, with or without a [$] before
    it. *)
Definition key_ok (key : string) : bool :=
  match key with
  | EmptyString => false
  | String a name => (Ascii.eqb a "$" || ident_byte a) && ident name
  end.

Definition option_ok (kv : string * string) : bool :=
  key_ok (fst kv) && Str.all not_amp_dollar (snd kv).

(** The options joined by [&]. *)
Fixpoint query_text (opts : list (string * string)) : string :=
  match opts with
  | [] => ""
  | [(key, v)] => key ++ "=" ++ v
  | (key, v) :: opts' => key ++ "=" ++ v ++ "&" ++ query_text opts'
  end.

(** The value of the first option of a name. *)
Fixpoint lookup (key : string) (opts : list (string * string)) : option string :=
  match opts with
  | [] => None
  | (key', v) :: opts' => if String.eqb key key' then Some v else lookup key opts'
  end.


(** * Properties *)

(** ** Byte strings *)

Module StrFacts.
Import Str.

Lemma append_nil_r (s : string) : s ++ "" = s.
Proof. induction s; simpl; congruence. Qed.

Lemma append_assoc (s t u : string) : (s ++ t) ++ u = s ++ t ++ u.
Proof. induction s; simpl; congruence. Qed.

Lemma length_append (s t : string) :
  String.length (s ++ t) = String.length s + String.length t.
Proof. induction s; simpl; congruence. Qed.

Lemma prefix_refl_append (s t : string) : prefix s (s ++ t) = true.
Proof.
  induction s as [|a s IH]; simpl; [destruct t; reflexivity|].
  destruct (ascii_dec a a); [assumption|congruence].
Qed.

Lemma prefix_split (s t : string) :
  prefix s t = true -> t = s ++ drop (String.length s) t.
Proof.
  revert t; induction s as [|a s IH]; intros t H; simpl.
  - reflexivity.
  - destruct t as [|b t]; simpl in H; [discriminate|].
    destruct (ascii_dec a b); [subst|discriminate].
    simpl; f_equal; auto.
Qed.

Lemma drop_append (s t : string) : drop (String.length s) (s ++ t) = t.
Proof. induction s; simpl; auto. Qed.

Lemma take_append (s t : string) : take (String.length s) (s ++ t) = s.
Proof. induction s; simpl; congruence. Qed.

(** The text consumed between [s] and a suffix [s'] of it. *)
Lemma take_consumed (u s' : string) :
  take (String.length (u ++ s') - String.length s') (u ++ s') = u.
Proof.
  rewrite length_append.
  replace (String.length u + String.length s' - String.length s')
    with (String.length u) by lia.
  apply take_append.
Qed.

Lemma all_append (p : ascii -> bool) (s t : string) :
  all p (s ++ t) = all p s && all p t.
Proof.
  induction s; simpl; [reflexivity|].
  rewrite IHs, andb_assoc; reflexivity.
Qed.

Lemma span_append (p : ascii -> bool) (s : string) :
  fst (span p s) ++ snd (span p s) = s.
Proof.
  induction s as [|a s IH]; simpl; [reflexivity|].
  destruct (p a); [|reflexivity].
  destruct (span p s); simpl in *; congruence.
Qed.

Lemma span_all (p : ascii -> bool) (s : string) : all p (fst (span p s)) = true.
Proof.
  induction s as [|a s IH]; simpl; [reflexivity|].
  destruct (p a) eqn:E; [|reflexivity].
  destruct (span p s); simpl in *; rewrite E; assumption.
Qed.

Lemma span_unique (p : ascii -> bool) (u t : string) :
  all p u = true -> stops p t = true -> span p (u ++ t) = (u, t).
Proof.
  intros Hu Ht; induction u as [|a u IH]; simpl in *.
  - destruct t as [|b t]; [reflexivity|]; simpl in Ht.
    destruct (p b) eqn:E; [discriminate|simpl; rewrite E; reflexivity].
  - apply andb_true_iff in Hu as [Ha Hu]; rewrite Ha, (IH Hu); reflexivity.
Qed.

End StrFacts.

(** ** The matcher *)

Module RegexpFacts.
Import Str StrFacts Regexp.

Section Generic.
Context {A : Type}.
Implicit Types (k : @cont A) (r : regex) (s : string) (c : caps).

(** Continuations that agree give the same search. *)
Lemma star_loop_ext step step' k k' n s c :
  (forall s c k1 k2, agree k1 k2 -> step s c k1 = step' s c k2) ->
  agree k k' ->
  star_loop step k n s c = star_loop step' k' n s c.
Proof.
  intros Hstep Hk; revert s c; induction n as [|n IH]; intros s c; simpl.
  - apply Hk.
  - rewrite (Hstep s c _ (fun s1 c1 =>
               if (String.length s1 <? String.length s)%nat
               then star_loop step' k' n s1 c1 else None)).
    + rewrite Hk; reflexivity.
    + intros s1 c1; rewrite IH; reflexivity.
Qed.

Lemma exec_ext r : forall s c k k', agree k k' -> exec r s c k = exec r s c k'.
Proof.
  induction r as [|l|p|r1 IH1 r2 IH2|r1 IH1 r2 IH2|r1 IH1|i r1 IH1];
    intros s c k k' Hk; simpl.
  - apply Hk.
  - destruct (prefix l s); [apply Hk|reflexivity].
  - destruct s as [|a s]; [reflexivity|]; destruct (p a); [apply Hk|reflexivity].
  - apply IH1; intros s1 c1; apply IH2, Hk.
  - rewrite (IH1 s c k k' Hk), (IH2 s c k k' Hk); reflexivity.
  - apply star_loop_ext; [|exact Hk].
    intros s0 c0 k1 k2 H12; apply IH1, H12.
  - apply IH1; intros s1 c1; apply Hk.
Qed.

(** A successful search has handed a suffix of the input to the
    continuation. *)
Lemma reaches_here k s c x : k s c = Some x -> reaches k s x.
Proof. intros H; exists "", s, c; split; [reflexivity|exact H]. Qed.

Lemma reaches_trans k k' s x :
  reaches k' s x ->
  (forall s' c', k' s' c' = Some x -> reaches k s' x) ->
  reaches k s x.
Proof.
  intros (u & s1 & c1 & -> & H1) H.
  destruct (H _ _ H1) as (v & s2 & c2 & -> & H2).
  exists (u ++ v), s2, c2; split; [symmetry; apply append_assoc|exact H2].
Qed.

Lemma star_loop_reaches step k x :
  (forall s c k', step s c k' = Some x -> reaches k' s x) ->
  forall n s c, star_loop step k n s c = Some x -> reaches k s x.
Proof.
  intros Hstep; induction n as [|n IH]; intros s c H; simpl in H.
  - eapply reaches_here; eauto.
  - match type of H with
    | match ?e with _ => _ end = _ => destruct e as [y|] eqn:E
    end.
    + injection H as ->.
      apply Hstep in E.
      eapply reaches_trans; [exact E|].
      intros s1 c1 H1; simpl in H1.
      destruct (String.length s1 <? String.length s)%nat; [|discriminate].
      eapply IH; eauto.
    + eapply reaches_here; eauto.
Qed.

Lemma exec_reaches r x : forall s c k, exec r s c k = Some x -> reaches k s x.
Proof.
  induction r as [|l|p|r1 IH1 r2 IH2|r1 IH1 r2 IH2|r1 IH1|i r1 IH1];
    intros s c k H; simpl in H.
  - eapply reaches_here; eauto.
  - destruct (prefix l s) eqn:E; [|discriminate].
    exists l, (drop (String.length l) s), c; split; [|exact H].
    apply prefix_split, E.
  - destruct s as [|a s]; [discriminate|].
    destruct (p a); [|discriminate].
    exists (String a ""), s, c; split; [reflexivity|exact H].
  - apply IH1 in H.
    eapply reaches_trans; [exact H|].
    intros s1 c1 H1; exact (IH2 _ _ _ H1).
  - destruct (exec r1 s c k) as [y|] eqn:E.
    + injection H as ->; eapply IH1; eauto.
    + eapply IH2; eauto.
  - eapply star_loop_reaches; [|exact H].
    intros; eapply IH1; eauto.
  - apply IH1 in H.
    eapply reaches_trans; [exact H|].
    intros s1 c1 H1; simpl in H1; eapply reaches_here; eauto.
Qed.
End Generic.

(** A match at the start of [s] splits [s]. *)
Lemma exec_at_split r s m :
  exec_at r s = Some m -> pre m = "" /\ s = text m ++ post m.
Proof.
  unfold exec_at; intros H.
  apply exec_reaches in H as (u & s' & c' & -> & H).
  injection H as <-; simpl.
  rewrite take_consumed; auto.
Qed.

Lemma find_split r : forall s m,
  find r s = Some m -> s = pre m ++ text m ++ post m.
Proof.
  induction s as [|a s IH]; intros m H; simpl in H.
  - destruct (exec_at r "") as [m'|] eqn:E; [|discriminate].
    injection H as ->; apply exec_at_split in E as [-> E]; exact E.
  - destruct (exec_at r (String a s)) as [m'|] eqn:E.
    + injection H as ->; apply exec_at_split in E as [-> E]; exact E.
    + destruct (find r s) as [m'|] eqn:F; [|discriminate].
      injection H as <-; simpl; f_equal; auto.
Qed.

(** Regular expressions that search alike find alike. *)
Lemma find_alike r r' : alike r r' -> forall s, find r s = find r' s.
Proof.
  intros H; induction s as [|a s IH]; simpl; rewrite H; [reflexivity|].
  rewrite IH; reflexivity.
Qed.

Lemma remove_matches_alike r r' :
  alike r r' -> forall n s, remove_matches n r s = remove_matches n r' s.
Proof.
  intros H; induction n as [|n IH]; intros s; simpl; [reflexivity|].
  rewrite (find_alike _ _ H).
  destruct (find r' s) as [m|]; [|reflexivity].
  destruct (text m); [destruct (post m)|]; rewrite ?IH; reflexivity.
Qed.

Lemma all_matches_alike r r' :
  alike r r' -> forall n s b, all_matches n r s b = all_matches n r' s b.
Proof.
  intros H; induction n as [|n IH]; intros s b; simpl; [reflexivity|].
  rewrite (find_alike _ _ H).
  destruct (find r' s) as [m|]; [|reflexivity].
  destruct (pre m), (text m), s; rewrite ?IH; reflexivity.
Qed.

(** *** The counters are large enough

    The loops of the matcher count down from the length of their input;
    a larger counter gives the same result, so no loop ends because its
    counter runs out. *)

Lemma exec_fails {A : Type} r s c : exec r s c (fun _ _ => @None A) = None.
Proof.
  destruct (exec r s c (fun _ _ => None)) as [x|] eqn:E; [|reflexivity].
  apply exec_reaches in E as (u & s' & c' & _ & E); discriminate.
Qed.

Lemma star_loop_more {A : Type} r (k : @cont A) : forall n s c,
  String.length s <= n ->
  star_loop (exec r) k (S n) s c = star_loop (exec r) k n s c.
Proof.
  induction n as [|n IH]; intros s c Hn.
  - destruct s; [|simpl in Hn; lia].
    change (star_loop (exec r) k 1 "" c)
      with (match exec r "" c (fun s1 c1 =>
                    if (String.length s1 <? 0)%nat
                    then star_loop (exec r) k 0 s1 c1 else None) with
            | Some x => Some x
            | None => k "" c
            end).
    rewrite (exec_ext r "" c _ (fun _ _ => None)), exec_fails; [reflexivity|].
    intros s1 c1; reflexivity.
  - change (star_loop (exec r) k (S (S n)) s c)
      with (match exec r s c (fun s1 c1 =>
                    if (String.length s1 <? String.length s)%nat
                    then star_loop (exec r) k (S n) s1 c1 else None) with
            | Some x => Some x
            | None => k s c
            end).
    change (star_loop (exec r) k (S n) s c)
      with (match exec r s c (fun s1 c1 =>
                    if (String.length s1 <? String.length s)%nat
                    then star_loop (exec r) k n s1 c1 else None) with
            | Some x => Some x
            | None => k s c
            end).
    rewrite (exec_ext r s c _ (fun s1 c1 =>
               if (String.length s1 <? String.length s)%nat
               then star_loop (exec r) k n s1 c1 else None)); [reflexivity|].
    intros s1 c1; destruct (String.length s1 <? String.length s)%nat eqn:L;
      [|reflexivity].
    apply Nat.ltb_lt in L; apply IH; lia.
Qed.

Lemma star_loop_enough {A : Type} r (k : @cont A) s c : forall n,
  String.length s <= n -> star_loop (exec r) k n s c = exec (Star r) s c k.
Proof.
  intros n Hn; replace n with ((n - String.length s) + String.length s) by lia.
  induction (n - String.length s) as [|d IH]; [reflexivity|].
  change (S d + String.length s) with (S (d + String.length s)).
  rewrite star_loop_more; [exact IH|lia].
Qed.

Lemma find_post_shorter r s m :
  find r s = Some m -> (pre m <> "" \/ text m <> "") ->
  String.length (post m) < String.length s.
Proof.
  intros F H; apply find_split in F; rewrite F, !length_append.
  destruct H as [H|H]; [destruct (pre m)|destruct (text m)];
    try congruence; simpl; lia.
Qed.

Lemma all_matches_more r : forall n s b,
  String.length s < n -> all_matches (S n) r s b = all_matches n r s b.
Proof.
  induction n as [|n IH]; intros s b Hn; [lia|].
  change (all_matches (S (S n)) r s b)
    with (match find r s with
          | None => []
          | Some m =>
              match pre m, text m with
              | "", "" =>
                  let later := match s with
                               | "" => []
                               | String _ s' => all_matches (S n) r s' false
                               end in
                  if b then later else m :: later
              | _, _ => m :: all_matches (S n) r (post m) true
              end
          end).
  change (all_matches (S n) r s b)
    with (match find r s with
          | None => []
          | Some m =>
              match pre m, text m with
              | "", "" =>
                  let later := match s with
                               | "" => []
                               | String _ s' => all_matches n r s' false
                               end in
                  if b then later else m :: later
              | _, _ => m :: all_matches n r (post m) true
              end
          end).
  destruct (find r s) as [m|] eqn:F; [|reflexivity].
  assert (P : (pre m <> "" \/ text m <> "") ->
              all_matches (S n) r (post m) true = all_matches n r (post m) true).
  { intros H; apply IH; pose proof (find_post_shorter _ _ _ F H); lia. }
  destruct (pre m) eqn:Ep; [destruct (text m) eqn:Et|].
  - destruct s as [|a s']; [reflexivity|].
    rewrite (IH s' false); [reflexivity|simpl in Hn; lia].
  - rewrite P; [reflexivity|right; discriminate].
  - rewrite P; [reflexivity|left; discriminate].
Qed.

Lemma remove_matches_more r : forall n s,
  String.length s < n -> remove_matches (S n) r s = remove_matches n r s.
Proof.
  induction n as [|n IH]; intros s Hn; [lia|].
  change (remove_matches (S (S n)) r s)
    with (match find r s with
          | None => s
          | Some m =>
              match text m with
              | "" => match post m with
                      | "" => pre m
                      | String a s' => pre m ++ String a (remove_matches (S n) r s')
                      end
              | _ => pre m ++ remove_matches (S n) r (post m)
              end
          end).
  change (remove_matches (S n) r s)
    with (match find r s with
          | None => s
          | Some m =>
              match text m with
              | "" => match post m with
                      | "" => pre m
                      | String a s' => pre m ++ String a (remove_matches n r s')
                      end
              | _ => pre m ++ remove_matches n r (post m)
              end
          end).
  destruct (find r s) as [m|] eqn:F; [|reflexivity].
  pose proof (find_split _ _ _ F) as Hs.
  destruct (text m) eqn:Et.
  - destruct (post m) as [|a s'] eqn:Epost; [reflexivity|].
    rewrite (IH s'); [reflexivity|].
    rewrite Hs, !length_append in Hn; simpl in Hn; lia.
  - rewrite (IH (post m)); [reflexivity|].
    rewrite Hs, !length_append in Hn; simpl in Hn; lia.
Qed.

(** [FindAllStringSubmatch] and [RemoveAll] with any larger counter. *)
Lemma all_matches_enough r s : forall n,
  String.length s < n -> all_matches n r s false = FindAllStringSubmatch r s.
Proof.
  intros n Hn; unfold FindAllStringSubmatch.
  replace n with ((n - S (String.length s)) + S (String.length s)) by lia.
  induction (n - S (String.length s)) as [|d IH]; [reflexivity|].
  change (S d + S (String.length s)) with (S (d + S (String.length s))).
  rewrite all_matches_more; [exact IH|lia].
Qed.

Lemma remove_matches_enough r s : forall n,
  String.length s < n -> remove_matches n r s = RemoveAll r s.
Proof.
  intros n Hn; unfold RemoveAll.
  replace n with ((n - S (String.length s)) + S (String.length s)) by lia.
  induction (n - S (String.length s)) as [|d IH]; [reflexivity|].
  change (S d + S (String.length s)) with (S (d + S (String.length s))).
  rewrite remove_matches_more; [exact IH|lia].
Qed.

(** *** Alternatives that must be followed by white space

    In the filter pattern the field group and the operator group are
    each followed by [\s+].  When no alternative contains white space,
    the only alternative that can lead to a match at [s] is the run of
    bytes of [s] before its first white space: the order of the
    alternatives does not matter. *)

Section Token.
Context {A : Type}.
Implicit Types (K : @cont A) (s x : string) (c : caps).

Lemma token_split s : s = token s ++ after_token s.
Proof. symmetry; apply span_append. Qed.

Lemma append_cancel (u t t' : string) : u ++ t = u ++ t' -> t = t'.
Proof. induction u; simpl; intros H; [exact H|injection H; auto]. Qed.

Lemma exec_lit_token K x s c :
  all non_space x = true -> needs_space K ->
  exec (Lit x) s c K =
  if String.eqb (token s) x then K (after_token s) c else None.
Proof.
  intros Hx HK; simpl.
  destruct (prefix x s) eqn:P.
  - pose proof (prefix_split _ _ P) as Hs.
    destruct (stops non_space (drop (String.length x) s)) eqn:St.
    + pose proof (span_unique _ _ _ Hx St) as Sp.
      rewrite <- Hs in Sp; unfold token, after_token; rewrite Sp; simpl.
      rewrite String.eqb_refl; reflexivity.
    + rewrite (HK _ c St).
      destruct (String.eqb_spec (token s) x) as [E|]; [|reflexivity].
      pose proof (token_split s) as Hs'.
      rewrite E in Hs'; rewrite Hs in Hs' at 1.
      apply append_cancel in Hs'; rewrite <- Hs'.
      symmetry; apply HK, St.
  - destruct (String.eqb_spec (token s) x) as [E|]; [|reflexivity].
    pose proof (prefix_refl_append x (after_token s)) as P'.
    rewrite <- E, <- token_split in P'; congruence.
Qed.

Lemma token_nil s : token s = "" -> after_token s = s.
Proof.
  intros H; pose proof (token_split s) as Hs; rewrite H in Hs.
  symmetry; exact Hs.
Qed.

Lemma token_not_nil s : token s <> "" -> stops non_space s = false.
Proof.
  unfold token; destruct s as [|a s]; simpl; intros H;
    [exfalso; apply H; reflexivity|].
  destruct (non_space a); [reflexivity|exfalso; apply H; reflexivity].
Qed.

Lemma exec_alt_token K l : forall s c,
  Forall (fun x => all non_space x = true) l -> needs_space K ->
  exec (alt l) s c K =
  if existsb (String.eqb (token s)) (alternatives l)
  then K (after_token s) c else None.
Proof.
  intros s c Hl HK; induction l as [|x l IH].
  - simpl; destruct (String.eqb_spec (token s) "") as [E|E].
    + rewrite (token_nil _ E); reflexivity.
    + apply HK, token_not_nil, E.
  - inversion Hl as [|? ? Hx Hl']; subst.
    destruct l as [|y l].
    + change (alt [x]) with (Lit x).
      rewrite (exec_lit_token K x s c Hx HK); simpl.
      rewrite orb_false_r; reflexivity.
    + change (exec (alt (x :: y :: l)) s c K)
        with (match exec (Lit x) s c K with
              | Some v => Some v
              | None => exec (alt (y :: l)) s c K
              end).
      rewrite (exec_lit_token K x s c Hx HK), (IH Hl').
      change (alternatives (x :: y :: l)) with (x :: alternatives (y :: l)).
      simpl existsb.
      destruct (String.eqb (token s) x); simpl.
      * destruct (K (after_token s) c); [reflexivity|].
        match goal with |- (if ?b then _ else _) = _ => destruct b end;
          reflexivity.
      * reflexivity.
Qed.

Lemma take_token s :
  take (String.length s - String.length (after_token s)) s = token s.
Proof.
  generalize (token_split s); generalize (token s) (after_token s).
  intros t a ->; apply take_consumed.
Qed.

Lemma exec_group_token K l i s c :
  Forall (fun x => all non_space x = true) l -> needs_space K ->
  exec (Group i (alt l)) s c K =
  if existsb (String.eqb (token s)) (alternatives l)
  then K (after_token s) ((i, token s) :: c) else None.
Proof.
  intros Hl HK; simpl.
  rewrite exec_alt_token; [|exact Hl|intros s1 c1 H1; apply HK, H1].
  destruct (existsb _ _); [|reflexivity].
  rewrite take_token; reflexivity.
Qed.

Lemma existsb_perm {B : Type} (f : B -> bool) (l l' : list B) :
  Permutation l l' -> existsb f l = existsb f l'.
Proof.
  induction 1; simpl; try congruence.
  destruct (f x), (f y); reflexivity.
Qed.

Lemma alternatives_perm (l l' : list string) :
  Permutation l l' -> Permutation (alternatives l) (alternatives l').
Proof.
  intros H; destruct l as [|x l].
  - apply Permutation_nil in H; subst; reflexivity.
  - destruct l' as [|y l']; [|exact H].
    apply Permutation_sym, Permutation_nil in H; discriminate.
Qed.

(** The order of the alternatives does not matter. *)
Lemma exec_group_perm K l l' i s c :
  Permutation l l' ->
  Forall (fun x => all non_space x = true) l -> needs_space K ->
  exec (Group i (alt l)) s c K = exec (Group i (alt l')) s c K.
Proof.
  intros Hp Hl HK.
  rewrite !exec_group_token; auto.
  - rewrite (existsb_perm _ _ _ (alternatives_perm _ _ Hp)); reflexivity.
  - eapply Permutation_Forall; eauto.
Qed.

(** Whatever follows [\s+] needs a white space first. *)
Lemma plus_space_needs_space r K :
  needs_space (fun s c => exec (Cat (Plus (Class perl_space)) r) s c K).
Proof.
  intros s c H; simpl.
  destruct s as [|a s]; [reflexivity|]; simpl in H.
  unfold non_space in H; rewrite negb_involutive in H; rewrite H; reflexivity.
Qed.

(** [and] and [or] do not start alike: their order does not matter. *)
Lemma exec_conj_perm K cl i s c :
  Permutation ["and"; "or"] cl ->
  exec (Group i (alt cl)) s c K = exec (Group i (alt ["and"; "or"])) s c K.
Proof.
  intros H; apply Permutation_length_2_inv in H as [->| ->]; [reflexivity|].
  cbn [exec alt].
  destruct (prefix "or" s) eqn:Po, (prefix "and" s) eqn:Pa.
  - apply prefix_split in Po, Pa; rewrite Po in Pa; discriminate.
  - destruct (K _ _); reflexivity.
  - destruct (K _ _); reflexivity.
  - reflexivity.
Qed.
End Token.

End RegexpFacts.

(** ** The filter pattern does not depend on the order of iteration *)

Module FilterFacts.
Import Str StrFacts Regexp RegexpFacts.

Section Layers.
Context {A : Type}.
Implicit Types (k : @cont A) (r : regex) (s : string) (c : caps).

Lemma exec_cat r1 r2 s c k :
  exec (Cat r1 r2) s c k = exec r1 s c (fun s1 c1 => exec r2 s1 c1 k).
Proof. reflexivity. Qed.

Lemma exec_star r s c k :
  exec (Star r) s c k = star_loop (exec r) k (String.length s) s c.
Proof. reflexivity. Qed.

Lemma cat_cong r0 r r' k :
  (forall s c, exec r s c k = exec r' s c k) ->
  forall s c, exec (Cat r0 r) s c k = exec (Cat r0 r') s c k.
Proof. intros H s c; rewrite !exec_cat; apply exec_ext; exact H. Qed.

Lemma cat_group_perm l l' i r r' k :
  Permutation l l' -> Forall (fun x => all non_space x = true) l ->
  (forall s c, exec (Cat (Plus (Class perl_space)) r) s c k
               = exec (Cat (Plus (Class perl_space)) r') s c k) ->
  forall s c,
    exec (Cat (Group i (alt l)) (Cat (Plus (Class perl_space)) r)) s c k
    = exec (Cat (Group i (alt l')) (Cat (Plus (Class perl_space)) r')) s c k.
Proof.
  intros Hp Hl H s c; rewrite !exec_cat.
  etransitivity; [apply exec_ext; exact H|].
  apply exec_group_perm; [exact Hp|exact Hl|apply plus_space_needs_space].
Qed.

Lemma star_conj_perm cl i k s c :
  Permutation ["and"; "or"] cl ->
  exec (Star (Group i (alt cl))) s c k
  = exec (Star (Group i (alt ["and"; "or"]))) s c k.
Proof.
  intros H; rewrite !exec_star; apply star_loop_ext; [|intros ? ?; reflexivity].
  intros s0 c0 k1 k2 H12.
  etransitivity; [apply exec_conj_perm, H|apply exec_ext, H12].
Qed.

Lemma filterPattern_perm fl fl' ol ol' cl cl' k :
  Permutation fl fl' -> Permutation ol ol' ->
  Permutation ["and"; "or"] cl -> Permutation ["and"; "or"] cl' ->
  Forall (fun x => all non_space x = true) fl ->
  Forall (fun x => all non_space x = true) ol ->
  forall s c,
    exec (filterPattern fl ol cl) s c k = exec (filterPattern fl' ol' cl') s c k.
Proof.
  intros Hf Ho Hc Hc' Wf Wo; unfold filterPattern.
  apply cat_group_perm; [exact Hf|exact Wf|].
  apply cat_cong.
  apply cat_group_perm; [exact Ho|exact Wo|].
  do 3 apply cat_cong.
  intros s c; rewrite !exec_cat.
  rewrite (star_conj_perm cl), (star_conj_perm cl'); auto.
Qed.
End Layers.

(** Identifiers hold no white space. *)
Lemma ident_byte_non_space a : ident_byte a = true -> non_space a = true.
Proof.
  destruct a as [[] [] [] [] [] [] [] []]; intros H;
    solve [reflexivity | discriminate H].
Qed.

Lemma all_impl (p q : ascii -> bool) s :
  (forall a, p a = true -> q a = true) -> all p s = true -> all q s = true.
Proof.
  intros H; induction s as [|a s IH]; simpl; [reflexivity|].
  intros Hs; apply andb_true_iff in Hs as [Ha Hs].
  rewrite (H _ Ha), (IH Hs); reflexivity.
Qed.

Lemma ident_non_space s : ident s = true -> all non_space s = true.
Proof. apply all_impl, ident_byte_non_space. Qed.

Lemma idents_field_list (m : fieldData) :
  idents m = true ->
  Forall (fun x => all non_space x = true) (flat_map (fun kv => [fst kv; snd kv]) m).
Proof.
  unfold idents; induction m as [|[k v] m IH]; simpl; intros H; [constructor|].
  apply andb_true_iff in H as [H Hm]; apply andb_true_iff in H as [Hk Hv].
  repeat constructor; auto using ident_non_space.
Qed.

Lemma range_order_perm f f' (m : fieldData) :
  range_order f -> range_order f' -> Permutation (f m) (f' m).
Proof.
  intros H H'; eapply Permutation_trans; [apply Permutation_sym, H|apply H'].
Qed.

Lemma filterRegexp_alike fieldMap rg rg' :
  ranges_ok rg -> ranges_ok rg' -> idents fieldMap = true ->
  alike (filterRegexp fieldMap rg) (filterRegexp fieldMap rg').
Proof.
  intros (Hf & Ho & Hc & _) (Hf' & Ho' & Hc' & _) Hi s.
  unfold exec_at, filterRegexp.
  apply filterPattern_perm.
  - apply Permutation_flat_map, range_order_perm; assumption.
  - apply Permutation_map, range_order_perm; assumption.
  - apply (Permutation_map fst (l := conjMap)), Hc.
  - apply (Permutation_map fst (l := conjMap)), Hc'.
  - eapply Permutation_Forall;
      [apply Permutation_flat_map, Hf|apply idents_field_list, Hi].
  - eapply Permutation_Forall; [apply Permutation_map, Ho|].
    repeat constructor.
Qed.

(** [parseFilter] gives the same result whatever the order in which the
    maps are iterated, when the names are identifiers. *)
Lemma parseFilter_order url fieldMap rg rg' :
  ranges_ok rg -> ranges_ok rg' -> idents fieldMap = true ->
  parseFilter url fieldMap rg = parseFilter url fieldMap rg'.
Proof.
  intros H H' Hi; unfold parseFilter, RemoveAll, FindAllStringSubmatch.
  pose proof (filterRegexp_alike _ _ _ H H' Hi) as Ha.
  rewrite (remove_matches_alike _ _ Ha), (all_matches_alike _ _ Ha).
  reflexivity.
Qed.

End FilterFacts.

(** ** The option extractor *)

Module OptionFacts.
Import Str StrFacts Regexp RegexpFacts.

Lemma take_span p s :
  take (String.length s - String.length (snd (span p s))) s = fst (span p s).
Proof.
  generalize (span_append p s); generalize (fst (span p s)) (snd (span p s)).
  intros u v <-; apply take_consumed.
Qed.

Lemma star_loop_S {A : Type} step (k : @cont A) n s c :
  star_loop step k (S n) s c =
  match step s c (fun s1 c1 =>
                    if (String.length s1 <? String.length s)%nat
                    then star_loop step k n s1 c1 else None) with
  | Some x => Some x
  | None => k s c
  end.
Proof. reflexivity. Qed.

Lemma exec_class {A : Type} p a s c (k : @cont A) :
  exec (Class p) (String a s) c k = if p a then k s c else None.
Proof. reflexivity. Qed.

(** A greedy [[p]*] takes the longest run of bytes of the class when the
    rest of the pattern matches after it. *)
Lemma star_class_greedy {A : Type} p (k : @cont A) x : forall s n c,
  String.length s <= n ->
  k (snd (span p s)) c = Some x ->
  star_loop (exec (Class p)) k n s c = Some x.
Proof.
  induction s as [|a s IH]; intros n c Hn Hk.
  - destruct n; simpl in *; exact Hk.
  - destruct n as [|n]; [simpl in Hn; lia|].
    rewrite star_loop_S, exec_class.
    simpl in Hk; destruct (p a).
    + replace (String.length s <? String.length (String a s))%nat with true
        by (symmetry; apply Nat.ltb_lt; simpl; lia).
      rewrite (IH n c); [reflexivity|simpl in Hn; lia|].
      destruct (span p s); exact Hk.
    + exact Hk.
Qed.

Lemma exec_at_option opt s :
  exec_at (optionPattern opt) s =
  if prefix (opt ++ "=") s
  then let s1 := drop (String.length (opt ++ "=")) s in
       Some (Submatch "" (take (String.length s - String.length (snd (span not_amp_dollar s1))) s)
                      [(2, fst (span not_amp_dollar s1)); (1, take (String.length s - String.length s1) s)]
                      (snd (span not_amp_dollar s1)))
  else None.
Proof.
  unfold exec_at, optionPattern; cbn [exec].
  destruct (prefix (opt ++ "=") s); [|reflexivity].
  apply star_class_greedy; [lia|].
  cbv zeta; rewrite take_span; reflexivity.
Qed.

(** [parseQueryOption] extracts what the Option Extractor of the
    specification extracts. *)
Lemma parseQueryOption_extract opt : forall query,
  parseQueryOption query opt =
  match extract query opt with
  | Some v => v
  | None => ""
  end.
Proof.
  unfold parseQueryOption, FindStringSubmatch.
  induction query as [|a query IH]; cbn [find extract];
    rewrite exec_at_option; destruct (prefix (opt ++ "=") _); try reflexivity.
  destruct (find (optionPattern opt) query) as [m|]; exact IH.
Qed.

Lemma extract_eq query opt :
  extract query opt =
  if prefix (opt ++ "=") query
  then Some (fst (span not_amp_dollar
                    (drop (String.length (opt ++ "=")) query)))
  else match query with
       | EmptyString => None
       | String _ query' => extract query' opt
       end.
Proof. destruct query; reflexivity. Qed.

(** The value of an option that heads the query. *)
Lemma parseQueryOption_head opt v rest :
  all not_amp_dollar v = true -> stops not_amp_dollar rest = true ->
  parseQueryOption (opt ++ "=" ++ v ++ rest) opt = v.
Proof.
  intros Hv Hr; rewrite parseQueryOption_extract, <- append_assoc, extract_eq.
  rewrite prefix_refl_append, drop_append, span_unique; auto.
Qed.

End OptionFacts.

(** ** A filter of one clause *)

Module ClauseFacts.
Import Str StrFacts Regexp RegexpFacts FilterFacts OptionFacts.

Section Pieces.
Context {A : Type}.
Implicit Types (k K : @cont A) (r : regex) (s t : string) (c : caps).

(** [[p]*] stops at once before a byte outside the class. *)
Lemma star_class_stop p k n t c :
  stops p t = true -> star_loop (exec (Class p)) k n t c = k t c.
Proof.
  intros H; destruct n as [|n]; [reflexivity|].
  rewrite star_loop_S; destruct t as [|a t]; [reflexivity|].
  rewrite exec_class; simpl in H.
  destruct (p a); [discriminate|reflexivity].
Qed.

Lemma star_loop_total step k : total k -> forall n, total (star_loop step k n).
Proof.
  intros Hk n s c; destruct n as [|n]; [apply Hk|].
  rewrite star_loop_S; destruct (step s c _); [discriminate|apply Hk].
Qed.

Lemma star_class_greedy_eq p k s c :
  total k ->
  exec (Star (Class p)) s c k = k (snd (span p s)) c.
Proof.
  intros Hk; destruct (k (snd (span p s)) c) as [x|] eqn:E.
  - rewrite exec_star; apply star_class_greedy; [lia|exact E].
  - destruct (Hk _ _ E).
Qed.

(** An alternative followed by white space is found. *)
Lemma exec_group_hit K l i x t c :
  Forall (fun x => all non_space x = true) l -> needs_space K ->
  In x l -> stops non_space t = true ->
  exec (Group i (alt l)) (x ++ t) c K = K t ((i, x) :: c).
Proof.
  intros Hl HK Hx Ht; rewrite exec_group_token; auto.
  assert (Sp : span non_space (x ++ t) = (x, t)).
  { apply span_unique; [|exact Ht].
    rewrite Forall_forall in Hl; apply Hl, Hx. }
  unfold token, after_token; rewrite Sp; simpl fst; simpl snd.
  replace (existsb (String.eqb x) (alternatives l)) with true; [reflexivity|].
  symmetry; apply existsb_exists; exists x; split; [|apply String.eqb_refl].
  destruct l; [destruct Hx|exact Hx].
Qed.

(** The value group on a number, when what follows always matches. *)
Lemma exec_value_number v t c K r :
  is_number v = true -> stops perl_digit t = true -> total K ->
  exec (Group 3 (Alt (Plus (Class perl_digit)) r)) (v ++ t) c K
  = K t ((3, v) :: c).
Proof.
  intros Hv Ht HK; unfold is_number in Hv.
  apply andb_true_iff in Hv as [Hne Hd].
  destruct v as [|d v]; [discriminate|clear Hne].
  simpl in Hd; apply andb_true_iff in Hd as [Hd Hv].
  change (exec (Group 3 (Alt (Plus (Class perl_digit)) r)) (String d v ++ t) c K)
    with (let K' := fun s1 c1 =>
            K s1 ((3, take (String.length (String d v ++ t) - String.length s1)
                           (String d v ++ t)) :: c1) in
          match exec (Plus (Class perl_digit)) (String d v ++ t) c K' with
          | Some x => Some x
          | None => exec r (String d v ++ t) c K'
          end).
  cbv zeta; unfold Plus at 1; rewrite exec_cat.
  change (String d v ++ t) with (String d (v ++ t)) at 1.
  rewrite exec_class; unfold perl_digit at 1; rewrite Hd.
  rewrite star_class_greedy_eq; [|intros s1 c1; apply HK].
  rewrite (span_unique perl_digit v t Hv Ht); simpl snd.
  rewrite take_consumed.
  destruct (K t _) eqn:E; [reflexivity|destruct (HK _ _ E)].
Qed.

(** What follows the value always matches: [\s*], the conjunctions,
    [\s*]. *)
Lemma tail_total r1 r2 r3 k :
  total k ->
  total (fun s c => exec (Cat (Star r1) (Cat (Star r2) (Star r3))) s c k).
Proof.
  intros Hk s c; rewrite exec_cat, exec_star.
  apply star_loop_total; intros s1 c1.
  rewrite exec_cat, exec_star.
  apply star_loop_total; intros s2 c2.
  rewrite exec_star; apply star_loop_total, Hk.
Qed.

End Pieces.

(** *** Facts on bytes, decided by enumeration *)

Ltac by_bytes a H :=
  destruct a as [[] [] [] [] [] [] [] []];
  solve [reflexivity | discriminate H].

Lemma digit_not_space a : is_digit a = true -> perl_space a = false.
Proof. intros H; by_bytes a H. Qed.

Lemma space_not_digit a : perl_space a = true -> perl_digit a = false.
Proof. intros H; by_bytes a H. Qed.

Lemma space_not_amp_dollar a : perl_space a = true -> not_amp_dollar a = true.
Proof. intros H; by_bytes a H. Qed.

Lemma ident_byte_not_amp_dollar a : ident_byte a = true -> not_amp_dollar a = true.
Proof. intros H; by_bytes a H. Qed.

(** *** The pieces of the filter pattern on the pieces of a clause *)

Section ClausePieces.
Context {A : Type}.
Implicit Types (k K : @cont A) (r : regex) (s t w : string) (c : caps).

(** [[p]+] on a run of bytes of the class, when the rest of the pattern
    does not match at a byte of the class. *)
Lemma star_class_run p K t c : forall w n,
  String.length w <= n ->
  all p w = true -> stops p t = true -> rejects p K ->
  star_loop (exec (Class p)) K n (w ++ t) c = K t c.
Proof.
  induction w as [|a w IH]; intros n Hn Hw Ht HK.
  - apply star_class_stop, Ht.
  - destruct n as [|n]; [simpl in Hn; lia|].
    assert (Hn' : String.length w <= n) by (simpl in Hn; lia).
    simpl in Hw; apply andb_true_iff in Hw as [Ha Hw].
    change (String a w ++ t) with (String a (w ++ t)).
    rewrite star_loop_S, exec_class, Ha.
    replace (String.length (w ++ t) <? String.length (String a (w ++ t)))%nat
      with true by (symmetry; apply Nat.ltb_lt; simpl; lia).
    rewrite (IH n Hn' Hw Ht HK).
    destruct (K t c); [reflexivity|].
    apply HK; simpl; rewrite Ha; reflexivity.
Qed.

Lemma plus_class_run p K w t c :
  is_spaces w = true -> p = perl_space -> stops p t = true -> rejects p K ->
  exec (Plus (Class p)) (w ++ t) c K = K t c.
Proof.
  unfold is_spaces, is_blank; intros Hw -> Ht HK.
  apply andb_true_iff in Hw as [Hne Hw].
  destruct w as [|a w]; [discriminate|clear Hne].
  simpl in Hw; apply andb_true_iff in Hw as [Ha Hw].
  unfold Plus; rewrite exec_cat.
  change (String a w ++ t) with (String a (w ++ t)).
  rewrite exec_class, Ha, exec_star.
  apply star_class_run; try assumption.
  rewrite length_append; lia.
Qed.

Lemma space_start_token s : stops perl_space s = false -> token s = "".
Proof.
  destruct s as [|a s]; [discriminate|]; simpl; intros H.
  apply negb_false_iff in H; unfold token; simpl.
  unfold non_space; rewrite H; reflexivity.
Qed.

(** The operator group does not match at white space. *)
Lemma oper_rejects r k :
  rejects perl_space
    (fun s c => exec (Cat (Group 2 (alt (keys operMap)))
                          (Cat (Plus (Class perl_space)) r)) s c k).
Proof.
  intros s c H; rewrite exec_cat, exec_group_token;
    [|repeat constructor|apply plus_space_needs_space].
  rewrite (space_start_token _ H); reflexivity.
Qed.

(** The value group does not match at white space. *)
Lemma value_rejects q r k :
  rejects perl_space
    (fun s c => exec (Cat (Group 3 (Alt (Plus (Class perl_digit))
                                        (Cat (Lit "'") q))) r) s c k).
Proof.
  intros s c H; destruct s as [|a s]; [discriminate|].
  simpl in H; apply negb_false_iff in H.
  cbn [exec Plus]; rewrite (space_not_digit _ H).
  cbn [prefix]; destruct (ascii_dec "'" a) as [<-|]; [discriminate H|reflexivity].
Qed.

Lemma exec_group_alt i r1 r2 s c K :
  exec (Group i (Alt r1 r2)) s c K =
  let K' := fun s1 c1 =>
              K s1 ((i, take (String.length s - String.length s1) s) :: c1) in
  match exec r1 s c K' with
  | Some x => Some x
  | None => exec r2 s c K'
  end.
Proof. reflexivity. Qed.

(** A literal at the head of the input. *)
Lemma exec_lit_hit x t c K : exec (Lit x) (x ++ t) c K = K t c.
Proof. cbn [exec]; rewrite prefix_refl_append, drop_append; reflexivity. Qed.

(** The value group on a quoted text, when what follows always matches. *)
Lemma exec_value_quoted v t c K :
  is_quoted v = true -> total K ->
  exec (Group 3 (Alt (Plus (Class perl_digit))
                     (Cat (Lit "'") (Cat (Plus (Class not_quote)) (Lit "'")))))
       (v ++ t) c K
  = K t ((3, v) :: c).
Proof.
  intros Hv HK; unfold is_quoted in Hv.
  destruct v as [|q rest]; [discriminate|].
  apply andb_true_iff in Hv as [Hq Hv]; apply Ascii.eqb_eq in Hq; subst q.
  pose proof (span_append not_quote rest) as Hs.
  pose proof (span_all not_quote rest) as Hb.
  destruct (span not_quote rest) as [body close]; simpl in Hs, Hb.
  apply andb_true_iff in Hv as [Hne Hc]; apply String.eqb_eq in Hc; subst close.
  destruct body as [|b body]; [discriminate|clear Hne].
  simpl in Hb; apply andb_true_iff in Hb as [Hb Hbody].
  subst rest.
  remember (String "'" (String b body ++ "'") ++ t) as s eqn:Es.
  assert (Es' : s = "'" ++ String b (body ++ "'" ++ t))
    by (subst s; simpl; rewrite append_assoc; reflexivity).
  assert (Ec : take (String.length s - String.length t) s
               = String "'" (String b body ++ "'"))
    by (subst s; apply take_consumed).
  rewrite exec_group_alt; cbv zeta.
  set (K' := fun s1 c1 =>
               K s1 ((3, take (String.length s - String.length s1) s) :: c1)).
  assert (EK : K' t c = K t ((3, String "'" (String b body ++ "'")) :: c))
    by (unfold K'; rewrite Ec; reflexivity).
  clearbody K'; clear Es Ec; subst s.
  replace (exec (Plus (Class perl_digit)) ("'" ++ String b (body ++ "'" ++ t)) c K')
    with (@None A) by reflexivity.
  rewrite exec_cat, exec_lit_hit, exec_cat.
  unfold Plus; rewrite exec_cat, exec_class, Hb, exec_star.
  rewrite <- EK.
  destruct (K' t c) as [x|] eqn:E.
  - apply star_class_greedy; [lia|].
    rewrite (span_unique not_quote body ("'" ++ t) Hbody eq_refl).
    cbv beta iota delta [snd]; rewrite exec_lit_hit; exact E.
  - symmetry in EK; destruct (HK _ _ EK).
Qed.

(** A text without white space is no prefix of an input that is empty
    or starts with white space. *)
Lemma prefix_space_start x s :
  stops non_space s = true -> all non_space x = true -> x <> "" ->
  prefix x s = false.
Proof.
  intros Hs Hx Hne; destruct (prefix x s) eqn:P; [|reflexivity].
  apply prefix_split in P; destruct x as [|b x]; [congruence|].
  rewrite P in Hs; simpl in Hs, Hx.
  apply andb_true_iff in Hx as [Hb _]; rewrite Hb in Hs; discriminate.
Qed.

(** No conjunction keyword at the end of the input or at white space. *)
Lemma conj_none s c K :
  stops non_space s = true -> exec (Group 4 (alt (keys conjMap))) s c K = None.
Proof.
  intros H.
  change (exec (Group 4 (alt (keys conjMap))) s c K)
    with (exec (Alt (Lit "and") (Lit "or")) s c
            (fun s1 c1 => K s1 ((4, take (String.length s - String.length s1) s) :: c1))).
  cbn [exec].
  rewrite !(prefix_space_start _ s H); try reflexivity; discriminate.
Qed.

(** A conjunction keyword at the head of the input. *)
Lemma conj_hit kw t c K :
  In kw (keys conjMap) ->
  exec (Group 4 (alt (keys conjMap))) (kw ++ t) c K = K t ((4, kw) :: c).
Proof.
  intros [<-|[<-|[]]];
    change (exec (Group 4 (alt (keys conjMap))) ?s c K)
      with (exec (Alt (Lit "and") (Lit "or")) s c
              (fun s1 c1 => K s1 ((4, take (String.length s - String.length s1) s) :: c1)));
    cbn [exec].
  - rewrite prefix_refl_append, drop_append, take_consumed.
    replace (prefix "or" ("and" ++ t)) with false by reflexivity.
    destruct (K t _); reflexivity.
  - replace (prefix "and" ("or" ++ t)) with false by reflexivity.
    rewrite prefix_refl_append, drop_append, take_consumed; reflexivity.
Qed.

Lemma star_stop step k n s c :
  (forall k', step s c k' = None) -> star_loop step k n s c = k s c.
Proof.
  intros H; destruct n as [|n]; [reflexivity|].
  rewrite star_loop_S, H; reflexivity.
Qed.

(** The end of a clause: [\s*], the conjunctions, [\s*]. *)
Lemma exec_clause_end w3 kw w4 rest c k :
  is_blank w3 = true -> mem kw ("" :: keys conjMap) = true ->
  is_blank w4 = true -> stops perl_space rest = true ->
  rest = "" \/ (kw <> "" /\ w4 <> "") ->
  total k ->
  exec (Cat (Star (Class perl_space))
            (Cat (Star (Group 4 (alt (keys conjMap)))) (Star (Class perl_space))))
       (w3 ++ kw ++ w4 ++ rest) c k
  = k rest (end_caps kw ++ c)%list.
Proof.
  unfold is_blank; intros H3 Hkw H4 Hrest Hlink Hk.
  assert (Hk2 : total (fun s c => exec (Star (Class perl_space)) s c k))
    by (intros s0 c0; rewrite exec_star; apply star_loop_total, Hk).
  assert (Hk1 : total (fun s c =>
            exec (Cat (Star (Group 4 (alt (keys conjMap)))) (Star (Class perl_space)))
                 s c k)).
  { intros s0 c0; rewrite exec_cat, exec_star; apply star_loop_total.
    exact Hk2. }
  rewrite exec_cat, star_class_greedy_eq; [|exact Hk1].
  assert (Hend : exec (Star (Class perl_space)) (w4 ++ rest) (end_caps kw ++ c)%list k
                 = k rest (end_caps kw ++ c)%list).
  { rewrite star_class_greedy_eq; [|exact Hk].
    rewrite (span_unique perl_space w4 rest H4 Hrest); reflexivity. }
  unfold mem in Hkw; simpl in Hkw.
  destruct (String.eqb_spec kw "") as [->|Hne].
  - (* no conjunction: only white space is left, and nothing follows it *)
    destruct Hlink as [->|[Hn _]]; [|congruence]; simpl append.
    rewrite <- (append_nil_r (w3 ++ w4 ++ "")), !append_assoc.
    change (w3 ++ w4 ++ "" ++ "") with (w3 ++ w4 ++ "").
    rewrite <- append_assoc.
    rewrite (span_unique perl_space (w3 ++ w4) "");
      [reflexivity|rewrite all_append, H3, H4; reflexivity|reflexivity].
  - assert (Hin : In kw (keys conjMap)).
    { simpl; destruct (String.eqb_spec kw "and") as [->|]; [tauto|].
      destruct (String.eqb_spec kw "or") as [->|]; [tauto|discriminate]. }
    assert (Hstop : stops perl_space (kw ++ w4 ++ rest) = true)
      by (destruct Hin as [<-|[<-|[]]]; reflexivity).
    rewrite (span_unique perl_space w3 _ H3 Hstop); simpl snd.
    rewrite exec_cat, exec_star.
    assert (Hlen : String.length (kw ++ w4 ++ rest)
                   = S (String.length (kw ++ w4 ++ rest) - 1)).
    { rewrite length_append; destruct Hin as [<-|[<-|[]]]; simpl; lia. }
    rewrite Hlen, star_loop_S, (conj_hit kw _ _ _ Hin).
    replace (String.length (w4 ++ rest) <? String.length (kw ++ w4 ++ rest))%nat
      with true.
    2:{ symmetry; apply Nat.ltb_lt; rewrite (length_append kw).
        destruct Hin as [<-|[<-|[]]]; simpl; lia. }
    rewrite star_stop.
    2:{ intros k'; apply conj_none.
        destruct Hlink as [->|[_ Hw4]].
        - rewrite append_nil_r; destruct w4 as [|a w4]; [reflexivity|].
          simpl in H4 |- *; apply andb_true_iff in H4 as [Ha _].
          unfold non_space; rewrite Ha; reflexivity.
        - destruct w4 as [|a w4]; [congruence|].
          simpl in H4 |- *; apply andb_true_iff in H4 as [Ha _].
          unfold non_space; rewrite Ha; reflexivity. }
    assert (E : end_caps kw = [(4, kw)]) by (destruct kw; [congruence|reflexivity]).
    rewrite E in Hend |- *; simpl app in Hend |- *.
    rewrite Hend.
    destruct (k rest ((4, kw) :: c)) eqn:Ek; [reflexivity|destruct (Hk _ _ Ek)].
Qed.
End ClausePieces.

Lemma number_stops_space v t :
  is_number v = true -> stops perl_space (v ++ t) = true.
Proof.
  unfold is_number; destruct v as [|d v]; [discriminate|]; simpl.
  intros H; apply andb_true_iff in H as [H _].
  rewrite (digit_not_space _ H); reflexivity.
Qed.

(** *** Nothing is found in the empty text after a match *)

Lemma remove_matches_nil r n : remove_matches n r "" = "".
Proof.
  destruct n as [|n]; [reflexivity|]; simpl.
  destruct (exec_at r "") as [m|] eqn:E; [|reflexivity].
  apply exec_at_split in E as [Hp Hs].
  destruct (text m); [|discriminate]; simpl in Hs.
  rewrite <- Hs; exact Hp.
Qed.

Lemma all_matches_nil r n : all_matches n r "" true = [].
Proof.
  destruct n as [|n]; [reflexivity|]; simpl.
  destruct (exec_at r "") as [m|] eqn:E; [|reflexivity].
  apply exec_at_split in E as [Hp Hs].
  destruct (text m); [|discriminate]; rewrite Hp; reflexivity.
Qed.

Lemma find_at r s m : exec_at r s = Some m -> find r s = Some m.
Proof. intros H; destruct s; simpl; rewrite H; reflexivity. Qed.

Lemma idents_names m f : idents m = true -> In f (names m) -> ident f = true.
Proof.
  unfold idents, names; intros H Hf.
  apply in_flat_map in Hf as (kv & Hkv & Hf).
  rewrite forallb_forall in H; apply H in Hkv.
  apply andb_true_iff in Hkv as [Hk Hv].
  destruct Hf as [<-|[<-|[]]]; assumption.
Qed.

Lemma parseQueryOption_whole opt v :
  all not_amp_dollar v = true -> parseQueryOption (opt ++ "=" ++ v) opt = v.
Proof.
  intros H; rewrite <- (append_nil_r v) at 1.
  apply parseQueryOption_head; [exact H|reflexivity].
Qed.

(** [Insert] appends; the chain built by the loop of [parseFilter] is the
    list of the nodes of the matches, in the order of the matches. *)
Lemma insert_last_app chain new : insert_last chain new = (chain ++ [new])%list.
Proof. induction chain; simpl; congruence. Qed.

Lemma fold_Insert fieldMap ms : forall fil,
  Head (fold_left (fun fil m => Insert fil (node_of fieldMap m)) ms fil)
  = (Head fil ++ map (node_of fieldMap) ms)%list.
Proof.
  induction ms as [|m ms IH]; intros fil; simpl.
  - symmetry; apply app_nil_r.
  - rewrite IH; simpl; rewrite insert_last_app, <- app_assoc; reflexivity.
Qed.

(** *** The match of a clause *)

Lemma mem_In x l : mem x l = true -> In x l.
Proof.
  unfold mem; intros H; apply existsb_exists in H as (y & Hy & E).
  apply String.eqb_eq in E; subst; exact Hy.
Qed.

Lemma clause_ok_inv fieldMap c :
  clause_ok fieldMap c = true ->
  c_field c <> "" /\ In (c_field c) (names fieldMap) /\
  is_spaces (c_space1 c) = true /\ In (c_oper c) (keys operMap) /\
  is_spaces (c_space2 c) = true /\
  is_value (c_value c) = true /\ all not_amp_dollar (c_value c) = true /\
  is_blank (c_space3 c) = true /\ mem (c_conj c) ("" :: keys conjMap) = true /\
  is_blank (c_space4 c) = true.
Proof.
  unfold clause_ok; intros H.
  repeat (apply andb_true_iff in H as [H ?]).
  apply negb_true_iff, String.eqb_neq in H.
  repeat split; auto using mem_In.
Qed.

Lemma clauses_ok_inv fieldMap c cs :
  clauses_ok fieldMap (c :: cs) = true ->
  clause_ok fieldMap c = true /\
  (cs = [] \/ (linked c = true /\ clauses_ok fieldMap cs = true)).
Proof.
  simpl; destruct cs as [|c' cs']; [auto|]; intros H.
  apply andb_true_iff in H as [H H2]; apply andb_true_iff in H as [H0 H1].
  auto.
Qed.

Lemma spaces_stop w t : is_spaces w = true -> stops non_space (w ++ t) = true.
Proof.
  unfold is_spaces, is_blank; destruct w as [|a w]; [discriminate|]; simpl.
  intros H; apply andb_true_iff in H as [H _].
  unfold non_space; rewrite H; reflexivity.
Qed.

Lemma oper_stops op t : In op (keys operMap) -> stops perl_space (op ++ t) = true.
Proof. simpl; intros H; decompose [or] H; subst; solve [reflexivity|contradiction]. Qed.

Lemma value_stops v t : is_value v = true -> stops perl_space (v ++ t) = true.
Proof.
  unfold is_value; intros H; apply orb_true_iff in H as [H|H].
  - apply number_stops_space, H.
  - destruct v as [|q v]; [discriminate|]; simpl in H.
    apply andb_true_iff in H as [H _]; apply Ascii.eqb_eq in H; subst; reflexivity.
Qed.

Lemma blank_stops_digit w t :
  is_blank w = true -> stops perl_digit t = true -> stops perl_digit (w ++ t) = true.
Proof.
  unfold is_blank; destruct w as [|a w]; [intros _ H; exact H|]; simpl.
  intros H _; apply andb_true_iff in H as [H _].
  rewrite (space_not_digit _ H); reflexivity.
Qed.

Lemma clause_end_stops_digit w3 kw w4 rest :
  is_blank w3 = true -> mem kw ("" :: keys conjMap) = true ->
  is_blank w4 = true -> rest = "" \/ (kw <> "" /\ w4 <> "") ->
  stops perl_digit (w3 ++ kw ++ w4 ++ rest) = true.
Proof.
  intros H3 Hkw H4 Hlink; apply blank_stops_digit; [exact H3|].
  apply mem_In in Hkw; simpl in Hkw.
  destruct Hkw as [<-|[<-|[<-|[]]]]; try reflexivity.
  destruct Hlink as [->|[Hn _]]; [|congruence].
  apply (blank_stops_digit w4 ""); [exact H4|reflexivity].
Qed.

Lemma exec_value v t c (K : @cont submatch) :
  is_value v = true -> stops perl_digit t = true -> total K ->
  exec (Group 3 (Alt (Plus (Class perl_digit))
                     (Cat (Lit "'") (Cat (Plus (Class not_quote)) (Lit "'")))))
       (v ++ t) c K
  = K t ((3, v) :: c).
Proof.
  unfold is_value; intros H Ht HK; apply orb_true_iff in H as [H|H].
  - apply exec_value_number; assumption.
  - apply exec_value_quoted; assumption.
Qed.

Lemma exec_at_clause fieldMap c rest :
  idents fieldMap = true -> clause_ok fieldMap c = true ->
  stops perl_space rest = true -> rest = "" \/ linked c = true ->
  exec_at (filterPattern (names fieldMap) (keys operMap) (keys conjMap))
          (clause_text c ++ rest)
  = Some (Submatch "" (clause_text c) (clause_caps c) rest).
Proof.
  intros Hi Hok Hrest Hlink.
  apply clause_ok_inv in Hok
    as (Hf0 & Hf & H1 & Hop & H2 & Hv & Hvd & H3 & Hkw & H4).
  destruct c as [f w1 op w2 v w3 kw w4].
  unfold clause_text, clause_caps, linked in *; simpl in * |-; simpl.
  assert (Hlink' : rest = "" \/ (kw <> "" /\ w4 <> "")).
  { destruct Hlink as [->|Hl]; [left; reflexivity|right].
    apply andb_true_iff in Hl as [Ha Hb].
    apply negb_true_iff in Ha, Hb; split; intros ->; discriminate. }
  unfold exec_at.
  set (k0 := fun s' c' =>
               Some (Submatch ""
                       (take (String.length
                                ((f ++ w1 ++ op ++ w2 ++ v ++ w3 ++ kw ++ w4) ++ rest)
                              - String.length s')
                             ((f ++ w1 ++ op ++ w2 ++ v ++ w3 ++ kw ++ w4) ++ rest))
                       c' s')).
  assert (Hk0 : total k0) by (intros s0 c0; discriminate).
  assert (E0 : forall cs,
            k0 rest cs
            = Some (Submatch "" (f ++ w1 ++ op ++ w2 ++ v ++ w3 ++ kw ++ w4) cs rest))
    by (intros cs; unfold k0; rewrite take_consumed; reflexivity).
  clearbody k0.
  rewrite !append_assoc; unfold filterPattern.
  rewrite exec_cat, exec_group_hit;
    [|apply idents_field_list, Hi|apply plus_space_needs_space|exact Hf
     |apply spaces_stop, H1].
  rewrite exec_cat, plus_class_run;
    [|exact H1|reflexivity|apply oper_stops, Hop|apply oper_rejects].
  rewrite exec_cat, exec_group_hit;
    [|repeat constructor|apply plus_space_needs_space|exact Hop
     |apply spaces_stop, H2].
  rewrite exec_cat, plus_class_run;
    [|exact H2|reflexivity|apply value_stops, Hv|apply value_rejects].
  rewrite exec_cat, exec_value;
    [|exact Hv|apply clause_end_stops_digit; assumption|apply tail_total, Hk0].
  rewrite exec_clause_end; try assumption.
  apply E0.
Qed.

(** *** The matches of a sequence of clauses *)

Lemma clause_text_not_nil fieldMap c :
  clause_ok fieldMap c = true -> exists a t, clause_text c = String a t.
Proof.
  intros Hok; apply clause_ok_inv in Hok as (Hf0 & _).
  unfold clause_text; destruct (c_field c) as [|a t]; [congruence|].
  eexists _, _; reflexivity.
Qed.

Lemma clause_field_stops fieldMap c t :
  idents fieldMap = true -> clause_ok fieldMap c = true ->
  stops perl_space (clause_text c ++ t) = true.
Proof.
  intros Hi Hok; apply clause_ok_inv in Hok as (Hf0 & Hf & _).
  pose proof (ident_non_space _ (idents_names _ _ Hi Hf)) as Hn.
  unfold clause_text.
  destruct (c_field c) as [|a f]; [congruence|]; simpl in Hn |- *.
  apply andb_true_iff in Hn as [Hn _]; unfold non_space in Hn.
  apply negb_true_iff in Hn; rewrite Hn; reflexivity.
Qed.

Lemma clauses_matches fieldMap :
  idents fieldMap = true ->
  forall cs, clauses_ok fieldMap cs = true ->
  forall n b, String.length (filter_text cs) < n ->
    let r := filterPattern (names fieldMap) (keys operMap) (keys conjMap) in
    remove_matches n r (filter_text cs) = "" /\
    all_matches n r (filter_text cs) b = clause_matches cs.
Proof.
  intros Hi; induction cs as [|c cs IH]; [discriminate|].
  intros Hok n b Hn r.
  destruct (clauses_ok_inv _ _ _ Hok) as [Hc Hcs].
  assert (E : exec_at r (filter_text (c :: cs))
              = Some (Submatch "" (clause_text c) (clause_caps c) (filter_text cs))).
  { apply exec_at_clause; try assumption.
    - destruct Hcs as [->|[_ Hcs]]; [reflexivity|].
      destruct cs as [|c' cs']; [discriminate|].
      apply (clause_field_stops fieldMap); [exact Hi|].
      exact (proj1 (clauses_ok_inv _ _ _ Hcs)).
    - destruct Hcs as [->|[Hl _]]; [left; reflexivity|right; exact Hl]. }
  destruct (clause_text_not_nil _ _ Hc) as (a & t & Et).
  destruct n as [|n]; [lia|].
  assert (Hn' : cs <> [] -> String.length (filter_text cs) < n).
  { intros _; simpl in Hn; rewrite length_append, Et in Hn; simpl in Hn; lia. }
  cbn [remove_matches all_matches].
  rewrite (find_at _ _ _ E); cbn [pre text post]; rewrite Et.
  destruct Hcs as [->|[_ Hcs]].
  - simpl filter_text; rewrite remove_matches_nil, all_matches_nil.
    rewrite <- Et; split; reflexivity.
  - assert (Hne : cs <> []) by (intros ->; discriminate).
    destruct (IH Hcs n true (Hn' Hne)) as [IH1 IH2].
    unfold r; rewrite IH1, IH2, <- Et; split; reflexivity.
Qed.

(** *** [parseFilter] on a sequence of clauses *)

Lemma idents_names_amp fieldMap f :
  idents fieldMap = true -> In f (names fieldMap) -> all not_amp_dollar f = true.
Proof.
  intros Hi Hf; exact (all_impl _ _ _ ident_byte_not_amp_dollar (idents_names _ _ Hi Hf)).
Qed.

Lemma clause_text_amp fieldMap c :
  idents fieldMap = true -> clause_ok fieldMap c = true ->
  all not_amp_dollar (clause_text c) = true.
Proof.
  intros Hi Hok; apply clause_ok_inv in Hok
    as (Hf0 & Hf & H1 & Hop & H2 & Hv & Hvd & H3 & Hkw & H4).
  unfold is_spaces, is_blank in *.
  apply andb_true_iff in H1 as [_ H1]; apply andb_true_iff in H2 as [_ H2].
  assert (Ho : all not_amp_dollar (c_oper c) = true).
  { simpl in Hop; decompose [or] Hop; try contradiction;
      match goal with E : _ = c_oper c |- _ => rewrite <- E end; reflexivity. }
  assert (Hk : all not_amp_dollar (c_conj c) = true).
  { apply mem_In in Hkw; simpl in Hkw; decompose [or] Hkw; try contradiction;
      match goal with E : _ = c_conj c |- _ => rewrite <- E end; reflexivity. }
  unfold clause_text; rewrite !all_append.
  rewrite (idents_names_amp _ _ Hi Hf), Ho, Hvd, Hk.
  rewrite (all_impl _ _ _ space_not_amp_dollar H1).
  rewrite (all_impl _ _ _ space_not_amp_dollar H2).
  rewrite (all_impl _ _ _ space_not_amp_dollar H3).
  rewrite (all_impl _ _ _ space_not_amp_dollar H4).
  reflexivity.
Qed.

Lemma filter_text_amp fieldMap :
  idents fieldMap = true ->
  forall cs, clauses_ok fieldMap cs = true ->
  all not_amp_dollar (filter_text cs) = true.
Proof.
  intros Hi; induction cs as [|c cs IH]; [reflexivity|].
  intros Hok; destruct (clauses_ok_inv _ _ _ Hok) as [Hc Hcs].
  simpl; rewrite all_append, (clause_text_amp _ _ Hi Hc).
  destruct Hcs as [->|[_ Hcs]]; [reflexivity|exact (IH Hcs)].
Qed.

Lemma node_of_clause fieldMap c rest :
  mem (c_conj c) ("" :: keys conjMap) = true ->
  node_of fieldMap (Submatch "" (clause_text c) (clause_caps c) rest)
  = clause_node fieldMap c.
Proof.
  intros H; apply mem_In in H; simpl in H.
  unfold node_of, clause_node, clause_caps; simpl groups.
  destruct H as [<-|[<-|[<-|[]]]]; reflexivity.
Qed.

Lemma map_node_of_clauses fieldMap :
  forall cs, clauses_ok fieldMap cs = true ->
  map (node_of fieldMap) (clause_matches cs) = map (clause_node fieldMap) cs.
Proof.
  induction cs as [|c cs IH]; [reflexivity|].
  intros Hok; destruct (clauses_ok_inv _ _ _ Hok) as [Hc Hcs].
  simpl; f_equal.
  - apply node_of_clause.
    apply clause_ok_inv in Hc; tauto.
  - destruct Hcs as [->|[_ Hcs]]; [reflexivity|exact (IH Hcs)].
Qed.

(** A filter that is a sequence of clauses is parsed into the chain of
    the nodes of the clauses, whatever the order of map iteration. *)
Lemma parseFilter_clauses fieldMap rg cs :
  ranges_ok rg -> idents fieldMap = true -> clauses_ok fieldMap cs = true ->
  parseFilter ("$filter=" ++ filter_text cs) fieldMap rg
  = Ok (Some {| Head := map (clause_node fieldMap) cs |}).
Proof.
  intros Hrg Hi Hok.
  assert (Hin : ranges_ok in_order) by (repeat split; intros m; reflexivity).
  rewrite (parseFilter_order _ _ rg in_order Hrg Hin Hi).
  unfold parseFilter.
  change ("$filter=" ++ filter_text cs) with (filter ++ "=" ++ filter_text cs).
  rewrite parseQueryOption_whole; [|apply (filter_text_amp fieldMap); assumption].
  assert (Hne : String.eqb (filter_text cs) "" = false).
  { destruct cs as [|c cs]; [discriminate|].
    destruct (clause_text_not_nil fieldMap _ (proj1 (clauses_ok_inv fieldMap _ _ Hok)))
      as (a & t & Et).
    simpl; rewrite Et; reflexivity. }
  rewrite Hne; cbv zeta.
  change (filterRegexp fieldMap in_order)
    with (filterPattern (names fieldMap) (keys operMap) (keys conjMap)).
  unfold RemoveAll, FindAllStringSubmatch.
  destruct (clauses_matches fieldMap Hi cs Hok (S (String.length (filter_text cs)))
              false (Nat.lt_succ_diag_r _)) as [-> ->].
  simpl negb; cbv iota.
  f_equal; f_equal.
  pose proof (fold_Insert fieldMap (clause_matches cs) {| Head := [] |}) as F.
  destruct (fold_left _ _ _) as [h]; simpl in F; rewrite F.
  f_equal; apply map_node_of_clauses, Hok.
Qed.

End ClauseFacts.

(** ** All the orders of a list *)

Module PermFacts.
Local Open Scope list_scope.

Lemma insert_everywhere_in {A : Type} (a : A) l1 l2 :
  In (l1 ++ a :: l2) (insert_everywhere a (l1 ++ l2)).
Proof.
  induction l1 as [|x l1 IH]; simpl.
  - destruct l2; left; reflexivity.
  - right; apply in_map, IH.
Qed.

Lemma perms_complete {A : Type} (l : list A) :
  forall l', Permutation l l' -> In l' (perms l).
Proof.
  induction l as [|a l IH]; intros l' H; simpl.
  - apply Permutation_nil in H; subst; left; reflexivity.
  - assert (Ha : In a l') by (eapply Permutation_in; [exact H|left; reflexivity]).
    apply in_split in Ha as (l1 & l2 & ->).
    apply Permutation_cons_app_inv in H.
    apply in_flat_map; exists (l1 ++ l2); split; [apply IH, H|].
    apply insert_everywhere_in.
  Qed.

Lemma ranges_ok_in_order : ranges_ok in_order.
Proof. repeat split; intros m; reflexivity. Qed.

Lemma ranges_ok_reversed : ranges_ok reversed.
Proof. repeat split; intros m; apply Permutation_rev. Qed.

End PermFacts.

(** ** The claims *)

Import Str StrFacts RegexpFacts FilterFacts OptionFacts ClauseFacts PermFacts.

(** The parsers fail with their own errors only. *)
Lemma parseFilter_error url fieldMap rg e :
  parseFilter url fieldMap rg = Err e -> e = ErrInvalidQuery.
Proof.
  unfold parseFilter; destruct (String.eqb _ ""); [discriminate|].
  destruct (negb _); [|discriminate]; congruence.
Qed.

Lemma parseOrderBy_error url fieldMap rg e :
  parseOrderBy url fieldMap rg = Err e -> e = ErrInvalidQuery.
Proof.
  unfold parseOrderBy; destruct (String.eqb _ ""); [discriminate|].
  destruct (negb _); [|discriminate]; congruence.
Qed.

Lemma parseTop_error url e : parseTop url = Err e -> e = ErrParseTop.
Proof.
  unfold parseTop; destruct (String.eqb _ ""); [discriminate|].
  destruct (Strconv.Atoi _); [discriminate|congruence].
Qed.

Lemma parseSkip_error url e : parseSkip url = Err e -> e = ErrParseSkip.
Proof.
  unfold parseSkip; destruct (String.eqb _ ""); [discriminate|].
  destruct (Strconv.Atoi _); [discriminate|congruence].
Qed.

(** [ParseURL] in terms of the results of the four parsers. *)
Lemma ParseURL_cases f url src rg :
  let data := fst (getStructFieldData src) in
  (exists e, ParseURL f url src rg = (f, Some e) /\
     (parseFilter url data rg = Err e \/
      (exists fl, parseFilter url data rg = Ok fl) /\
        (parseOrderBy url data rg = Err e \/
         (exists o, parseOrderBy url data rg = Ok o) /\
           (parseTop url = Err e \/
            (exists t, parseTop url = Ok t) /\ parseSkip url = Err e)))) \/
  (exists fl o t s,
     parseFilter url data rg = Ok fl /\ parseOrderBy url data rg = Ok o /\
     parseTop url = Ok t /\ parseSkip url = Ok s /\
     ParseURL f url src rg =
       ({| DFilter := fl; DOrderBy := o; DTop := t; DSkip := s |}, None)).
Proof.
  unfold ParseURL; destruct (getStructFieldData src) as [data err]; simpl.
  destruct (parseFilter url data rg) as [fl|e]; [|left; exists e; auto].
  destruct (parseOrderBy url data rg) as [o|e].
  2:{ left; exists e; split; [reflexivity|right; split; [exists fl|left]; reflexivity]. }
  destruct (parseTop url) as [t|e].
  2:{ left; exists e; split; [reflexivity|right; split; [exists fl; reflexivity|]].
      right; split; [exists o|left]; reflexivity. }
  destruct (parseSkip url) as [s|e].
  2:{ left; exists e; split; [reflexivity|right; split; [exists fl; reflexivity|]].
      right; split; [exists o; reflexivity|].
      right; split; [exists t|]; reflexivity. }
  right; exists fl, o, t, s; auto.
Qed.

(** A query in which none of the four option keys occurs is parsed into
    the DataFilter whose four fields are absent. *)
Lemma ParseURL_no_option f url src rg :
  extract url filter = None -> extract url orderBy = None ->
  extract url top = None -> extract url skip = None ->
  ParseURL f url src rg = (empty_filter, None).
Proof.
  intros Hf Ho Ht Hs.
  unfold ParseURL, parseFilter, parseOrderBy, parseTop, parseSkip.
  rewrite !parseQueryOption_extract, Hf, Ho, Ht, Hs.
  destruct (getStructFieldData src); reflexivity.
Qed.

(** C1. Rendering a DataFilter whose Filter is absent does not produce a
    text at all: [EvaluateQuery] reads [f.Filter.Head] before any check and
    panics, whatever the other three fields are.  In particular it panics
    on the DataFilter that [ParseURL] produces for a query in which none of
    the four option keys occurs, whose four fields are absent.  The claim
    promises a text without WHERE clause (the empty text when all four
    fields are absent). *)
Theorem EvaluateQuery_absent_filter_panics f url src rg :
  extract url filter = None -> extract url orderBy = None ->
  extract url top = None -> extract url skip = None ->
  ParseURL f url src rg = (empty_filter, None) /\
  EvaluateQuery (fst (ParseURL f url src rg)) = Panic /\
  forall o t s,
    EvaluateQuery {| DFilter := None; DOrderBy := o; DTop := t; DSkip := s |}
    = Panic.
Proof.
  intros Hf Ho Ht Hs.
  rewrite (ParseURL_no_option f url src rg Hf Ho Ht Hs).
  repeat split.
Qed.

Lemma EvaluateQuery_absent_filter_panics_witness :
  ParseURL empty_filter "page=2&sort=name" Book in_order = (empty_filter, None) /\
  EvaluateQuery (fst (ParseURL empty_filter "page=2&sort=name" Book in_order))
  = Panic.
Proof.
  split.
  - exact (proj1 (EvaluateQuery_absent_filter_panics
                    empty_filter "page=2&sort=name" Book in_order
                    eq_refl eq_refl eq_refl eq_refl)).
  - exact (proj1 (proj2 (EvaluateQuery_absent_filter_panics
                           empty_filter "page=2&sort=name" Book in_order
                           eq_refl eq_refl eq_refl eq_refl))).
Defined.

(** C2. The error of [getStructFieldData] for a schema that is no struct
    is not returned by [ParseURL]: it is overwritten unread, and the query is
    parsed against the empty field map.  For the schema [VOther] and the
    query [$top=5], [ParseURL] returns no error and a DataFilter with
    [Top = 5]; and [ParseURL] never returns the schema error at all. *)
Theorem ParseURL_drops_schema_error :
  getStructFieldData VOther = ([], Some ErrNotStruct) /\
  (forall f rg,
     ParseURL f "$top=5" VOther rg =
     ({| DFilter := None; DOrderBy := None; DTop := Some 5%Z; DSkip := None |}, None)) /\
  (forall f url src rg, snd (ParseURL f url src rg) <> Some ErrNotStruct).
Proof.
  split; [reflexivity|split; [reflexivity|]].
  intros f url src rg.
  destruct (ParseURL_cases f url src rg) as [(e & -> & H)|(fl & o & t & s & _ & _ & _ & _ & ->)];
    [|discriminate].
  simpl; intros E; injection E as ->.
  destruct H as [H|(_ & [H|(_ & [H|(_ & H)])])].
  - apply parseFilter_error in H; discriminate.
  - apply parseOrderBy_error in H; discriminate.
  - apply parseTop_error in H; discriminate.
  - apply parseSkip_error in H; discriminate.
Qed.

(** C9. [ParseURL] is atomic: whenever it returns an error the receiver is
    returned as it was.  But the error returned is not always the first one
    met: for the schema [VOther] and the query [$top=abc] the first error is
    the schema error of [getStructFieldData], and [ParseURL] returns the
    error of [parseTop]. *)
Theorem ParseURL_atomic_first_error_lost :
  (forall f url src rg,
     snd (ParseURL f url src rg) = None \/ fst (ParseURL f url src rg) = f) /\
  snd (getStructFieldData VOther) = Some ErrNotStruct /\
  (forall f rg, ParseURL f "$top=abc" VOther rg = (f, Some ErrParseTop)).
Proof.
  split; [|split; reflexivity].
  intros f url src rg.
  destruct (ParseURL_cases f url src rg) as [(e & -> & _)|(fl & o & t & s & _ & _ & _ & _ & ->)];
    [right|left]; reflexivity.
Qed.

(** When [parseFilter] returns a filter, the whole-string validation has
    passed. *)
Lemma parseFilter_validated url fieldMap rg fil :
  parseFilter url fieldMap rg = Ok (Some fil) ->
  Strings.TrimSpace
    (RemoveAll (filterRegexp fieldMap rg) (parseQueryOption url filter)) = "".
Proof.
  unfold parseFilter; destruct (String.eqb _ ""); [discriminate|].
  destruct (String.eqb_spec
              (Strings.TrimSpace
                 (RemoveAll (filterRegexp fieldMap rg) (parseQueryOption url filter)))
              "") as [E|]; [intros _; exact E|discriminate].
Qed.

(** C10. With the field map [{Rate: "rate"}], the filter [rate lt 100],
    whose field token is the column name, passes the whole-string
    validation and is parsed, whatever the order of map iteration, into one
    node whose [Field] is the empty string: the column name is an
    alternative of the pattern but no key of the map. *)
Theorem parseFilter_column_name_empty_field (rg : ranges) :
  ranges_ok rg ->
  let fieldMap := [("Rate", "rate")] in
  parseFilter "$filter=rate lt 100" fieldMap rg
  = Ok (Some {| Head := [{| Field := ""; Operator := "<";
                            Conjunction := ""; Value := "100" |}] |}) /\
  Strings.TrimSpace (RemoveAll (filterRegexp fieldMap rg) "rate lt 100") = "" /\
  In "rate" (names fieldMap) /\ ~ In "rate" (keys fieldMap).
Proof.
  intros Hrg fieldMap.
  assert (P : parseFilter "$filter=rate lt 100" fieldMap rg
              = Ok (Some {| Head := [{| Field := ""; Operator := "<";
                                        Conjunction := ""; Value := "100" |}] |})).
  { exact (parseFilter_clauses fieldMap rg
             [{| c_field := "rate"; c_space1 := " "; c_oper := "lt";
                 c_space2 := " "; c_value := "100"; c_space3 := "";
                 c_conj := ""; c_space4 := "" |}]
             Hrg eq_refl eq_refl). }
  split; [exact P|split].
  - exact (parseFilter_validated _ _ _ _ P).
  - split; [simpl; tauto|].
    simpl; intros [H|[]]; discriminate.
Qed.

Lemma parseFilter_column_name_empty_field_witness :
  ranges_ok in_order /\
  parseFilter "$filter=rate lt 100" [("Rate", "rate")] in_order
  = Ok (Some {| Head := [{| Field := ""; Operator := "<";
                            Conjunction := ""; Value := "100" |}] |}).
Proof.
  split; [exact ranges_ok_in_order|].
  exact (proj1 (parseFilter_column_name_empty_field in_order ranges_ok_in_order)).
Defined.

(** C4, as stated, fails: the filter [Rate lt 100 and], which ends with a
    conjunction keyword after its last clause, is not rejected. *)
Lemma trailing_conjunction_not_rejected :
  parseFilter "$filter=Rate lt 100 and" [("Rate", "rate")] in_order
  <> Err ErrInvalidQuery.
Proof. vm_compute; discriminate. Qed.

(** C4, amended. A filter that is a sequence of clauses and ends with a
    conjunction keyword after its last clause is accepted, whatever the
    order of map iteration, when the names of the field map are
    identifiers: it is parsed into the chain of the nodes of its clauses,
    and the last node carries the conjunction, [AND] or [OR]. *)
Theorem parseFilter_trailing_conjunction fieldMap rg cs c :
  ranges_ok rg -> idents fieldMap = true ->
  clauses_ok fieldMap (cs ++ [c]) = true -> c_conj c <> "" ->
  parseFilter ("$filter=" ++ filter_text (cs ++ [c])) fieldMap rg
  = Ok (Some {| Head := (map (clause_node fieldMap) cs
                         ++ [clause_node fieldMap c])%list |}) /\
  In (Conjunction (clause_node fieldMap c)) ["AND"; "OR"].
Proof.
  intros Hrg Hi Hok Hc; split.
  - rewrite (parseFilter_clauses fieldMap rg _ Hrg Hi Hok), map_app; reflexivity.
  - assert (Hk : clause_ok fieldMap c = true).
    { clear Hc; induction cs as [|c' cs IH]; [exact Hok|].
      destruct (clauses_ok_inv _ _ _ Hok) as [_ [E|[_ H]]]; [|exact (IH H)].
      destruct cs; discriminate. }
    apply clause_ok_inv in Hk as (_ & _ & _ & _ & _ & _ & _ & _ & Hk & _).
    apply mem_In in Hk; simpl in Hk |- *.
    destruct Hk as [E|[<-|[<-|[]]]]; [congruence|tauto|tauto].
Qed.

Lemma parseFilter_trailing_conjunction_witness :
  ranges_ok in_order /\
  parseFilter "$filter=Rate lt 100 and" [("Rate", "rate")] in_order
  = Ok (Some {| Head := [{| Field := "rate"; Operator := "<";
                            Conjunction := "AND"; Value := "100" |}] |}).
Proof.
  split; [exact ranges_ok_in_order|].
  refine (proj1 (parseFilter_trailing_conjunction
                   [("Rate", "rate")] in_order []
                   {| c_field := "Rate"; c_space1 := " "; c_oper := "lt";
                      c_space2 := " "; c_value := "100"; c_space3 := " ";
                      c_conj := "and"; c_space4 := "" |}
                   ranges_ok_in_order eq_refl eq_refl _)).
  discriminate.
Defined.

(** C3, as stated, fails: the alternation of the filter pattern lists the
    names in the order of map iteration, not the longer names first; with
    the entries yielded in the order [Rate], [RateLimit], the alternative
    [Rate] comes before [RateLimit]. *)
Lemma alternation_not_longer_first :
  ranges_ok in_order /\
  filter_field_list [("Rate", "rate"); ("RateLimit", "rate_limit")] in_order
  = ["Rate"; "rate"; "RateLimit"; "rate_limit"] /\
  longer_first
    (filter_field_list [("Rate", "rate"); ("RateLimit", "rate_limit")] in_order)
  = false.
Proof. split; [exact ranges_ok_in_order|split; reflexivity]. Qed.

(** C3, amended. For a field map whose names are identifiers and in which
    one key is a proper prefix of another, a filter that is a sequence of
    clauses is parsed, whatever the order of map iteration, into the chain
    of the nodes of its clauses, and the node of a clause on the longer key
    carries the column of the longer key: the search backtracks from the
    shorter alternative, which is not followed by white space, to the
    longer one.  The alternatives themselves stay in the order of map
    iteration. *)
Theorem parseFilter_longer_key fieldMap rg short long cs :
  ranges_ok rg -> idents fieldMap = true ->
  In short (keys fieldMap) -> In long (keys fieldMap) ->
  prefix short long = true -> short <> long ->
  clauses_ok fieldMap cs = true ->
  parseFilter ("$filter=" ++ filter_text cs) fieldMap rg
  = Ok (Some {| Head := map (clause_node fieldMap) cs |}) /\
  forall c, In c cs -> c_field c = long ->
            In (clause_node fieldMap c) (map (clause_node fieldMap) cs) /\
            Field (clause_node fieldMap c) = get fieldMap long.
Proof.
  intros Hrg Hi _ _ _ _ Hok; split.
  - apply parseFilter_clauses; assumption.
  - intros c Hc <-; split; [apply in_map, Hc|reflexivity].
Qed.

Lemma parseFilter_longer_key_witness :
  ranges_ok reversed /\
  parseFilter "$filter=RateLimit gt 5"
              [("Rate", "rate"); ("RateLimit", "rate_limit")] reversed
  = Ok (Some {| Head := [{| Field := "rate_limit"; Operator := ">";
                            Conjunction := ""; Value := "5" |}] |}).
Proof.
  split; [exact ranges_ok_reversed|].
  refine (proj1 (parseFilter_longer_key
                   [("Rate", "rate"); ("RateLimit", "rate_limit")] reversed
                   "Rate" "RateLimit"
                   [{| c_field := "RateLimit"; c_space1 := " "; c_oper := "gt";
                       c_space2 := " "; c_value := "5"; c_space3 := "";
                       c_conj := ""; c_space4 := "" |}]
                   ranges_ok_reversed eq_refl _ _ eq_refl _ eq_refl));
    try (simpl; tauto); discriminate.
Defined.

Lemma get_conjMap s : In (get conjMap s) ["AND"; "OR"; ""].
Proof.
  unfold conjMap; simpl.
  destruct (String.eqb s "and"); [tauto|].
  destruct (String.eqb s "or"); tauto.
Qed.

(** C6, as stated, fails: the filter [Rate lt 100 and] is parsed into a
    chain whose last node carries a conjunction. *)
Lemma chain_invariant_broken :
  exists fil,
    parseFilter "$filter=Rate lt 100 and" [("Rate", "rate")] in_order
    = Ok (Some fil) /\
    chain_invariant (Head fil) = false.
Proof.
  eexists; split; [vm_compute; reflexivity|reflexivity].
Qed.

Lemma chain_invariant_cons node next :
  next <> [] ->
  chain_invariant (node :: next)
  = is_conj (Conjunction node) && chain_invariant next.
Proof. destruct next; [congruence|reflexivity]. Qed.

Lemma linked_conj fieldMap c :
  clause_ok fieldMap c = true -> linked c = true ->
  is_conj (Conjunction (clause_node fieldMap c)) = true.
Proof.
  intros Hok Hl; apply clause_ok_inv in Hok as (_ & _ & _ & _ & _ & _ & _ & _ & Hk & _).
  apply mem_In in Hk; unfold linked in Hl; apply andb_true_iff in Hl as [Hl _].
  unfold clause_node; simpl in Hk |- *.
  destruct Hk as [E|[E|[E|[]]]]; rewrite <- E in *; solve [discriminate|reflexivity].
Qed.

(** The chain of a sequence of clauses whose last clause has no
    conjunction satisfies the invariant of the specification. *)
Lemma chain_invariant_clauses fieldMap : forall cs c,
  clauses_ok fieldMap (cs ++ [c]) = true -> c_conj c = "" ->
  chain_invariant (map (clause_node fieldMap) (cs ++ [c])) = true.
Proof.
  induction cs as [|c' cs IH]; intros c Hok Hc.
  - simpl; rewrite Hc; reflexivity.
  - destruct (clauses_ok_inv _ _ _ Hok) as [Hc' [E|[Hl Hcs]]];
      [destruct cs; discriminate|].
    change (map (clause_node fieldMap) ((c' :: cs) ++ [c]))
      with (clause_node fieldMap c' :: map (clause_node fieldMap) (cs ++ [c])).
    rewrite chain_invariant_cons.
    + rewrite (linked_conj _ _ Hc' Hl), (IH c Hcs Hc); reflexivity.
    + destruct cs; discriminate.
Qed.

(** A match the search finds is the match of the pattern at its place. *)
Lemma find_exec_at r : forall s m,
  find r s = Some m ->
  exec_at r (text m ++ post m) = Some (Submatch "" (text m) (groups m) (post m)).
Proof.
  induction s as [|a s IH]; intros m H; cbn [find] in H.
  - destruct (exec_at r "") as [m'|] eqn:E; [|discriminate].
    injection H as <-.
    destruct (exec_at_split _ _ _ E) as [Hp Hs].
    rewrite <- Hs, E; destruct m' as [p t g q]; simpl in Hp; rewrite Hp; reflexivity.
  - destruct (exec_at r (String a s)) as [m'|] eqn:E.
    + injection H as <-.
      destruct (exec_at_split _ _ _ E) as [Hp Hs].
      rewrite <- Hs, E; destruct m' as [p t g q]; simpl in Hp; rewrite Hp; reflexivity.
    + destruct (find r s) as [m'|] eqn:F; [|discriminate].
      injection H as <-; cbn [text groups post]; apply IH; reflexivity.
Qed.

Lemma matches_in_later r ms : forall u s,
  matches_in r ms s -> matches_in r ms (u ++ s).
Proof.
  intros u s H; destruct H as [s|m ms s before Hs He H]; [constructor|].
  apply mi_cons with (before := u ++ before); [|exact He|exact H].
  rewrite Hs; symmetry; apply append_assoc.
Qed.

(** The matches of the loop of [FindAllStringSubmatch] are matches of the
    pattern in the text, one after the other. *)
Lemma all_matches_in r : forall n s b, matches_in r (all_matches n r s b) s.
Proof.
  induction n as [|n IH]; intros s b; simpl; [constructor|].
  destruct (find r s) as [m|] eqn:F; [|constructor].
  pose proof (find_split _ _ _ F) as Hs.
  pose proof (find_exec_at _ _ _ F) as He.
  assert (Hnext : matches_in r (m :: all_matches n r (post m) true) s).
  { apply mi_cons with (before := pre m); [exact Hs|exact He|apply IH]. }
  assert (Hlater : matches_in r
            (match s with "" => [] | String _ s' => all_matches n r s' false end) s).
  { destruct s as [|a s']; [constructor|].
    apply (matches_in_later _ _ (String a "")), IH. }
  destruct (pre m) eqn:Ep; [|exact Hnext].
  destruct (text m) eqn:Et; [|exact Hnext].
  destruct b; [exact Hlater|].
  apply mi_cons with (before := ""); [rewrite Et; exact Hs|rewrite Et; exact He|].
  simpl in Hs; rewrite <- Hs; exact Hlater.
Qed.

(** C6, amended. For every successfully parsed [$filter], every node of
    the chain carries [AND], [OR] or no conjunction (the last node may
    carry one, and a node before another may carry none).  The nodes are
    the nodes of the matches [FindAllStringSubmatch] finds in the filter
    text, in the order in which it finds them; each of these matches is
    the match of the pattern at its place in the text, with the groups
    captured there, and each lies in the text that the match before it
    left over: the order of the nodes is the order of the matched clauses
    in the text from left to right.  When the filter is a sequence of
    well-formed clauses (the names of the field map being identifiers),
    the nodes are the nodes of the clauses in the order of the clauses;
    and when moreover the last clause has no conjunction, the invariant of
    the specification holds: a conjunction on every node but the last,
    none on the last. *)
Theorem parseFilter_chain url fieldMap rg fil :
  parseFilter url fieldMap rg = Ok (Some fil) ->
  Forall (fun node => In (Conjunction node) ["AND"; "OR"; ""]) (Head fil) /\
  (Head fil
   = map (node_of fieldMap)
         (FindAllStringSubmatch (filterRegexp fieldMap rg)
                                (parseQueryOption url filter)) /\
   matches_in (filterRegexp fieldMap rg)
              (FindAllStringSubmatch (filterRegexp fieldMap rg)
                                     (parseQueryOption url filter))
              (parseQueryOption url filter)) /\
  (forall cs,
     ranges_ok rg -> idents fieldMap = true ->
     clauses_ok fieldMap cs = true ->
     url = "$filter=" ++ filter_text cs ->
     Head fil = map (clause_node fieldMap) cs) /\
  (forall cs c,
     ranges_ok rg -> idents fieldMap = true ->
     clauses_ok fieldMap (cs ++ [c]) = true -> c_conj c = "" ->
     url = "$filter=" ++ filter_text (cs ++ [c]) ->
     Head fil = map (clause_node fieldMap) (cs ++ [c]) /\
     chain_invariant (Head fil) = true).
Proof.
  intros P; split; [|split; [|split]].
  - revert P; unfold parseFilter; destruct (String.eqb _ ""); [discriminate|].
    destruct (negb _); [discriminate|].
    intros H; injection H as <-.
    rewrite fold_Insert; simpl.
    apply Forall_forall; intros node Hn.
    apply in_map_iff in Hn as (m & <- & _); apply get_conjMap.
  - revert P; unfold parseFilter; destruct (String.eqb _ ""); [discriminate|].
    destruct (negb _); [discriminate|].
    intros H; injection H as <-.
    rewrite fold_Insert; simpl.
    split; [reflexivity|apply all_matches_in].
  - intros cs Hrg Hi Hok ->.
    rewrite (parseFilter_clauses fieldMap rg _ Hrg Hi Hok) in P.
    injection P as <-; reflexivity.
  - intros cs c Hrg Hi Hok Hc ->.
    rewrite (parseFilter_clauses fieldMap rg _ Hrg Hi Hok) in P.
    injection P as <-; simpl; split; [reflexivity|].
    apply chain_invariant_clauses; assumption.
Qed.

Lemma parseFilter_chain_witness :
  let fieldMap := [("Rate", "rate"); ("Genre", "genre")] in
  let ms := FindAllStringSubmatch (filterRegexp fieldMap in_order)
                                  "Rate lt 100 and Genre eq 'Thriller'" in
  [{| Field := "rate"; Operator := "<"; Conjunction := "AND"; Value := "100" |};
   {| Field := "genre"; Operator := "="; Conjunction := ""; Value := "'Thriller'" |}]
  = map (node_of fieldMap) ms /\
  matches_in (filterRegexp fieldMap in_order) ms
             "Rate lt 100 and Genre eq 'Thriller'".
Proof.
  exact (proj1 (proj2 (parseFilter_chain
                  "$filter=Rate lt 100 and Genre eq 'Thriller'"
                  [("Rate", "rate"); ("Genre", "genre")] in_order
                  {| Head :=
                      [{| Field := "rate"; Operator := "<";
                          Conjunction := "AND"; Value := "100" |};
                       {| Field := "genre"; Operator := "=";
                          Conjunction := ""; Value := "'Thriller'" |}] |}
                  eq_refl))).
Defined.

(** [strconv.Atoi] accepts integer literals only. *)
Lemma digits_value_digits s : forall acc n,
  Strconv.digits_value s acc = Some n -> all is_digit s = true.
Proof.
  induction s as [|a s IH]; intros acc n H; simpl in *; [reflexivity|].
  destruct (is_digit a); [|discriminate].
  exact (IH _ _ H).
Qed.

Lemma Atoi_literal s z : Strconv.Atoi s = Some z -> is_int_literal s = true.
Proof.
  unfold Strconv.Atoi, is_int_literal; destruct s as [|a s]; [discriminate|].
  destruct (Ascii.eqb a "+" || Ascii.eqb a "-")%bool.
  - destruct s as [|b s]; [discriminate|].
    destruct (Strconv.digits_value (String b s) 0) as [n|] eqn:E; [|discriminate].
    intros _; apply digits_value_digits in E; rewrite E; reflexivity.
  - destruct (Strconv.digits_value (String a s) 0) as [n|] eqn:E; [|discriminate].
    intros _; apply digits_value_digits in E; rewrite E; reflexivity.
Qed.

Lemma Atoi_not_literal s : is_int_literal s = false -> Strconv.Atoi s = None.
Proof.
  intros H; destruct (Strconv.Atoi s) as [z|] eqn:E; [|reflexivity].
  apply Atoi_literal in E; congruence.
Qed.

(** [ParseURL] fails when one of the parsers fails. *)
Lemma ParseURL_fails f url src rg :
  (exists e, parseTop url = Err e) \/ (exists e, parseSkip url = Err e) ->
  exists e, ParseURL f url src rg = (f, Some e).
Proof.
  intros H.
  destruct (ParseURL_cases f url src rg)
    as [(e & E & _)|(fl & o & t & s & _ & _ & Ht & Hs & _)];
    [exists e; exact E|].
  destruct H as [(e & H)|(e & H)]; congruence.
Qed.

Lemma ParseURL_top_skip f url src rg d :
  ParseURL f url src rg = (d, None) ->
  parseTop url = Ok (DTop d) /\ parseSkip url = Ok (DSkip d).
Proof.
  intros H.
  destruct (ParseURL_cases f url src rg)
    as [(e & E & _)|(fl & o & t & s & _ & _ & Ht & Hs & E)];
    rewrite E in H; [discriminate|].
  injection H as <-; simpl; auto.
Qed.

(** C8. With the value of an option being what the Option Extractor of
    the specification extracts: when the value of [$top] (of [$skip]) is
    present, not empty and no base-10 integer literal, [parseTop]
    ([parseSkip]) fails, and so does [ParseURL]; when the key [$top]
    ([$skip]) is absent or its value is empty, [parseTop] ([parseSkip])
    succeeds without a value, and every DataFilter that [ParseURL] produces
    has no [Top] ([Skip]); and [$top=0] gives the value zero, which differs
    from no value. *)
Theorem parseTop_parseSkip_values (url : string) :
  (forall v, extract url top = Some v -> v <> "" -> is_int_literal v = false ->
     parseTop url = Err ErrParseTop /\
     forall f src rg, exists e, ParseURL f url src rg = (f, Some e)) /\
  (forall v, extract url skip = Some v -> v <> "" -> is_int_literal v = false ->
     parseSkip url = Err ErrParseSkip /\
     forall f src rg, exists e, ParseURL f url src rg = (f, Some e)) /\
  (extract url top = None \/ extract url top = Some "" ->
     parseTop url = Ok None /\
     forall f src rg d, ParseURL f url src rg = (d, None) -> DTop d = None) /\
  (extract url skip = None \/ extract url skip = Some "" ->
     parseSkip url = Ok None /\
     forall f src rg d, ParseURL f url src rg = (d, None) -> DSkip d = None) /\
  parseTop "$top=0" = Ok (Some 0%Z) /\ parseSkip "$skip=0" = Ok (Some 0%Z).
Proof.
  assert (Top : forall v, extract url top = Some v -> v <> "" ->
                          is_int_literal v = false -> parseTop url = Err ErrParseTop).
  { intros v Hv Hne Hl; unfold parseTop; rewrite parseQueryOption_extract, Hv.
    apply String.eqb_neq in Hne; rewrite Hne, (Atoi_not_literal _ Hl); reflexivity. }
  assert (Skip : forall v, extract url skip = Some v -> v <> "" ->
                           is_int_literal v = false -> parseSkip url = Err ErrParseSkip).
  { intros v Hv Hne Hl; unfold parseSkip; rewrite parseQueryOption_extract, Hv.
    apply String.eqb_neq in Hne; rewrite Hne, (Atoi_not_literal _ Hl); reflexivity. }
  assert (NoTop : extract url top = None \/ extract url top = Some "" ->
                  parseTop url = Ok None).
  { intros H; unfold parseTop; rewrite parseQueryOption_extract.
    destruct H as [-> | ->]; reflexivity. }
  assert (NoSkip : extract url skip = None \/ extract url skip = Some "" ->
                   parseSkip url = Ok None).
  { intros H; unfold parseSkip; rewrite parseQueryOption_extract.
    destruct H as [-> | ->]; reflexivity. }
  split; [|split; [|split; [|split; [|split; reflexivity]]]].
  - intros v Hv Hne Hl; split; [exact (Top v Hv Hne Hl)|].
    intros f src rg; apply ParseURL_fails; left; exists ErrParseTop.
    exact (Top v Hv Hne Hl).
  - intros v Hv Hne Hl; split; [exact (Skip v Hv Hne Hl)|].
    intros f src rg; apply ParseURL_fails; right; exists ErrParseSkip.
    exact (Skip v Hv Hne Hl).
  - intros H; split; [exact (NoTop H)|].
    intros f src rg d Hd; apply ParseURL_top_skip in Hd as [Hd _].
    rewrite (NoTop H) in Hd; congruence.
  - intros H; split; [exact (NoSkip H)|].
    intros f src rg d Hd; apply ParseURL_top_skip in Hd as [_ Hd].
    rewrite (NoSkip H) in Hd; congruence.
Qed.

Lemma parseTop_parseSkip_values_witness :
  parseTop "$top=abc" = Err ErrParseTop /\
  parseSkip "$top=1&$skip=x1" = Err ErrParseSkip /\
  parseTop "$top=&$skip=3" = Ok None /\
  parseTop "$skip=3" = Ok None.
Proof.
  split; [|split; [|split]].
  - refine (proj1 (proj1 (parseTop_parseSkip_values "$top=abc")
                     "abc" eq_refl _ eq_refl)); discriminate.
  - refine (proj1 (proj1 (proj2 (parseTop_parseSkip_values "$top=1&$skip=x1"))
                     "x1" eq_refl _ eq_refl)); discriminate.
  - exact (proj1 (proj1 (proj2 (proj2 (parseTop_parseSkip_values "$top=&$skip=3")))
                    (or_intror eq_refl))).
  - exact (proj1 (proj1 (proj2 (proj2 (parseTop_parseSkip_values "$skip=3")))
                    (or_introl eq_refl))).
Defined.

(** The order clause of the round trip, for every order of iteration: the
    orders are finitely many, and each is evaluated. *)
Lemma parseOrderBy_books rg :
  ranges_ok rg -> parseOrderBy books_query books_map rg = Ok (Some "title DESC").
Proof.
  intros (_ & _ & _ & H1 & H2 & H3 & H4).
  unfold parseOrderBy.
  replace (parseQueryOption books_query orderBy) with "Title desc"
    by (vm_compute; reflexivity).
  pose proof (perms_complete _ _ (H1 books_map)) as P1.
  pose proof (perms_complete _ _ (H2 sortMap)) as P2.
  pose proof (perms_complete _ _ (H3 books_map)) as P3.
  pose proof (perms_complete _ _ (H4 sortMap)) as P4.
  revert P1 P2 P3 P4.
  generalize (order_fields rg books_map) (order_sorts rg sortMap)
             (replace_fields rg books_map) (replace_sorts rg sortMap).
  intros l1 l2 l3 l4 P1 P2 P3 P4; cbv zeta.
  assert (V : forallb (fun l1 => forallb (fun l2 =>
                String.eqb
                  (Strings.TrimSpace
                     (RemoveAll
                        (orderByPattern (flat_map (fun kv => [fst kv; snd kv]) l1)
                                        (flat_map (fun kv => [snd kv; fst kv]) l2))
                        "Title desc")) "")
              (perms sortMap)) (perms books_map) = true)
    by (vm_compute; reflexivity).
  rewrite forallb_forall in V; specialize (V _ P1).
  rewrite forallb_forall in V; specialize (V _ P2).
  assert (R : forallb (fun l3 => forallb (fun l4 =>
                String.eqb (replace_each l4 (replace_each l3 "Title desc"))
                           "title DESC")
              (perms sortMap)) (perms books_map) = true)
    by (vm_compute; reflexivity).
  rewrite forallb_forall in R; specialize (R _ P3).
  rewrite forallb_forall in R; specialize (R _ P4).
  apply String.eqb_eq in R.
  simpl String.eqb; cbv iota; rewrite V, R; reflexivity.
Qed.

(** C5, as stated, fails: the text rendered for the round trip of the
    specification is not the text the specification gives; the last
    predicate is followed by two spaces, not one. *)
Lemma books_text_differs :
  ranges_ok in_order /\
  EvaluateQuery (fst (ParseURL empty_filter books_query books_schema in_order))
  <> Return books_text_spec.
Proof. split; [exact ranges_ok_in_order|vm_compute; discriminate]. Qed.

(** C5, amended. For the schema with field map
    [{Rate: "rate", Genre: "genre", Title: "title"}] and the query of the
    specification, parsing succeeds, whatever the order of map iteration,
    and rendering yields the text of the specification with two spaces
    before the first newline: every node is rendered as field, operator,
    value, a space, the conjunction and a space, and the conjunction of
    the last node is empty. *)
Theorem books_round_trip (rg : ranges) :
  ranges_ok rg ->
  ParseURL empty_filter books_query books_schema rg = (books_filter, None) /\
  EvaluateQuery books_filter = Return books_text.
Proof.
  intros Hrg; split; [|reflexivity].
  unfold ParseURL.
  change (getStructFieldData books_schema) with (books_map, @None error).
  cbv iota.
  rewrite (parseFilter_order books_query books_map rg in_order
             Hrg ranges_ok_in_order eq_refl).
  replace (parseFilter books_query books_map in_order)
    with (Ok (DFilter books_filter)) by (vm_compute; reflexivity).
  rewrite (parseOrderBy_books rg Hrg).
  reflexivity.
Qed.

Lemma books_round_trip_witness :
  ranges_ok reversed /\
  ParseURL empty_filter books_query books_schema reversed = (books_filter, None) /\
  EvaluateQuery books_filter = Return books_text.
Proof.
  split; [exact ranges_ok_reversed|].
  exact (books_round_trip reversed ranges_ok_reversed).
Defined.

(** C7. The code does not parse deterministically: two runs on the same
    query and the same schema that iterate the maps in different orders
    produce different results.  For the struct [Book] and the query
    [$orderby=AuthorID], [parseOrderBy] translates the names by one
    [strings.Replace] for each entry of the map, in the order of
    iteration: replacing [ID] first gives the order clause [Authorid],
    replacing [AuthorID] first gives [author_id].  The error
    classification depends on the order as well: with the keys [Rate] and
    [RateLimit], the order clause [RateLimit] is rejected when the
    alternative [Rate] comes first in the pattern, and accepted when
    [RateLimit] comes first.  [parseFilter], on the same schema, translates
    the same name by looking it up in the map, and gives [author_id] in
    either order. *)
Lemma parse_depends_on_iteration_order :
  ranges_ok in_order /\ ranges_ok reversed /\
  ParseURL empty_filter "$orderby=AuthorID" Book in_order
  = ({| DFilter := None; DOrderBy := Some "Authorid";
        DTop := None; DSkip := None |}, None) /\
  ParseURL empty_filter "$orderby=AuthorID" Book reversed
  = ({| DFilter := None; DOrderBy := Some "author_id";
        DTop := None; DSkip := None |}, None) /\
  ParseURL empty_filter "$orderby=AuthorID" Book in_order
  <> ParseURL empty_filter "$orderby=AuthorID" Book reversed /\
  parseOrderBy "$orderby=RateLimit"
               [("Rate", "rate"); ("RateLimit", "rate_limit")] in_order
  = Err ErrInvalidQuery /\
  parseOrderBy "$orderby=RateLimit"
               [("Rate", "rate"); ("RateLimit", "rate_limit")] reversed
  = Ok (Some "rate_limit") /\
  parseFilter "$filter=AuthorID eq 1" (fst (getStructFieldData Book)) in_order
  = Ok (Some {| Head := [{| Field := "author_id"; Operator := "=";
                            Conjunction := ""; Value := "1" |}] |}) /\
  parseFilter "$filter=AuthorID eq 1" (fst (getStructFieldData Book)) reversed
  = Ok (Some {| Head := [{| Field := "author_id"; Operator := "=";
                            Conjunction := ""; Value := "1" |}] |}).
Proof.
  split; [exact ranges_ok_in_order|split; [exact ranges_ok_reversed|]].
  split; [vm_compute; reflexivity|split; [vm_compute; reflexivity|]].
  split; [vm_compute; discriminate|].
  repeat split; vm_compute; reflexivity.
Qed.

(** Why the names are taken to be identifiers: with a column name that
    holds white space the result of [parseFilter] depends on the order of
    iteration as well.  With the column [RateLimit gt 5 and Rate] among the
    alternatives, the filter [RateLimit gt 5 and Rate lt 3] is one clause on
    that column when the column comes before [RateLimit] in the pattern,
    and two clauses otherwise. *)
Lemma column_with_white_space_depends_on_order :
  let fieldMap := [("Rate", "RateLimit gt 5 and Rate"); ("RateLimit", "rate_limit")] in
  idents fieldMap = false /\
  parseFilter "$filter=RateLimit gt 5 and Rate lt 3" fieldMap in_order
  = Ok (Some {| Head := [{| Field := ""; Operator := "<";
                            Conjunction := ""; Value := "3" |}] |}) /\
  parseFilter "$filter=RateLimit gt 5 and Rate lt 3" fieldMap reversed
  = Ok (Some {| Head := [{| Field := "rate_limit"; Operator := ">";
                            Conjunction := "AND"; Value := "5" |};
                         {| Field := "RateLimit gt 5 and Rate"; Operator := "<";
                            Conjunction := ""; Value := "3" |}] |}).
Proof. repeat split; vm_compute; reflexivity. Qed.

(** What does not depend on the order of iteration: for a schema whose
    names are identifiers, the result of [parseFilter] is the same for
    every order, and [parseTop] and [parseSkip] iterate no map; hence two
    runs of [ParseURL] on the same query and the same schema give equal
    results when the query has no [$orderby] value. *)
Theorem ParseURL_order_independent f url src rg rg' :
  ranges_ok rg -> ranges_ok rg' ->
  idents (fst (getStructFieldData src)) = true ->
  parseFilter url (fst (getStructFieldData src)) rg
  = parseFilter url (fst (getStructFieldData src)) rg' /\
  (parseQueryOption url orderBy = "" ->
   ParseURL f url src rg = ParseURL f url src rg').
Proof.
  intros Hrg Hrg' Hi.
  pose proof (parseFilter_order url _ rg rg' Hrg Hrg' Hi) as E.
  split; [exact E|intros Ho].
  unfold ParseURL; destruct (getStructFieldData src) as [data err].
  simpl in E; rewrite E.
  unfold parseOrderBy; rewrite Ho; reflexivity.
Qed.

Lemma ParseURL_order_independent_witness :
  ranges_ok in_order /\ ranges_ok reversed /\
  ParseURL empty_filter "$filter=Rate lt 100 or Genre eq 'Thriller'&$top=7"
           books_schema in_order
  = ParseURL empty_filter "$filter=Rate lt 100 or Genre eq 'Thriller'&$top=7"
             books_schema reversed.
Proof.
  split; [exact ranges_ok_in_order|split; [exact ranges_ok_reversed|]].
  exact (proj2 (ParseURL_order_independent
                  empty_filter "$filter=Rate lt 100 or Genre eq 'Thriller'&$top=7"
                  books_schema in_order reversed
                  ranges_ok_in_order ranges_ok_reversed eq_refl) eq_refl).
Defined.

(** * Further properties of the package *)

(** ** The schema readers *)

Lemma value_nested_ind (P : value -> Prop) :
  (forall fields, Forall (fun f => P (field_value f)) fields -> P (VStruct fields)) ->
  (forall elem, P (VPointer elem)) -> P VOther -> forall v, P v.
Proof.
  intros HS HP HO. fix IH 1. intros [fields|elem|].
  - apply HS. induction fields as [|[[n t] v] fields IHf]; constructor.
    + apply IH.
    + apply IHf.
  - apply HP.
  - apply HO.
Qed.

Lemma struct_fields_fold fields :
  struct_fields (VStruct fields) = fold_left field_step fields [].
Proof.
  cbn [struct_fields]. generalize (@nil (string * string)).
  induction fields as [|[[n t] v] fields IH]; intros res; [reflexivity|].
  cbn [fold_left field_step].
  destruct (starts_lower n); [apply IH|].
  destruct (String.eqb t ""); [apply IH|].
  destruct v; apply IH.
Qed.

Lemma get_set m k v k' :
  get (set m k v) k' = if String.eqb k' k then v else get m k'.
Proof.
  induction m as [|[k0 v0] m IH]; simpl.
  - reflexivity.
  - destruct (String.eqb k k0) eqn:E; simpl.
    + apply String.eqb_eq in E. subst k0.
      destruct (String.eqb k' k); reflexivity.
    + rewrite IH. destruct (String.eqb k' k0) eqn:E'; [|reflexivity].
      apply String.eqb_eq in E'. subst k0.
      destruct (String.eqb k' k) eqn:E''; [|reflexivity].
      apply String.eqb_eq in E''. subst k'. rewrite String.eqb_refl in E. discriminate.
Qed.

Lemma set_entry_ok m k v :
  forallb entry_ok m = true -> entry_ok (k, v) = true ->
  forallb entry_ok (set m k v) = true.
Proof.
  intros Hm Hkv. induction m as [|[k0 v0] m IH]; simpl in *.
  - now rewrite Hkv.
  - apply andb_true_iff in Hm. destruct Hm as [H0 Hm].
    destruct (String.eqb k k0); simpl.
    + now rewrite Hkv, Hm.
    + now rewrite H0, IH.
Qed.

Lemma merge_entry_ok nested : forall res,
  forallb entry_ok res = true -> forallb entry_ok nested = true ->
  forallb entry_ok (merge res nested) = true.
Proof.
  unfold merge. induction nested as [|[k v] nested IH]; intros res Hr Hn; simpl in *.
  - exact Hr.
  - apply andb_true_iff in Hn. destruct Hn as [Hkv Hn].
    apply IH; [apply set_entry_ok|]; assumption.
Qed.

Lemma struct_fields_entry_ok : forall v, forallb entry_ok (struct_fields v) = true.
Proof.
  apply value_nested_ind; [|reflexivity|reflexivity].
  intros fields Hf. rewrite struct_fields_fold.
  assert (G : forall res, forallb entry_ok res = true ->
                          forallb entry_ok (fold_left field_step fields res) = true);
    [|apply G; reflexivity].
  induction Hf as [|[[n t] v] fields Hv Hf IH]; intros res Hres; [exact Hres|].
  cbn [fold_left]. apply IH. unfold field_step.
  destruct (starts_lower n) eqn:Hn; [exact Hres|].
  destruct (String.eqb t "") eqn:Ht; [exact Hres|].
  assert (Hset : forallb entry_ok (set res n t) = true).
  { apply set_entry_ok; [exact Hres|]. unfold entry_ok. simpl. now rewrite Hn, Ht. }
  destruct v; try exact Hset.
  apply merge_entry_ok; [exact Hset|exact Hv].
Qed.

Lemma find_absent name fields :
  ~ In name (map field_name fields) ->
  List.find (fun f => String.eqb name (field_name f)) fields = None.
Proof.
  induction fields as [|f fields IH]; intros Hn; simpl; [reflexivity|].
  destruct (String.eqb name (field_name f)) eqn:E.
  - apply String.eqb_eq in E. exfalso. apply Hn. simpl. now left.
  - apply IH. intros HI. apply Hn. simpl. now right.
Qed.

Lemma flat_lookup fields :
  flat fields = true -> NoDup (map field_name fields) ->
  forall res name,
    get (fold_left field_step fields res) name =
    match List.find (fun f => String.eqb name (field_name f)) fields with
    | Some f => if starts_lower name || String.eqb (field_tag f) ""
                then get res name else field_tag f
    | None => get res name
    end.
Proof.
  induction fields as [|[[n t] v] fields IH]; intros Hflat Hnd res name;
    [reflexivity|].
  simpl in Hflat. apply andb_true_iff in Hflat. destruct Hflat as [Hf Hflat].
  inversion Hnd as [|? ? Hnot Hnd']; subst.
  cbn [fold_left]. rewrite (IH Hflat Hnd'). cbn [List.find field_name field_tag fst snd].
  unfold field_value, field_name, field_tag in Hf. cbn [fst snd] in Hf.
  assert (Hstep : field_step res (n, t, v) =
                  if starts_lower n || String.eqb t "" then res else set res n t).
  { unfold field_step. destruct (starts_lower n); [reflexivity|].
    destruct (String.eqb t ""); [reflexivity|]. simpl in *.
    destruct v; try reflexivity. discriminate. }
  rewrite Hstep. destruct (String.eqb name n) eqn:E.
  - apply String.eqb_eq in E. subst n.
    rewrite (find_absent name fields Hnot). cbn [field_tag fst snd].
    destruct (starts_lower name || String.eqb t ""); [reflexivity|].
    now rewrite get_set, String.eqb_refl.
  - assert (Hget : get (if starts_lower n || String.eqb t "" then res else set res n t) name
                   = get res name).
    { destruct (starts_lower n || String.eqb t ""); [reflexivity|].
      now rewrite get_set, E. }
    now rewrite Hget.
Qed.

Lemma find_present (f : string * string * value) fields :
  NoDup (map field_name fields) -> In f fields ->
  List.find (fun g => String.eqb (field_name f) (field_name g)) fields = Some f.
Proof.
  induction fields as [|g fields IH]; intros Hnd Hin; [contradiction|].
  inversion Hnd as [|? ? Hnot Hnd']; subst. simpl.
  destruct Hin as [->|Hin].
  - now rewrite String.eqb_refl.
  - destruct (String.eqb (field_name f) (field_name g)) eqn:E.
    + apply String.eqb_eq in E. exfalso. apply Hnot. rewrite <- E.
      now apply in_map.
    + now apply IH.
Qed.

(** X5. No key of the map of [getStructFieldData] starts with a
    lower-case letter, and no column name in it is empty. *)
Theorem getStructFieldData_entries src k v :
  In (k, v) (fst (getStructFieldData src)) ->
  starts_lower k = false /\ v <> "".
Proof.
  intros Hin.
  assert (H : forallb entry_ok (fst (getStructFieldData src)) = true).
  { unfold getStructFieldData. destruct (Indirect src); try reflexivity.
    apply struct_fields_entry_ok. }
  rewrite forallb_forall in H. specialize (H _ Hin).
  unfold entry_ok in H. cbn [fst snd] in H.
  apply andb_true_iff in H. destruct H as [H1 H2].
  apply negb_true_iff in H1, H2. split; [exact H1|].
  intros ->. discriminate.
Qed.

Lemma getStructFieldData_entries_witness :
  In ("AuthorID", "author_id") (fst (getStructFieldData Book)) /\
  starts_lower "AuthorID" = false /\ "author_id" <> "".
Proof.
  assert (H : In ("AuthorID", "author_id") (fst (getStructFieldData Book))).
  { vm_compute. right. left. reflexivity. }
  split; [exact H|].
  exact (getStructFieldData_entries Book "AuthorID" "author_id" H).
Defined.

(** X6. For a struct whose fields have distinct names and none of which
    is descended into, [getStructFieldData] returns no error, and in its
    map the name of a field reads the [sql] tag of the field when the name
    does not start with a lower-case letter, and the empty string when it
    does. *)
Theorem getStructFieldData_lookup fields name tag fieldValue :
  flat fields = true -> NoDup (map field_name fields) ->
  In (name, tag, fieldValue) fields ->
  snd (getStructFieldData (VStruct fields)) = None /\
  get (fst (getStructFieldData (VStruct fields))) name
  = if starts_lower name then "" else tag.
Proof.
  intros Hflat Hnd Hin. split; [reflexivity|].
  unfold getStructFieldData. cbn [Indirect fst].
  rewrite struct_fields_fold, (flat_lookup fields Hflat Hnd).
  pose proof (find_present (name, tag, fieldValue) fields Hnd Hin) as Hf.
  cbn [field_name fst] in Hf. rewrite Hf. cbn [field_tag fst snd get].
  destruct (starts_lower name); [reflexivity|]. simpl.
  destruct (String.eqb tag "") eqn:E; [|reflexivity].
  apply String.eqb_eq in E. now subst.
Qed.

Lemma getStructFieldData_lookup_witness :
  get (fst (getStructFieldData Book)) "Rate" = "rate" /\
  get (fst (getStructFieldData Book)) "CreatedAt" = "".
Proof.
  pose (fields := [("ID", "id", VOther); ("AuthorID", "author_id", VOther);
                   ("Title", "title", VOther); ("Genre", "genre", VOther);
                   ("Rate", "rate", VOther); ("Size", "size", VOther);
                   ("CreatedAt", "",
                    VStruct [("wall", "", VOther); ("ext", "", VOther);
                             ("loc", "", VPointer None)])]).
  assert (Hnd : NoDup (map field_name fields)).
  { repeat constructor; simpl; intuition discriminate. }
  split.
  - exact (proj2 (getStructFieldData_lookup fields "Rate" "rate" VOther eq_refl Hnd
                    ltac:(simpl; tauto))).
  - exact (proj2 (getStructFieldData_lookup fields "CreatedAt" "" _ eq_refl Hnd
                    ltac:(simpl; tauto))).
Defined.

Lemma keys_set m k v k' : In k' (keys m) \/ k' = k -> In k' (keys (set m k v)).
Proof.
  unfold keys. induction m as [|[k0 v0] m IH]; intros H; cbn [set].
  - destruct H as [[]| ->]. now left.
  - destruct (String.eqb k k0) eqn:E; cbn [map fst].
    + apply String.eqb_eq in E. subst k0.
      destruct H as [[H|H]| ->]; [now left|now right|now left].
    + destruct H as [[H|H]| ->]; [now left| |]; right; apply IH; auto.
Qed.

Lemma keys_merge nested : forall res k,
  In k (keys res) \/ In k (keys nested) -> In k (keys (merge res nested)).
Proof.
  unfold merge. induction nested as [|[k0 v0] nested IH]; intros res k H;
    cbn [fold_left fst snd].
  - destruct H as [H|[]]. exact H.
  - apply IH. destruct H as [H|[H|H]].
    + left. apply keys_set. now left.
    + left. apply keys_set. right. now rewrite <- H.
    + now right.
Qed.

Lemma keys_field_step res f k : In k (keys res) -> In k (keys (field_step res f)).
Proof.
  intros H. destruct f as [[n t] v]. unfold field_step.
  destruct (starts_lower n); [exact H|]. destruct (String.eqb t ""); [exact H|].
  assert (Hs : In k (keys (set res n t))) by (apply keys_set; now left).
  destruct v; try exact Hs. apply keys_merge. now left.
Qed.

Lemma keys_fold fields : forall res k,
  In k (keys res) -> In k (keys (fold_left field_step fields res)).
Proof.
  induction fields as [|f fields IH]; intros res k H; [exact H|].
  cbn [fold_left]. now apply IH, keys_field_step.
Qed.

(** X7. For a struct in which every field that is descended into is
    exported, here and in the nested structs, [getStructFieldData] returns
    no error, and for a tagged field of struct kind whose name does not
    start with a lower-case letter its map holds the name of the field and
    every key of the map of the nested struct. *)
Theorem getStructFieldData_nested fields name tag nested k :
  descends_exported (VStruct fields) = true ->
  In (name, tag, VStruct nested) fields ->
  starts_lower name = false -> tag <> "" ->
  In k (name :: keys (fst (getStructFieldData (VStruct nested)))) ->
  snd (getStructFieldData (VStruct fields)) = None /\
  In k (keys (fst (getStructFieldData (VStruct fields)))).
Proof.
  intros _ Hin Hn Ht Hk. split; [reflexivity|]. unfold getStructFieldData in *. cbn [Indirect fst] in *.
  rewrite struct_fields_fold. generalize (@nil (string * string)).
  induction fields as [|f fields IH]; intros res; [contradiction|].
  cbn [fold_left]. destruct Hin as [->|Hin]; [|now apply IH].
  apply keys_fold. unfold field_step. rewrite Hn.
  destruct (String.eqb tag "") eqn:E; [now apply String.eqb_eq in E|].
  apply keys_merge. destruct Hk as [<-|Hk]; [left|now right].
  apply keys_set. now right.
Qed.

Lemma getStructFieldData_nested_witness :
  In "Name"
     (keys (fst (getStructFieldData
                   (VStruct [("ID", "id", VOther);
                             ("Author", "author",
                              VStruct [("Name", "name", VOther)])])))).
Proof.
  exact (proj2 (getStructFieldData_nested
                  [("ID", "id", VOther);
                   ("Author", "author", VStruct [("Name", "name", VOther)])]
                  "Author" "author" [("Name", "name", VOther)] "Name"
                  eq_refl ltac:(simpl; tauto) eq_refl ltac:(discriminate)
                  ltac:(simpl; tauto))).
Defined.

Lemma fold_names_step_inr fields err :
  fold_left names_step fields (inr err) = inr err.
Proof.
  induction fields as [|[[n t] v] fields IH]; [reflexivity|exact IH].
Qed.

Lemma names_and_tags_fold fields :
  names_and_tags (VStruct fields) = fold_left names_step fields (inl []).
Proof.
  cbn [names_and_tags].
  match goal with
  | |- ?loop fields [] = _ =>
      assert (G : forall res, loop fields res = fold_left names_step fields (inl res));
        [|apply G]
  end.
  induction fields as [|[[n t] v] fields IH]; intros res; [reflexivity|].
  cbn [fold_left names_step].
  destruct (negb (starts_upper n)); [apply IH|].
  destruct v; try apply IH.
  destruct (names_and_tags (VStruct fields0)) as [nested|err]; [apply IH|].
  symmetry. apply fold_names_step_inr.
Qed.

Lemma paired_app l l' : paired l -> paired l' -> paired (l ++ l').
Proof.
  intros [p [-> Hp]] [p' [-> Hp']]. exists (p ++ p')%list. split.
  - unfold names. now rewrite flat_map_app.
  - now rewrite forallb_app, Hp, Hp'.
Qed.

Lemma names_and_tags_paired : forall v,
  match names_and_tags v with
  | inl l => paired l /\ exists fields, v = VStruct fields
  | inr err => err = NotStruct /\ forall fields, v <> VStruct fields
  end.
Proof.
  apply value_nested_ind; [|intros; split; [reflexivity|discriminate]
                           |split; [reflexivity|discriminate]].
  intros fields Hf. rewrite names_and_tags_fold.
  assert (G : forall res, paired res ->
                          exists l, fold_left names_step fields (inl res) = inl l /\
                                    paired l).
  { induction Hf as [|[[n t] v] fields Hv Hf IH]; intros res Hres.
    - exists res. now split.
    - cbn [fold_left names_step].
      destruct (starts_upper n) eqn:Hn; cbn [negb]; [|now apply IH].
      assert (Hres' : paired (res ++ [n; t])).
      { apply paired_app; [exact Hres|]. exists [(n, t)]. split; [reflexivity|].
        simpl. now rewrite Hn. }
      destruct v; try now apply IH.
      unfold field_value in Hv. cbn [snd] in Hv.
      destruct (names_and_tags (VStruct fields0)) as [nested|err].
      + apply IH. apply paired_app; [exact Hres'|apply Hv].
      + destruct Hv as [_ Hv]. now destruct (Hv fields0). }
  destruct (G [] ) as [l [-> Hl]].
  - exists []. now split.
  - split; [exact Hl|]. now exists fields.
Qed.

(** X8. [getStructFieldNamesAndTags] fails exactly when its argument, a
    pointer followed, is no struct, and then with the error of the kind
    check: the error of a nested call never arises. *)
Theorem getStructFieldNamesAndTags_error src :
  match getStructFieldNamesAndTags src with
  | inl _ => exists fields, Indirect src = VStruct fields
  | inr err => err = NotStruct /\ forall fields, Indirect src <> VStruct fields
  end.
Proof.
  unfold getStructFieldNamesAndTags.
  pose proof (names_and_tags_paired (Indirect src)) as H.
  destruct (names_and_tags (Indirect src)); [apply H|exact H].
Qed.

(** X9. The slice [getStructFieldNamesAndTags] returns is a sequence of
    pairs: a name that starts with an upper-case letter, followed by its
    tag. *)
Theorem getStructFieldNamesAndTags_pairs src l :
  getStructFieldNamesAndTags src = inl l ->
  exists pairs : fieldData,
    l = names pairs /\ forallb (fun kv => starts_upper (fst kv)) pairs = true.
Proof.
  unfold getStructFieldNamesAndTags. intros H.
  pose proof (names_and_tags_paired (Indirect src)) as P.
  rewrite H in P. apply P.
Qed.

Lemma getStructFieldNamesAndTags_pairs_witness :
  getStructFieldNamesAndTags Book
  = inl ["ID"; "id"; "AuthorID"; "author_id"; "Title"; "title"; "Genre"; "genre";
         "Rate"; "rate"; "Size"; "size"; "CreatedAt"; ""] /\
  exists pairs : fieldData,
    ["ID"; "id"; "AuthorID"; "author_id"; "Title"; "title"; "Genre"; "genre";
     "Rate"; "rate"; "Size"; "size"; "CreatedAt"; ""] = names pairs /\
    forallb (fun kv => starts_upper (fst kv)) pairs = true.
Proof.
  split; [reflexivity|].
  exact (getStructFieldNamesAndTags_pairs Book _ eq_refl).
Defined.

(** ** Queries that are rejected *)

Lemma TrimRight_head a t : Strings.is_space a = false -> Strings.TrimRight (String a t) <> "".
Proof.
  intros H. cbn [Strings.TrimRight]. rewrite H.
  destruct (Strings.TrimRight t); discriminate.
Qed.

Lemma TrimSpace_head a t : Strings.is_space a = false -> Strings.TrimSpace (String a t) <> "".
Proof.
  intros H. unfold Strings.TrimSpace. cbn [Strings.TrimLeft]. rewrite H.
  now apply TrimRight_head.
Qed.

Lemma perl_space_is_space a : perl_space a = true -> Strings.is_space a = true.
Proof. intros H; by_bytes a H. Qed.

Lemma ident_byte_not_space a : ident_byte a = true -> Strings.is_space a = false.
Proof. intros H; by_bytes a H. Qed.

Lemma TrimSpace_blank w : is_blank w = true -> Strings.TrimSpace w = "".
Proof.
  unfold Strings.TrimSpace, is_blank. induction w as [|a w IH]; [reflexivity|].
  cbn [all Strings.TrimLeft]. intros H. apply andb_true_iff in H as [Ha Hw].
  rewrite (perl_space_is_space a Ha). now apply IH.
Qed.

(** A search that fails at the start of the input leaves the first byte
    of the input in place. *)
Lemma find_later r a s m :
  exec_at r (String a s) = None -> find r (String a s) = Some m ->
  exists p, pre m = String a p.
Proof.
  intros E H. cbn [find] in H. rewrite E in H.
  destruct (find r s) as [m'|]; [|discriminate].
  injection H as <-. now exists (pre m').
Qed.

Lemma remove_matches_head r a s n :
  exec_at r (String a s) = None ->
  exists t, remove_matches n r (String a s) = String a t.
Proof.
  intros E. destruct n as [|n]; [now exists s|].
  cbn [remove_matches].
  destruct (find r (String a s)) as [m|] eqn:F; [|now exists s].
  destruct (find_later _ _ _ _ E F) as [p Hp]. rewrite Hp.
  destruct (text m); [destruct (post m)|]; eexists; reflexivity.
Qed.

Lemma token_run f rest :
  all non_space f = true -> stops non_space rest = true -> token (f ++ rest) = f.
Proof. intros Hf Hr. unfold token. now rewrite (span_unique _ _ _ Hf Hr). Qed.

Lemma mem_alternatives x l :
  x <> "" -> mem x l = false -> existsb (String.eqb x) (alternatives l) = false.
Proof.
  intros Hx Hm. destruct l; [|exact Hm]. simpl.
  destruct (String.eqb x "") eqn:E; [|reflexivity].
  now apply String.eqb_eq in E.
Qed.

Lemma exec_at_unknown_field fl ol cl s :
  Forall (fun x => all non_space x = true) fl ->
  existsb (String.eqb (token s)) (alternatives fl) = false ->
  exec_at (filterPattern fl ol cl) s = None.
Proof.
  intros Hfl Hex. unfold exec_at, filterPattern.
  rewrite exec_cat, exec_group_token; [|exact Hfl|apply plus_space_needs_space].
  now rewrite Hex.
Qed.

Lemma ident_head f :
  ident f = true -> f <> "" ->
  exists a t, f = String a t /\ Strings.is_space a = false.
Proof.
  destruct f as [|a t]; [congruence|]. intros H _. exists a, t. split; [reflexivity|].
  unfold ident in H. cbn [all] in H. apply andb_true_iff in H as [H _].
  now apply ident_byte_not_space.
Qed.

(** Clauses that are linked to what follows them are removed, and the
    search goes on after them. *)
Lemma RemoveAll_clauses fieldMap tail :
  idents fieldMap = true -> stops perl_space tail = true ->
  forall cs,
    forallb (fun c => clause_ok fieldMap c && linked c) cs = true ->
    RemoveAll (filterPattern (names fieldMap) (keys operMap) (keys conjMap))
              (filter_text cs ++ tail)
    = RemoveAll (filterPattern (names fieldMap) (keys operMap) (keys conjMap)) tail.
Proof.
  intros Hi Ht. induction cs as [|c cs IH]; intros Hcs; [reflexivity|].
  cbn [forallb] in Hcs. apply andb_true_iff in Hcs as [Hc Hcs].
  apply andb_true_iff in Hc as [Hc Hl].
  rewrite <- (IH Hcs). cbn [filter_text]. rewrite append_assoc.
  assert (Hstop : stops perl_space (filter_text cs ++ tail) = true).
  { destruct cs as [|c' cs']; [exact Ht|]. cbn [filter_text]. rewrite append_assoc.
    apply (clause_field_stops fieldMap); [exact Hi|].
    cbn [forallb] in Hcs. apply andb_true_iff in Hcs as [Hc' _].
    now apply andb_true_iff in Hc' as [Hc' _]. }
  pose proof (exec_at_clause fieldMap c (filter_text cs ++ tail) Hi Hc Hstop
                (or_intror Hl)) as E.
  destruct (clause_text_not_nil _ _ Hc) as (a & t & Et).
  unfold RemoveAll at 1. cbn [remove_matches].
  rewrite (find_at _ _ _ E). cbn [pre text post].
  assert (L : String.length (filter_text cs ++ tail)
              < String.length (clause_text c ++ filter_text cs ++ tail)).
  { rewrite !length_append, Et. cbn [String.length]. lia. }
  revert L. generalize (String.length (clause_text c ++ filter_text cs ++ tail)).
  intros n L. rewrite Et. cbn [append]. now apply remove_matches_enough.
Qed.

Lemma clauses_amp fieldMap :
  idents fieldMap = true -> forall cs,
  forallb (fun c => clause_ok fieldMap c && linked c) cs = true ->
  all not_amp_dollar (filter_text cs) = true.
Proof.
  intros Hi. induction cs as [|c cs IH]; intros Hcs; [reflexivity|].
  cbn [forallb] in Hcs. apply andb_true_iff in Hcs as [Hc Hcs].
  apply andb_true_iff in Hc as [Hc _]. cbn [filter_text].
  now rewrite all_append, (clause_text_amp fieldMap c Hi Hc), (IH Hcs).
Qed.

(** A filter is rejected when, after clauses that are removed, the
    pattern does not match at a byte that is no white space.  [more] is
    what follows the filter in the query: nothing, or further options. *)
Lemma parseFilter_rejected_after fieldMap rg cs a t more :
  ranges_ok rg -> idents fieldMap = true ->
  forallb (fun c => clause_ok fieldMap c && linked c) cs = true ->
  Strings.is_space a = false -> all not_amp_dollar (String a t) = true ->
  stops not_amp_dollar more = true ->
  exec_at (filterPattern (names fieldMap) (keys operMap) (keys conjMap))
          (String a t) = None ->
  parseFilter ("$filter=" ++ (filter_text cs ++ String a t) ++ more) fieldMap rg
  = Err ErrInvalidQuery.
Proof.
  intros Hrg Hi Hcs Ha Hamp Hmore E.
  rewrite (parseFilter_order _ _ rg in_order Hrg ranges_ok_in_order Hi).
  unfold parseFilter.
  change ("$filter=" ++ (filter_text cs ++ String a t) ++ more)
    with (filter ++ "=" ++ (filter_text cs ++ String a t) ++ more).
  rewrite parseQueryOption_head;
    [|now rewrite all_append, (clauses_amp fieldMap Hi cs Hcs), Hamp|exact Hmore].
  assert (Hne : String.eqb (filter_text cs ++ String a t) "" = false).
  { destruct (filter_text cs); reflexivity. }
  rewrite Hne. cbv zeta.
  change (filterRegexp fieldMap in_order)
    with (filterPattern (names fieldMap) (keys operMap) (keys conjMap)).
  rewrite RemoveAll_clauses; [|exact Hi| |exact Hcs].
  - unfold RemoveAll.
    destruct (remove_matches_head _ _ _ (S (String.length (String a t))) E) as [t' ->].
    destruct (Strings.TrimSpace (String a t')) eqn:T; [|reflexivity].
    now apply TrimSpace_head in T.
  - cbn [stops]. destruct (perl_space a) eqn:P; [|reflexivity].
    apply perl_space_is_space in P. congruence.
Qed.

(** X10. A filter is rejected with [ErrInvalidQuery] when, after clauses
    that end with a conjunction and white space, there comes an identifier
    that is no name of the field map, followed by white space or by the end
    of the filter: whatever the order of iteration, and whatever options
    follow the filter. *)
Theorem parseFilter_unknown_field fieldMap rg cs f rest more :
  ranges_ok rg -> idents fieldMap = true ->
  forallb (fun c => clause_ok fieldMap c && linked c) cs = true ->
  ident f = true -> f <> "" -> mem f (names fieldMap) = false ->
  stops non_space rest = true -> all not_amp_dollar rest = true ->
  stops not_amp_dollar more = true ->
  parseFilter ("$filter=" ++ (filter_text cs ++ f ++ rest) ++ more) fieldMap rg
  = Err ErrInvalidQuery.
Proof.
  intros Hrg Hi Hcs Hf Hne Hmem Hrest Hamp Hmore.
  destruct (ident_head f Hf Hne) as (a & t & -> & Ha).
  apply (parseFilter_rejected_after fieldMap rg cs a (t ++ rest)); try assumption.
  - change (String a (t ++ rest)) with (String a t ++ rest).
    rewrite all_append, Hamp, andb_true_r.
    apply (all_impl ident_byte); [apply ident_byte_not_amp_dollar|exact Hf].
  - change (String a (t ++ rest)) with (String a t ++ rest).
    apply exec_at_unknown_field; [apply idents_field_list, Hi|].
    rewrite (token_run _ _ (ident_non_space _ Hf) Hrest).
    now apply mem_alternatives.
Qed.

Lemma parseFilter_unknown_field_witness :
  parseFilter "$filter=Rate gt 3 and Price lt 100&$top=5"
              (fst (getStructFieldData Book)) reversed
  = Err ErrInvalidQuery.
Proof.
  exact (parseFilter_unknown_field (fst (getStructFieldData Book)) reversed
           [{| c_field := "Rate"; c_space1 := " "; c_oper := "gt";
               c_space2 := " "; c_value := "3"; c_space3 := " ";
               c_conj := "and"; c_space4 := " " |}]
           "Price" " lt 100" "&$top=5"
           ranges_ok_reversed eq_refl eq_refl eq_refl ltac:(discriminate)
           eq_refl eq_refl eq_refl eq_refl).
Defined.

(** [[p]+] and [[p]*] hand to the rest of the pattern what follows a run
    of bytes of the class. *)
Lemma star_class_fails {A : Type} p (K : @cont A) c : forall n s,
  (forall u t, s = u ++ t -> all p u = true -> K t c = None) ->
  star_loop (exec (Class p)) K n s c = None.
Proof.
  induction n as [|n IH]; intros s H.
  - apply (H "" s); reflexivity.
  - rewrite star_loop_S.
    assert (E : exec (Class p) s c
                  (fun s1 c1 => if (String.length s1 <? String.length s)%nat
                                then star_loop (exec (Class p)) K n s1 c1 else None)
                = None).
    { destruct s as [|a s]; [reflexivity|]. rewrite exec_class.
      destruct (p a) eqn:Pa; [|reflexivity].
      destruct (String.length s <? String.length (String a s))%nat; [|reflexivity].
      apply IH. intros u t -> Hu. apply (H (String a u) t); [reflexivity|].
      cbn [all]. now rewrite Pa, Hu. }
    rewrite E. apply (H "" s); reflexivity.
Qed.

Lemma plus_class_fails {A : Type} p (K : @cont A) c s :
  (forall u t, s = u ++ t -> all p u = true -> K t c = None) ->
  exec (Plus (Class p)) s c K = None.
Proof.
  intros H. unfold Plus. rewrite exec_cat.
  destruct s as [|a s]; [reflexivity|]. rewrite exec_class.
  destruct (p a) eqn:Pa; [|reflexivity].
  rewrite exec_star. apply star_class_fails.
  intros u t -> Hu. apply (H (String a u) t); [reflexivity|].
  cbn [all]. now rewrite Pa, Hu.
Qed.

(** A run of white space split in two. *)
Lemma blank_split : forall u w t' t,
  u ++ t' = w ++ t -> is_blank u = true -> stops perl_space t = true ->
  exists w', w = u ++ w' /\ t' = w' ++ t.
Proof.
  induction u as [|a u IH]; intros w t' t E Hu Ht.
  - exists w. now split.
  - cbn [is_blank all] in Hu. apply andb_true_iff in Hu as [Ha Hu].
    destruct w as [|b w].
    + simpl in E. subst t. simpl in Ht. rewrite Ha in Ht. discriminate.
    + simpl in E. injection E as -> E.
      destruct (IH w t' t E Hu Ht) as (w' & -> & ->). exists w'. now split.
Qed.

Lemma blank_tail u w : is_blank (u ++ w) = true -> is_blank w = true.
Proof.
  unfold is_blank. rewrite all_append. intros H.
  now apply andb_true_iff in H as [_ H].
Qed.

Lemma non_space_stops_space op t :
  all non_space op = true -> op <> "" -> stops perl_space (op ++ t) = true.
Proof.
  destruct op as [|a op]; [congruence|]. intros Hop _. simpl.
  simpl in Hop. apply andb_true_iff in Hop as [Ha _]. exact Ha.
Qed.

Lemma blank_token w t :
  is_blank w = true -> w <> "" -> token (w ++ t) = "".
Proof.
  destruct w as [|a w]; [congruence|]. intros H _. apply space_start_token.
  cbn [is_blank all] in H. apply andb_true_iff in H as [Ha _]. simpl.
  now rewrite Ha.
Qed.

Lemma exec_at_unknown_operator fieldMap f w op rest :
  idents fieldMap = true -> mem f (names fieldMap) = true ->
  is_spaces w = true -> all non_space op = true -> op <> "" ->
  mem op (keys operMap) = false -> stops non_space rest = true ->
  exec_at (filterPattern (names fieldMap) (keys operMap) (keys conjMap))
          (f ++ w ++ op ++ rest) = None.
Proof.
  intros Hi Hf Hw Hop Hop0 Hmem Hrest. unfold exec_at, filterPattern.
  rewrite exec_cat, exec_group_hit;
    [|apply idents_field_list, Hi|apply plus_space_needs_space
     |apply mem_In, Hf|apply spaces_stop, Hw].
  rewrite exec_cat. apply plus_class_fails. intros u t E Hu.
  apply andb_true_iff in Hw as [_ Hw].
  destruct (blank_split u w t (op ++ rest) (eq_sym E) Hu (non_space_stops_space op rest Hop Hop0))
    as (w' & -> & ->).
  rewrite exec_cat, exec_group_token;
    [|repeat constructor|apply plus_space_needs_space].
  destruct w' as [|b w'].
  - cbn [append]. rewrite (token_run _ _ Hop Hrest).
    cbn [alternatives keys operMap map fst]. unfold mem in Hmem.
    cbn [keys operMap map fst] in Hmem. now rewrite Hmem.
  - rewrite blank_token; [reflexivity| |discriminate].
    now apply blank_tail in Hw.
Qed.

(** X11. A filter is rejected with [ErrInvalidQuery] when, after clauses
    that end with a conjunction and white space, a field name and white
    space are followed by a word that is no operator keyword. *)
Theorem parseFilter_unknown_operator fieldMap rg cs f w op rest more :
  ranges_ok rg -> idents fieldMap = true ->
  forallb (fun c => clause_ok fieldMap c && linked c) cs = true ->
  f <> "" -> mem f (names fieldMap) = true -> is_spaces w = true ->
  all non_space op = true -> op <> "" -> mem op (keys operMap) = false ->
  stops non_space rest = true -> all not_amp_dollar (op ++ rest) = true ->
  stops not_amp_dollar more = true ->
  parseFilter ("$filter=" ++ (filter_text cs ++ f ++ w ++ op ++ rest) ++ more)
              fieldMap rg
  = Err ErrInvalidQuery.
Proof.
  intros Hrg Hi Hcs Hne Hf Hw Hop Hop0 Hmem Hrest Hamp Hmore.
  pose proof (idents_names _ _ Hi (mem_In _ _ Hf)) as Hid.
  destruct (ident_head f Hid Hne) as (a & t & -> & Ha).
  apply (parseFilter_rejected_after fieldMap rg cs a (t ++ w ++ op ++ rest));
    try assumption.
  - change (String a (t ++ w ++ op ++ rest)) with (String a t ++ w ++ op ++ rest).
    rewrite !all_append. rewrite all_append in Hamp. rewrite Hamp, andb_true_r.
    apply andb_true_iff. split.
    + apply (all_impl ident_byte); [apply ident_byte_not_amp_dollar|exact Hid].
    + apply andb_true_iff in Hw as [_ Hw].
      apply (all_impl perl_space); [apply space_not_amp_dollar|exact Hw].
  - change (String a (t ++ w ++ op ++ rest)) with (String a t ++ w ++ op ++ rest).
    now apply exec_at_unknown_operator.
Qed.

Lemma parseFilter_unknown_operator_witness :
  parseFilter "$filter=Rate lt 100 and Rate ge 400 and Genre eq 'Thriller'&$top=100"
              (fst (getStructFieldData Book)) in_order
  = Err ErrInvalidQuery.
Proof.
  exact (parseFilter_unknown_operator (fst (getStructFieldData Book)) in_order
           [{| c_field := "Rate"; c_space1 := " "; c_oper := "lt";
               c_space2 := " "; c_value := "100"; c_space3 := " ";
               c_conj := "and"; c_space4 := " " |}]
           "Rate" " " "ge" " 400 and Genre eq 'Thriller'" "&$top=100"
           ranges_ok_in_order eq_refl eq_refl ltac:(discriminate) eq_refl eq_refl
           eq_refl ltac:(discriminate) eq_refl eq_refl eq_refl eq_refl).
Defined.

(** A quoted text that is not closed. *)
Lemma exec_value_open {A : Type} (K : @cont A) u c :
  all not_quote u = true ->
  exec (Group 3 (Alt (Plus (Class perl_digit))
                     (Cat (Lit "'") (Cat (Plus (Class not_quote)) (Lit "'")))))
       ("'" ++ u) c K = None.
Proof.
  intros Hu. rewrite exec_group_alt. cbv zeta.
  assert (D : forall k : @cont A, exec (Plus (Class perl_digit)) ("'" ++ u) c k = None).
  { intros k. unfold Plus. rewrite exec_cat. reflexivity. }
  rewrite D, exec_cat, exec_lit_hit, exec_cat.
  apply plus_class_fails. intros u1 t -> Hu1.
  rewrite all_append in Hu. apply andb_true_iff in Hu as [_ Ht].
  destruct t as [|b t]; [reflexivity|]. cbn [all] in Ht.
  apply andb_true_iff in Ht as [Hb _]. cbn [exec prefix].
  destruct (ascii_dec "'" b) as [<-|]; [discriminate|reflexivity].
Qed.

Lemma exec_at_open_quote fieldMap f w1 op w2 u :
  idents fieldMap = true -> mem f (names fieldMap) = true ->
  is_spaces w1 = true -> mem op (keys operMap) = true -> is_spaces w2 = true ->
  all not_quote u = true ->
  exec_at (filterPattern (names fieldMap) (keys operMap) (keys conjMap))
          (f ++ w1 ++ op ++ w2 ++ "'" ++ u) = None.
Proof.
  intros Hi Hf H1 Hop H2 Hu. unfold exec_at, filterPattern.
  rewrite exec_cat, exec_group_hit;
    [|apply idents_field_list, Hi|apply plus_space_needs_space
     |apply mem_In, Hf|apply spaces_stop, H1].
  rewrite exec_cat, plus_class_run;
    [|exact H1|reflexivity|apply oper_stops, mem_In, Hop|apply oper_rejects].
  rewrite exec_cat, exec_group_hit;
    [|repeat constructor|apply plus_space_needs_space|apply mem_In, Hop
     |apply spaces_stop, H2].
  rewrite exec_cat, plus_class_run;
    [|exact H2|reflexivity|reflexivity|apply value_rejects].
  rewrite exec_cat. now apply exec_value_open.
Qed.

(** X12. A filter is rejected with [ErrInvalidQuery] when the quoted
    value of a clause is not closed before the filter text ends.  The
    filter text ends at the first [&] or [$] of the query, so that a quoted
    value holding one of them is cut there and the filter rejected. *)
Theorem parseFilter_open_quote fieldMap rg cs f w1 op w2 u more :
  ranges_ok rg -> idents fieldMap = true ->
  forallb (fun c => clause_ok fieldMap c && linked c) cs = true ->
  f <> "" -> mem f (names fieldMap) = true -> is_spaces w1 = true ->
  mem op (keys operMap) = true -> is_spaces w2 = true ->
  all not_quote u = true -> all not_amp_dollar u = true ->
  stops not_amp_dollar more = true ->
  parseFilter ("$filter=" ++ (filter_text cs ++ f ++ w1 ++ op ++ w2 ++ "'" ++ u) ++ more)
              fieldMap rg
  = Err ErrInvalidQuery.
Proof.
  intros Hrg Hi Hcs Hne Hf H1 Hop H2 Hu Hamp Hmore.
  pose proof (idents_names _ _ Hi (mem_In _ _ Hf)) as Hid.
  destruct (ident_head f Hid Hne) as (a & t & -> & Ha).
  apply (parseFilter_rejected_after fieldMap rg cs a (t ++ w1 ++ op ++ w2 ++ "'" ++ u));
    try assumption.
  - change (String a (t ++ w1 ++ op ++ w2 ++ "'" ++ u))
      with (String a t ++ w1 ++ op ++ w2 ++ "'" ++ u).
    rewrite !all_append, Hamp.
    apply andb_true_iff in H1 as [_ H1]. apply andb_true_iff in H2 as [_ H2].
    rewrite (all_impl ident_byte _ _ ident_byte_not_amp_dollar Hid).
    rewrite (all_impl perl_space _ _ space_not_amp_dollar H1).
    rewrite (all_impl perl_space _ _ space_not_amp_dollar H2).
    apply mem_In in Hop. cbn [keys operMap map fst In] in Hop.
    repeat (destruct Hop as [<-|Hop]; [reflexivity|]). contradiction.
  - change (String a (t ++ w1 ++ op ++ w2 ++ "'" ++ u))
      with (String a t ++ w1 ++ op ++ w2 ++ "'" ++ u).
    now apply exec_at_open_quote.
Qed.

Lemma parseFilter_open_quote_witness :
  parseFilter "$filter=Title eq 'Crime &Punishment'" (fst (getStructFieldData Book))
              in_order
  = Err ErrInvalidQuery.
Proof.
  exact (parseFilter_open_quote (fst (getStructFieldData Book)) in_order []
           "Title" " " "eq" " " "Crime " "&Punishment'"
           ranges_ok_in_order eq_refl eq_refl ltac:(discriminate) eq_refl eq_refl
           eq_refl eq_refl eq_refl eq_refl eq_refl).
Defined.

(** ** A filter of white space *)

Lemma blank_no_operator s :
  is_blank s = true -> existsb (String.eqb (token s)) (keys operMap) = false.
Proof.
  intros H. destruct s as [|a s]; [reflexivity|].
  cbn [is_blank all] in H. apply andb_true_iff in H as [Ha _].
  rewrite space_start_token; [reflexivity|]. simpl. now rewrite Ha.
Qed.

(** The pattern needs an operator, which white space does not hold. *)
Lemma exec_at_blank fieldMap rg s :
  ranges_ok rg -> is_blank s = true -> exec_at (filterRegexp fieldMap rg) s = None.
Proof.
  intros (_ & Ho & _) Hs.
  destruct (exec_at (filterRegexp fieldMap rg) s) as [m|] eqn:E; [exfalso|reflexivity].
  unfold exec_at, filterRegexp, filterPattern in E.
  rewrite exec_cat in E. apply exec_reaches in E as (u1 & s1 & c1 & -> & E).
  apply blank_tail in Hs.
  rewrite exec_cat in E. apply exec_reaches in E as (u2 & s2 & c2 & -> & E).
  apply blank_tail in Hs.
  rewrite exec_cat in E.
  rewrite (exec_group_perm _ (keys (filter_opers rg operMap)) (keys operMap)) in E;
    [|apply Permutation_map, Permutation_sym, Ho
     |eapply Permutation_Forall; [apply Permutation_map, Ho|repeat constructor]
     |apply plus_space_needs_space].
  rewrite exec_group_token in E;
    [|repeat constructor|apply plus_space_needs_space].
  cbn [alternatives keys operMap map fst] in E.
  pose proof (blank_no_operator s2 Hs) as B. cbn [keys operMap map fst] in B.
  rewrite B in E. discriminate.
Qed.

Lemma find_blank fieldMap rg :
  ranges_ok rg -> forall s, is_blank s = true -> find (filterRegexp fieldMap rg) s = None.
Proof.
  intros Hrg. induction s as [|a s IH]; intros Hs; cbn [find].
  - now rewrite (exec_at_blank fieldMap rg "" Hrg).
  - rewrite (exec_at_blank fieldMap rg _ Hrg Hs).
    cbn [is_blank all] in Hs. apply andb_true_iff in Hs as [_ Hs].
    now rewrite (IH Hs).
Qed.

Lemma parseFilter_blank fieldMap rg w more :
  ranges_ok rg -> is_spaces w = true -> stops not_amp_dollar more = true ->
  parseFilter ("$filter=" ++ w ++ more) fieldMap rg = Ok (Some {| Head := [] |}).
Proof.
  intros Hrg Hw Hmore. apply andb_true_iff in Hw as [Hne Hw].
  unfold parseFilter.
  change ("$filter=" ++ w ++ more) with (filter ++ "=" ++ w ++ more).
  rewrite parseQueryOption_head;
    [|apply (all_impl perl_space); [apply space_not_amp_dollar|exact Hw]|exact Hmore].
  apply negb_true_iff in Hne. rewrite Hne. cbv zeta.
  unfold RemoveAll, FindAllStringSubmatch. cbn [remove_matches all_matches].
  rewrite (find_blank fieldMap rg Hrg w Hw), (TrimSpace_blank w Hw).
  reflexivity.
Qed.

(** X14. A [$filter] whose text is white space only is accepted, with a
    chain that has no node; and on every DataFilter [ParseURL] fills from
    such a query [EvaluateQuery] panics. *)
Theorem ParseURL_blank_filter_panics f src rg w more :
  ranges_ok rg -> idents (fst (getStructFieldData src)) = true ->
  is_spaces w = true -> stops not_amp_dollar more = true ->
  parseFilter ("$filter=" ++ w ++ more) (fst (getStructFieldData src)) rg
  = Ok (Some {| Head := [] |}) /\
  forall parsed,
    ParseURL f ("$filter=" ++ w ++ more) src rg = (parsed, None) ->
    EvaluateQuery parsed = Panic.
Proof.
  intros Hrg _ Hw Hmore.
  pose proof (parseFilter_blank (fst (getStructFieldData src)) rg w more Hrg Hw Hmore)
    as E.
  split; [exact E|]. intros parsed H.
  destruct (ParseURL_cases f ("$filter=" ++ w ++ more) src rg)
    as [(e & He & _)|(fl & o & t & s & Hf & _ & _ & _ & Hp)].
  - rewrite H in He. discriminate.
  - cbv zeta in Hf. rewrite E in Hf. injection Hf as <-.
    rewrite H in Hp. injection Hp as ->. reflexivity.
Qed.

Lemma ParseURL_blank_filter_panics_witness :
  ParseURL empty_filter "$filter= &$top=5" Book in_order
  = ({| DFilter := Some {| Head := [] |}; DOrderBy := None;
        DTop := Some 5%Z; DSkip := None |}, None) /\
  EvaluateQuery {| DFilter := Some {| Head := [] |}; DOrderBy := None;
                   DTop := Some 5%Z; DSkip := None |} = Panic.
Proof.
  split; [reflexivity|].
  exact (proj2 (ParseURL_blank_filter_panics empty_filter Book in_order " " "&$top=5"
                  ranges_ok_in_order eq_refl eq_refl eq_refl) _ eq_refl).
Defined.

(** The predicates of a chain *)


(** ** What a node can carry *)

Section Keeps.
Context {A : Type} (i : nat).
Implicit Types (k : @cont A) (r : regex) (s : string) (c : caps).

(** A pattern without the group [i] hands the text of the group [i] on
    as it received it. *)
Lemma star_loop_keeps step k x :
  (forall s c k', step s c k' = Some x ->
                  exists s' c', k' s' c' = Some x /\ cap c' i = cap c i) ->
  forall n s c, star_loop step k n s c = Some x ->
                exists s' c', k s' c' = Some x /\ cap c' i = cap c i.
Proof.
  intros Hstep. induction n as [|n IH]; intros s c H; simpl in H.
  - now exists s, c.
  - match type of H with
    | match ?e with _ => _ end = _ => destruct e as [y|] eqn:E
    end.
    + injection H as ->. apply Hstep in E as (s1 & c1 & E & Hc).
      destruct (String.length s1 <? String.length s)%nat; [|discriminate].
      apply IH in E as (s2 & c2 & E & Hc2). exists s2, c2.
      split; [exact E|congruence].
    + now exists s, c.
Qed.

Lemma exec_keeps r x :
  no_group i r = true ->
  forall s c k, exec r s c k = Some x ->
                exists s' c', k s' c' = Some x /\ cap c' i = cap c i.
Proof.
  induction r as [|l|p|r1 IH1 r2 IH2|r1 IH1 r2 IH2|r1 IH1|j r1 IH1];
    intros Hr s c k H; simpl in H, Hr.
  - now exists s, c.
  - destruct (prefix l s); [|discriminate]. eauto.
  - destruct s as [|a s]; [discriminate|]. destruct (p a); [|discriminate]. eauto.
  - apply andb_true_iff in Hr as [Hr1 Hr2].
    apply (IH1 Hr1) in H as (s1 & c1 & H & Hc).
    apply (IH2 Hr2) in H as (s2 & c2 & H & Hc2).
    exists s2, c2. split; [exact H|congruence].
  - apply andb_true_iff in Hr as [Hr1 Hr2].
    destruct (exec r1 s c k) as [y|] eqn:E.
    + injection H as ->. now apply (IH1 Hr1) in E.
    + now apply (IH2 Hr2) in H.
  - eapply star_loop_keeps; [|exact H]. intros s0 c0 k'. now apply IH1.
  - apply andb_true_iff in Hr as [Hj Hr1].
    apply (IH1 Hr1) in H as (s1 & c1 & H & Hc).
    eexists _, _. split; [exact H|]. cbn [cap].
    apply negb_true_iff in Hj. now rewrite Hj.
Qed.

(** [[p]*] and [[p]+] consume a run of bytes of the class. *)
Lemma star_class_sound p k x : forall n s c,
  star_loop (exec (Class p)) k n s c = Some x ->
  exists u t, s = u ++ t /\ all p u = true /\ k t c = Some x.
Proof.
  induction n as [|n IH]; intros s c H.
  - now exists "", s.
  - rewrite star_loop_S in H.
    match type of H with
    | match ?e with _ => _ end = _ => destruct e as [y|] eqn:E
    end.
    + injection H as ->. destruct s as [|a s]; [discriminate|].
      rewrite exec_class in E. destruct (p a) eqn:Pa; [|discriminate].
      destruct (String.length s <? String.length (String a s))%nat; [|discriminate].
      apply IH in E as (u & t & -> & Hu & E). exists (String a u), t.
      repeat split; [|exact E]. cbn [all]. now rewrite Pa, Hu.
    + now exists "", s.
Qed.

Lemma plus_class_sound p k x s c :
  exec (Plus (Class p)) s c k = Some x ->
  exists u t, s = u ++ t /\ u <> "" /\ all p u = true /\ k t c = Some x.
Proof.
  unfold Plus. rewrite exec_cat. intros H.
  destruct s as [|a s]; [discriminate|]. rewrite exec_class in H.
  destruct (p a) eqn:Pa; [|discriminate]. rewrite exec_star in H.
  apply star_class_sound in H as (u & t & -> & Hu & H).
  exists (String a u), t. repeat split; [discriminate| |exact H].
  cbn [all]. now rewrite Pa, Hu.
Qed.

(** The value of a clause is a number or a quoted text. *)
Lemma exec_value_sound k x s c :
  exec (Alt (Plus (Class perl_digit))
            (Cat (Lit "'") (Cat (Plus (Class not_quote)) (Lit "'")))) s c k = Some x ->
  exists v t, s = v ++ t /\ is_value v = true /\ k t c = Some x.
Proof.
  intros H. cbn [exec] in H.
  match type of H with
  | match ?e with _ => _ end = _ => destruct e as [y|] eqn:E
  end.
  - injection H as ->.
    apply (plus_class_sound perl_digit) in E as (u & t & -> & Hne & Hu & E).
    exists u, t. repeat split; [|exact E]. unfold is_value, is_number.
    destruct u; [congruence|]. cbn [String.eqb negb andb].
    unfold perl_digit in Hu. change (all is_digit (String a u) = true) in Hu.
    now rewrite Hu.
  - clear E. destruct (prefix "'" s) eqn:P; [|discriminate].
    apply prefix_split in P. cbn [String.length drop] in H.
    change (exec (Plus (Class not_quote)) (drop 1 s) c
              (fun s1 c1 => exec (Lit "'") s1 c1 k) = Some x) in H.
    apply plus_class_sound in H as (u & t & Hs & Hne & Hu & H).
    cbn [exec] in H. destruct (prefix "'" t) eqn:Q; [|discriminate].
    apply prefix_split in Q. cbn [String.length] in *.
    exists ("'" ++ u ++ "'"), (drop 1 t). repeat split; [| |exact H].
    + rewrite P, Hs, Q at 1. now rewrite !append_assoc.
    + unfold is_value. apply orb_true_iff. right.
      cbn [append is_quoted Ascii.eqb Bool.eqb andb].
      rewrite (span_unique not_quote u "'" Hu eq_refl).
      destruct u; [congruence|]. reflexivity.
Qed.
End Keeps.

Lemma no_group_alt i l : no_group i (alt l) = true.
Proof.
  induction l as [|x l IH]; [reflexivity|].
  destruct l; [reflexivity|]. cbn [alt no_group]. exact IH.
Qed.

Lemma exec_group {A : Type} i r s c (k : @cont A) :
  exec (Group i r) s c k
  = exec r s c (fun s1 c1 =>
      k s1 ((i, take (String.length s - String.length s1) s) :: c1)).
Proof. reflexivity. Qed.

Lemma exec_at_value fl ol cl s m :
  exec_at (filterPattern fl ol cl) s = Some m ->
  is_value (cap (groups m) 3) = true.
Proof.
  unfold exec_at, filterPattern. intros H.
  rewrite exec_cat in H. apply exec_reaches in H as (u1 & s1 & c1 & _ & H).
  rewrite exec_cat in H. apply exec_reaches in H as (u2 & s2 & c2 & _ & H).
  rewrite exec_cat in H. apply exec_reaches in H as (u3 & s3 & c3 & _ & H).
  rewrite exec_cat in H. apply exec_reaches in H as (u4 & s4 & c4 & _ & H).
  rewrite exec_cat, exec_group in H.
  apply exec_value_sound in H as (v & t & -> & Hv & H).
  rewrite take_consumed in H.
  apply (exec_keeps 3) in H as (s' & c' & H & Hc).
  - injection H as <-. cbn [groups]. rewrite Hc. cbn [cap Nat.eqb]. exact Hv.
  - cbn [no_group Nat.eqb negb andb]. now rewrite no_group_alt.
Qed.

Lemma find_groups r : forall s m,
  find r s = Some m -> exists s' m', exec_at r s' = Some m' /\ groups m' = groups m.
Proof.
  induction s as [|a s IH]; intros m H; cbn [find] in H.
  - destruct (exec_at r "") as [m'|] eqn:E; [|discriminate].
    injection H as <-. now exists "", m'.
  - destruct (exec_at r (String a s)) as [m'|] eqn:E.
    + injection H as <-. now exists (String a s), m'.
    + destruct (find r s) as [m'|] eqn:F; [|discriminate].
      injection H as <-. cbn [groups]. now apply IH.
Qed.

Lemma all_matches_found r : forall n s b m,
  In m (all_matches n r s b) -> exists s', find r s' = Some m.
Proof.
  induction n as [|n IH]; intros s b m H; [contradiction|].
  cbn [all_matches] in H.
  destruct (find r s) as [m0|] eqn:F; [|contradiction].
  assert (Hcons : forall l, In m (m0 :: l) ->
                            (In m l -> exists s', find r s' = Some m) ->
                            exists s', find r s' = Some m).
  { intros l [<-|Hl] Hrec; [now exists s|now apply Hrec]. }
  assert (Hlater : In m match s with
                        | "" => []
                        | String _ s' => all_matches n r s' false
                        end -> exists s', find r s' = Some m).
  { destruct s; [contradiction|]. apply IH. }
  destruct (pre m0); [destruct (text m0)|].
  - destruct b; [now apply Hlater|]. eapply Hcons; [exact H|exact Hlater].
  - eapply Hcons; [exact H|apply IH].
  - eapply Hcons; [exact H|apply IH].
Qed.

Lemma get_in (m : fieldData) k : In (get m k) ("" :: columns m).
Proof.
  induction m as [|[k' v] m IH]; [now left|]. cbn [get columns map snd].
  destruct (String.eqb k k'); [right; now left|].
  destruct IH as [IH|IH]; [now left|right; now right].
Qed.

(** X13. In every node of an accepted filter, the field is a column name
    of the field map or empty, the operator and the conjunction come from
    the tables of the parser or are empty, and the value is a run of digits
    or a quoted text without a quote inside: no other text of the query
    reaches the chain. *)
Theorem parseFilter_nodes url fieldMap rg fil :
  idents fieldMap = true ->
  parseFilter url fieldMap rg = Ok (Some fil) ->
  Forall (node_ok fieldMap) (Head fil).
Proof.
  intros _. unfold parseFilter. destruct (String.eqb (parseQueryOption url filter) "");
    [discriminate|]. cbv zeta.
  destruct (negb _); [discriminate|]. intros H. injection H as <-.
  rewrite fold_Insert. cbn [Head app]. apply Forall_forall. intros node Hn.
  apply in_map_iff in Hn as (m & <- & Hm).
  apply all_matches_found in Hm as (s1 & Hm).
  apply find_groups in Hm as (s2 & m' & Hm & Hg).
  apply exec_at_value in Hm.
  unfold node_ok, node_of. cbn [Field Operator Conjunction Value].
  rewrite <- Hg. repeat split; try apply get_in. exact Hm.
Qed.

Lemma parseFilter_nodes_witness :
  Forall (node_ok books_map)
         [{| Field := "rate"; Operator := "<"; Conjunction := "AND"; Value := "100" |};
          {| Field := "genre"; Operator := "="; Conjunction := ""; Value := "'Thriller'" |}].
Proof.
  exact (parseFilter_nodes books_query books_map in_order
           {| Head := [{| Field := "rate"; Operator := "<";
                          Conjunction := "AND"; Value := "100" |};
                       {| Field := "genre"; Operator := "=";
                          Conjunction := ""; Value := "'Thriller'" |}] |}
           eq_refl eq_refl).
Defined.

(** ** An [$orderby] without a field *)

Lemma exec_alt_no_prefix {A : Type} (K : @cont A) s c : forall l,
  l <> [] -> (forall x, In x l -> prefix x s = false) -> exec (alt l) s c K = None.
Proof.
  induction l as [|x l IH]; intros Hne H; [congruence|].
  assert (Hx : exec (Lit x) s c K = None).
  { cbn [exec]. rewrite (H x); [reflexivity|now left]. }
  destruct l as [|y l]; [exact Hx|].
  change (alt (x :: y :: l)) with (Alt (Lit x) (alt (y :: l))).
  cbn [exec]. cbn [exec] in Hx. rewrite Hx.
  apply IH; [discriminate|]. intros z Hz. apply H. now right.
Qed.

Lemma find_no_occurrence fl sl :
  fl <> [] -> forall s,
  (forall x, In x fl -> occurs x s = false) ->
  find (orderByPattern fl sl) s = None.
Proof.
  intros Hne. induction s as [|a s IH]; intros H.
  - cbn [find]. unfold exec_at, orderByPattern. rewrite exec_cat. cbn [exec].
    rewrite exec_alt_no_prefix; [reflexivity|exact Hne|].
    intros x Hx. specialize (H x Hx). cbn [occurs] in H.
    now apply orb_false_iff in H as [H _].
  - cbn [find]. unfold exec_at at 1. unfold orderByPattern at 1.
    rewrite exec_cat. cbn [exec].
    rewrite exec_alt_no_prefix; [|exact Hne|].
    + rewrite IH; [reflexivity|]. intros x Hx. specialize (H x Hx).
      cbn [occurs] in H. now apply orb_false_iff in H as [_ H].
    + intros x Hx. specialize (H x Hx). cbn [occurs] in H.
      now apply orb_false_iff in H as [H _].
Qed.

(** X15. An [$orderby] of ASCII text that is not white space only and in
    which no name of the field map occurs is rejected with
    [ErrInvalidQuery]. *)
Theorem parseOrderBy_no_field fieldMap rg v more :
  ranges_ok rg -> idents fieldMap = true -> fieldMap <> [] ->
  forallb (fun x => negb (occurs x v)) (names fieldMap) = true ->
  all is_ascii v = true ->
  all not_amp_dollar v = true -> Strings.TrimSpace v <> "" ->
  stops not_amp_dollar more = true ->
  parseOrderBy ("$orderby=" ++ v ++ more) fieldMap rg = Err ErrInvalidQuery.
Proof.
  intros (_ & _ & _ & Hf & _) _ Hne Hocc _ Hamp Htrim Hmore. unfold parseOrderBy.
  change ("$orderby=" ++ v ++ more) with (orderBy ++ "=" ++ v ++ more).
  rewrite (parseQueryOption_head orderBy v more Hamp Hmore).
  destruct (String.eqb v "") eqn:E.
  { apply String.eqb_eq in E. subst v. now elim Htrim. }
  cbv zeta. unfold RemoveAll. cbn [remove_matches].
  rewrite find_no_occurrence.
  - destruct (String.eqb (Strings.TrimSpace v) "") eqn:T; [|reflexivity].
    now apply String.eqb_eq in T.
  - destruct (order_fields rg fieldMap) as [|kv m] eqn:Em; [|discriminate].
    pose proof (Hf fieldMap) as P. rewrite Em in P.
    apply Permutation_sym, Permutation_nil in P. contradiction.
  - intros x Hx. rewrite forallb_forall in Hocc.
    apply negb_true_iff, Hocc.
    eapply Permutation_in; [|exact Hx].
    apply Permutation_flat_map, Permutation_sym, Hf.
Qed.

Lemma parseOrderBy_no_field_witness :
  parseOrderBy "$orderby=Price desc&$top=3" (fst (getStructFieldData Book)) reversed
  = Err ErrInvalidQuery.
Proof.
  exact (parseOrderBy_no_field (fst (getStructFieldData Book)) reversed
           "Price desc" "&$top=3"
           ranges_ok_reversed eq_refl ltac:(discriminate) eq_refl eq_refl eq_refl
           ltac:(discriminate) eq_refl).
Defined.

(** ** The numbers of [$top] and [$skip] *)

Ltac digit_step :=
  match goal with
  | |- context [is_digit ?a] => change (is_digit a) with true
  end;
  match goal with
  | |- context [Strconv.digit_value ?a] =>
      let v := eval vm_compute in (Strconv.digit_value a) in
      change (Strconv.digit_value a) with v
  end;
  cbv iota.

Lemma digits_value_uint_acc d : forall acc,
  Strconv.digits_value (NilEmpty.string_of_uint d) (Z.pos acc)
  = Some (Z.pos (Pos.of_uint_acc d acc)).
Proof.
  induction d as [|d IH|d IH|d IH|d IH|d IH|d IH|d IH|d IH|d IH|d IH]; intros acc;
    cbn [NilEmpty.string_of_uint Strconv.digits_value Pos.of_uint_acc];
    [reflexivity|..]; digit_step; rewrite <- IH; f_equal; lia.
Qed.

Lemma digits_value_uint d :
  Strconv.digits_value (NilEmpty.string_of_uint d) 0
  = Some (Z.of_N (Pos.of_uint d)).
Proof.
  induction d as [|d IH|d IH|d IH|d IH|d IH|d IH|d IH|d IH|d IH|d IH];
    cbn [NilEmpty.string_of_uint Strconv.digits_value Pos.of_uint];
    [reflexivity|..]; digit_step; [exact IH|..];
    cbn [Z.mul Z.add Z.of_N]; apply digits_value_uint_acc.
Qed.

Lemma Atoi_uint d :
  d <> Decimal.Nil ->
  Strconv.Atoi (NilEmpty.string_of_uint d)
  = if in_int_range (Z.of_N (Pos.of_uint d))
    then Some (Z.of_N (Pos.of_uint d)) else None.
Proof.
  intros Hd. pose proof (digits_value_uint d) as E.
  destruct d; [congruence|..];
    cbn [NilEmpty.string_of_uint] in *; unfold Strconv.Atoi;
    cbn [Ascii.eqb Bool.eqb orb andb]; rewrite E; reflexivity.
Qed.

Lemma Atoi_neg_uint d :
  d <> Decimal.Nil ->
  Strconv.Atoi (String "-" (NilEmpty.string_of_uint d))
  = if in_int_range (- Z.of_N (Pos.of_uint d))
    then Some (- Z.of_N (Pos.of_uint d))%Z else None.
Proof.
  intros Hd. pose proof (digits_value_uint d) as E.
  unfold Strconv.Atoi. cbn [Ascii.eqb Bool.eqb orb andb].
  destruct d; [congruence|..];
    cbn [NilEmpty.string_of_uint] in *; rewrite E; reflexivity.
Qed.

Lemma string_of_uint_nonnil d :
  d <> Decimal.Nil -> NilZero.string_of_uint d = NilEmpty.string_of_uint d.
Proof. destruct d; [congruence|..]; reflexivity. Qed.

Lemma Atoi_Itoa n :
  Strconv.Atoi (Strconv.Itoa n) = if in_int_range n then Some n else None.
Proof.
  unfold Strconv.Itoa. destruct n as [|p|p]; cbn [Z.to_int NilZero.string_of_int].
  - reflexivity.
  - rewrite (string_of_uint_nonnil _ (DecimalPos.Unsigned.to_uint_nonnil p)).
    rewrite (Atoi_uint _ (DecimalPos.Unsigned.to_uint_nonnil p)).
    now rewrite DecimalPos.Unsigned.of_to.
  - rewrite (string_of_uint_nonnil _ (DecimalPos.Unsigned.to_uint_nonnil p)).
    rewrite (Atoi_neg_uint _ (DecimalPos.Unsigned.to_uint_nonnil p)).
    now rewrite DecimalPos.Unsigned.of_to.
Qed.

Lemma string_of_uint_amp d : all not_amp_dollar (NilEmpty.string_of_uint d) = true.
Proof.
  induction d; cbn [NilEmpty.string_of_uint all]; [reflexivity|..];
    rewrite IHd; reflexivity.
Qed.

Lemma Itoa_text n :
  all not_amp_dollar (Strconv.Itoa n) = true /\ String.eqb (Strconv.Itoa n) "" = false.
Proof.
  unfold Strconv.Itoa. destruct n as [|p|p]; cbn [Z.to_int NilZero.string_of_int].
  - split; reflexivity.
  - rewrite (string_of_uint_nonnil _ (DecimalPos.Unsigned.to_uint_nonnil p)).
    split; [apply string_of_uint_amp|].
    pose proof (DecimalPos.Unsigned.to_uint_nonnil p) as H.
    destruct (Pos.to_uint p); [congruence|..]; reflexivity.
  - rewrite (string_of_uint_nonnil _ (DecimalPos.Unsigned.to_uint_nonnil p)).
    split; [|reflexivity]. cbn [all]. now rewrite string_of_uint_amp.
Qed.

(** X16. [parseTop] and [parseSkip] read back the decimal text of every
    [int], negative ones included, and reject with their own error the
    decimal text of an integer outside the range of [int]. *)
Theorem parseTop_parseSkip_decimal n :
  parseTop ("$top=" ++ Strconv.Itoa n)
  = (if in_int_range n then Ok (Some n) else Err ErrParseTop) /\
  parseSkip ("$skip=" ++ Strconv.Itoa n)
  = (if in_int_range n then Ok (Some n) else Err ErrParseSkip).
Proof.
  destruct (Itoa_text n) as [Hamp Hne]. unfold parseTop, parseSkip.
  change ("$top=" ++ Strconv.Itoa n) with (top ++ "=" ++ Strconv.Itoa n).
  change ("$skip=" ++ Strconv.Itoa n) with (skip ++ "=" ++ Strconv.Itoa n).
  rewrite !parseQueryOption_whole by exact Hamp.
  rewrite Hne, Atoi_Itoa. destruct (in_int_range n); split; reflexivity.
Qed.

(** ** The option extractor *)

(** X1. For an option name made of [$] and an identifier,
    [parseQueryOption] returns the text that follows the first occurrence
    of the name and [=] in the query, up to the next [&] or [$] or the end
    of the query, and the empty string when the name followed by [=] does
    not occur. *)
Theorem parseQueryOption_first_occurrence query k :
  ident k = true ->
  parseQueryOption query (String "$" k) =
  match extract query (String "$" k) with
  | Some v => v
  | None => ""
  end.
Proof. intros _. apply parseQueryOption_extract. Qed.

Lemma parseQueryOption_first_occurrence_witness :
  parseQueryOption "page=2&$top=5$skip=1&$top=7" top = "5" /\
  extract "page=2&$top=5$skip=1&$top=7" top = Some "5".
Proof.
  split; [|reflexivity].
  exact (parseQueryOption_first_occurrence "page=2&$top=5$skip=1&$top=7" "top" eq_refl).
Defined.

Lemma extract_no_delimiter opt : forall query v,
  extract query opt = Some v -> all not_amp_dollar v = true.
Proof.
  induction query as [|a query IH]; intros v H; rewrite extract_eq in H.
  - destruct (prefix (opt ++ "=") ""); [|discriminate].
    injection H as <-. apply span_all.
  - destruct (prefix (opt ++ "=") (String a query)); [|now apply IH].
    injection H as <-. apply span_all.
Qed.

(** X2. For an option name made of [$] and an identifier, the text
    [parseQueryOption] returns holds neither [&] nor [$]. *)
Theorem parseQueryOption_no_delimiter query k :
  ident k = true ->
  all not_amp_dollar (parseQueryOption query (String "$" k)) = true.
Proof.
  intros _. rewrite parseQueryOption_extract.
  destruct (extract query (String "$" k)) as [v|] eqn:E; [|reflexivity].
  exact (extract_no_delimiter _ query v E).
Qed.

Lemma parseQueryOption_no_delimiter_witness :
  all not_amp_dollar (parseQueryOption "$filter=Title eq 'A&B'$top=3" filter) = true.
Proof.
  exact (parseQueryOption_no_delimiter "$filter=Title eq 'A&B'$top=3" "filter" eq_refl).
Defined.

(** ** The chain *)

(** X4. [Insert] puts the new node at the end of the chain: after a
    series of insertions the chain holds the nodes it held before, followed
    by the inserted nodes in the order of their insertion. *)
Theorem Insert_in_order nodes : forall f,
  Head (fold_left Insert nodes f) = (Head f ++ nodes)%list.
Proof.
  induction nodes as [|node nodes IH]; intros f; cbn [fold_left].
  - symmetry. apply app_nil_r.
  - rewrite IH. unfold Insert. cbn [Head].
    now rewrite insert_last_app, <- app_assoc.
Qed.

(** ** Queries made of options *)

Lemma extract_miss opt a s :
  prefix (opt ++ "=") (String a s) = false ->
  extract (String a s) opt = extract s opt.
Proof. intros P. now rewrite extract_eq, P. Qed.

Lemma extract_skip k u : forall s,
  all not_dollar u = true ->
  extract (u ++ s) (String "$" k) = extract s (String "$" k).
Proof.
  induction u as [|a u IH]; intros s H; [reflexivity|].
  cbn [all] in H. apply andb_true_iff in H as [Ha Hu].
  cbn [append]. rewrite extract_miss; [now apply IH|].
  cbn [append prefix]. destruct (ascii_dec "$" a) as [<-|]; [discriminate|reflexivity].
Qed.

Lemma extract_here opt v rest :
  all not_amp_dollar v = true -> stops not_amp_dollar rest = true ->
  extract (opt ++ "=" ++ v ++ rest) opt = Some v.
Proof.
  intros Hv Hr. rewrite extract_eq.
  replace (opt ++ "=" ++ v ++ rest) with ((opt ++ "=") ++ v ++ rest)
    by apply append_assoc.
  rewrite prefix_refl_append, drop_append, (span_unique _ _ _ Hv Hr). reflexivity.
Qed.

Lemma not_amp_dollar_not_dollar s : all not_amp_dollar s = true -> all not_dollar s = true.
Proof.
  apply all_impl. intros a H. unfold not_amp_dollar in H. unfold not_dollar.
  apply negb_true_iff in H. apply orb_false_iff in H as [_ H]. now rewrite H.
Qed.

Lemma ident_byte_not_dollar a : ident_byte a = true -> not_dollar a = true.
Proof. intros H; by_bytes a H. Qed.

(** Names without [=] are compared up to the [=]. *)
Lemma prefix_key : forall k k0 t,
  ident k = true -> ident k0 = true ->
  prefix (k ++ "=") (k0 ++ "=" ++ t) = String.eqb k k0.
Proof.
  unfold ident. induction k as [|a k IH]; intros [|b k0] t Hk Hk0; cbn [append prefix String.eqb].
  - destruct (ascii_dec "=" "=") as [_|N]; [now destruct t|now elim N].
  - cbn [all] in Hk0. apply andb_true_iff in Hk0 as [Hb _].
    destruct (ascii_dec "=" b) as [<-|]; [discriminate|reflexivity].
  - cbn [all] in Hk. apply andb_true_iff in Hk as [Ha _].
    destruct (ascii_dec a "=") as [->|]; [discriminate|reflexivity].
  - cbn [all] in Hk, Hk0. apply andb_true_iff in Hk as [_ Hk].
    apply andb_true_iff in Hk0 as [_ Hk0].
    destruct (ascii_dec a b) as [->|Hab].
    + rewrite Ascii.eqb_refl. now apply IH.
    + apply Ascii.eqb_neq in Hab. now rewrite Hab.
Qed.

(** One option at the head of a query. *)
Lemma extract_option k key v rest :
  ident k = true -> option_ok (key, v) = true ->
  rest = "" \/ (exists rest', rest = "&" ++ rest') ->
  extract (key ++ "=" ++ v ++ rest) (String "$" k)
  = if String.eqb (String "$" k) key then Some v
    else extract rest (String "$" k).
Proof.
  intros Hk Hok Hrest. unfold option_ok in Hok. cbn [fst snd] in Hok.
  apply andb_true_iff in Hok as [Hkey Hv].
  assert (Hstop : stops not_amp_dollar rest = true).
  { destruct Hrest as [->|[rest' ->]]; reflexivity. }
  destruct key as [|a name]; [discriminate|]. cbn [key_ok] in Hkey.
  apply andb_true_iff in Hkey as [Ha Hname].
  assert (Hskip : all not_dollar (name ++ "=" ++ v) = true).
  { rewrite !all_append, (not_amp_dollar_not_dollar v Hv), andb_true_r.
    rewrite (all_impl ident_byte not_dollar name ident_byte_not_dollar Hname).
    reflexivity. }
  destruct (String.eqb (String "$" k) (String a name)) eqn:E.
  - apply String.eqb_eq in E. rewrite <- E. now apply (extract_here (String "$" k)).
  - change (String a name ++ "=" ++ v ++ rest)
      with (String a (name ++ "=" ++ v ++ rest)).
    rewrite extract_miss.
    + replace (name ++ "=" ++ v ++ rest) with ((name ++ "=" ++ v) ++ rest)
        by now rewrite !append_assoc.
      now apply extract_skip.
    + change (String "$" k ++ "=") with (String "$" (k ++ "=")). cbn [prefix].
      destruct (ascii_dec "$" a) as [<-|]; [|reflexivity].
      rewrite (prefix_key k name (v ++ rest) Hk Hname).
      cbn [String.eqb] in E. now rewrite Ascii.eqb_refl in E.
Qed.

Lemma extract_query k : forall opts,
  ident k = true -> forallb option_ok opts = true ->
  extract (query_text opts) (String "$" k) = lookup (String "$" k) opts.
Proof.
  intros opts Hk. induction opts as [|[key v] opts IH]; intros Hok; [reflexivity|].
  cbn [forallb] in Hok. apply andb_true_iff in Hok as [Hkv Hok].
  cbn [lookup]. destruct opts as [|kv' opts'].
  - cbn [query_text].
    pose proof (extract_option k key v "" Hk Hkv (or_introl eq_refl)) as X.
    rewrite append_nil_r in X. rewrite X.
    destruct (String.eqb (String "$" k) key); reflexivity.
  - change (query_text ((key, v) :: kv' :: opts'))
      with (key ++ "=" ++ v ++ "&" ++ query_text (kv' :: opts')).
    rewrite (extract_option k key v _ Hk Hkv (or_intror (ex_intro _ _ eq_refl))).
    destruct (String.eqb (String "$" k) key); [reflexivity|].
    rewrite <- (IH Hok). apply (extract_skip k "&"). reflexivity.
Qed.

Lemma parseQueryOption_lookup opts k :
  forallb option_ok opts = true -> ident k = true ->
  parseQueryOption (query_text opts) (String "$" k)
  = match lookup (String "$" k) opts with
    | Some v => v
    | None => ""
    end.
Proof.
  intros Hok Hk. now rewrite parseQueryOption_extract, extract_query.
Qed.

(** X3. In a query made of options joined by [&], each a name, [=] and a
    value without [&] and [$], [parseQueryOption] returns the value of the
    first option of the name asked for, and the empty string when there is
    none; where the option stands in the query, and what other options
    there are, does not matter. *)
Theorem parseQueryOption_query opts k :
  forallb option_ok opts = true -> ident k = true ->
  parseQueryOption (query_text opts) (String "$" k)
  = match lookup (String "$" k) opts with
    | Some v => v
    | None => ""
    end.
Proof. apply parseQueryOption_lookup. Qed.

Lemma parseQueryOption_query_witness :
  parseQueryOption "page=2&$top=5&$skip=10&$top=7" top = "5".
Proof.
  exact (parseQueryOption_query
           [("page", "2"); ("$top", "5"); ("$skip", "10"); ("$top", "7")] "top"
           eq_refl eq_refl).
Defined.

(** ** From the query to the text *)




